(** * Sprout build orchestration: image resolution, embedding, backend
      selection, log demultiplexing and artifact location

    A shallow embedding of the Go package [nix] of sprout
    ([nix/nix.go], [nix/build.go], [nix/build_docker.go],
    [internal/nix/docker.go]) together with the parts of the Go standard
    library it calls ([strings], [path/filepath], [bufio]).

    Go strings are byte sequences: they are modelled by [string], whose
    characters are the 256 byte values.  Go's [int] is taken to be 64 bits
    wide. *)

From Stdlib Require Import ZArith NArith Ascii String List Lia Bool.
From Stdlib Require Import Sorting.Permutation Sorting.Sorted DecimalString.
From stdpp Require Import gmap strings list sorting.

Set Default Proof Using "Type".
Set Warnings "-register-all,-clear-no-such-hyp".

(* ===================================================================== *)
(** * Part I.  The Go standard library as used by the package            *)
(* ===================================================================== *)

(** The numeric value of a byte. *)
Definition byte (c : ascii) : N := N_of_ascii c.

Definition newline : string := String "010"%char "".
Definition carriageReturn : ascii := "013"%char.

(** ** Package [strings] *)
Module strings.

(** [strings.HasPrefix(s, prefix)]. *)
Definition HasPrefix (s prefix : string) : bool := String.prefix prefix s.

(** [strings.HasSuffix(s, suffix)]:
    [len(s) >= len(suffix) && s[len(s)-len(suffix):] == suffix]. *)
Definition HasSuffix (s suffix : string) : bool :=
  (String.length suffix <=? String.length s)%nat &&
  String.eqb
    (String.substring (String.length s - String.length suffix)
                      (String.length suffix) s)
    suffix.

(** [strings.Contains(s, substr)]: some position of [s] starts with
    [substr]. *)
Fixpoint Contains (s substr : string) : bool :=
  String.prefix substr s ||
  match s with
  | EmptyString => false
  | String _ r => Contains r substr
  end.

(** [strings.TrimSuffix(s, suffix)]. *)
Definition TrimSuffix (s suffix : string) : string :=
  if HasSuffix s suffix
  then String.substring 0 (String.length s - String.length suffix) s
  else s.

(** [strings.ReplaceAll(s, old, new)] for a non-empty [old]: the
    non-overlapping occurrences of [old] are replaced from left to right.
    [skip] counts the bytes of the occurrence being stepped over. *)
Fixpoint replace_go (skip : nat) (old new s : string) : string :=
  match s with
  | EmptyString => EmptyString
  | String c r =>
      match skip with
      | S k => replace_go k old new r
      | O =>
          if String.prefix old s
          then new +:+ replace_go (String.length old - 1) old new r
          else String c (replace_go 0 old new r)
      end
  end.

Definition ReplaceAll (s old new : string) : string := replace_go 0 old new s.

(** [strings.Split(s, sep)] for a non-empty [sep]; the result is never
    empty, and [Split "" sep = [""]]. *)
Fixpoint split_go (skip : nat) (sep s : string) : list string :=
  match s with
  | EmptyString => [EmptyString]
  | String c r =>
      match skip with
      | S k => split_go k sep r
      | O =>
          if String.prefix sep s
          then EmptyString :: split_go (String.length sep - 1) sep r
          else match split_go 0 sep r with
               | p :: ps => String c p :: ps
               | [] => [String c EmptyString]
               end
      end
  end.

Definition Split (s sep : string) : list string := split_go 0 sep s.

(** [strings.Join(elems, sep)]. *)
Fixpoint Join (elems : list string) (sep : string) : string :=
  match elems with
  | [] => EmptyString
  | [e] => e
  | e :: rest => e +:+ sep +:+ Join rest sep
  end.

(** *** [strings.TrimSpace]

    [TrimSpace] removes the leading and trailing runes that satisfy
    [unicode.IsSpace].  On the UTF-8 bytes of the string these are the
    six ASCII characters tab, line feed, vertical tab, form feed,
    carriage return and space, and the encodings of U+0085, U+00A0,
    U+1680, U+2000..U+200A, U+2028, U+2029, U+202F, U+205F and U+3000.
    Any other byte sequence decodes to a rune that is not a space (an
    invalid sequence decodes to U+FFFD of width 1) and stops the trim. *)

Definition asciiSpace (b : N) : bool :=
  ((9 <=? b) && (b <=? 13) || (b =? 32))%N.

(** Two-byte encodings C2 85 (U+0085) and C2 A0 (U+00A0). *)
Definition space2 (b0 b1 : N) : bool :=
  ((b0 =? 194) && ((b1 =? 133) || (b1 =? 160)))%N.

(** Three-byte encodings of the remaining white-space runes. *)
Definition space3 (b0 b1 b2 : N) : bool :=
  ((b0 =? 225) && (b1 =? 154) && (b2 =? 128)
   || (b0 =? 226) && (b1 =? 128) &&
        ((128 <=? b2) && (b2 <=? 138) || (b2 =? 168) || (b2 =? 169) || (b2 =? 175))
   || (b0 =? 226) && (b1 =? 129) && (b2 =? 159)
   || (b0 =? 227) && (b1 =? 128) && (b2 =? 128))%N.

(** Width in bytes of the white-space rune at the front of [s], [0] when
    the first rune is not a space ([utf8.DecodeRuneInString] followed by
    [unicode.IsSpace]). *)
Definition spaceWidth (s : list ascii) : nat :=
  match s with
  | [] => 0
  | c0 :: r0 =>
      if asciiSpace (byte c0) then 1
      else match r0 with
           | [] => 0
           | c1 :: r1 =>
               if space2 (byte c0) (byte c1) then 2
               else match r1 with
                    | [] => 0
                    | c2 :: _ =>
                        if space3 (byte c0) (byte c1) (byte c2) then 3 else 0
                    end
           end
  end.

(** The same for the last rune, on the reversed byte sequence
    ([utf8.DecodeLastRuneInString]). *)
Definition spaceWidthLast (rs : list ascii) : nat :=
  match rs with
  | [] => 0
  | c0 :: r0 =>
      if asciiSpace (byte c0) then 1
      else match r0 with
           | [] => 0
           | c1 :: r1 =>
               if space2 (byte c1) (byte c0) then 2
               else match r1 with
                    | [] => 0
                    | c2 :: _ =>
                        if space3 (byte c2) (byte c1) (byte c0) then 3 else 0
                    end
           end
  end.

(** Drop runes from the front for as long as [width] recognises one. *)
Fixpoint trimLoop (width : list ascii -> nat) (s : list ascii) : list ascii :=
  match s with
  | [] => []
  | _ :: r0 =>
      match width s, r0 with
      | 0, _ => s
      | 1, _ => trimLoop width r0
      | 2, _ :: r1 => trimLoop width r1
      | _, _ :: _ :: r2 => trimLoop width r2
      | _, _ => s
      end
  end.

Definition TrimLeftSpace (s : list ascii) : list ascii := trimLoop spaceWidth s.

Definition TrimRightSpace (s : list ascii) : list ascii :=
  rev (trimLoop spaceWidthLast (rev s)).

Definition TrimSpace (s : string) : string :=
  string_of_list_ascii (TrimRightSpace (TrimLeftSpace (list_ascii_of_string s))).

End strings.

(** ** Package [path/filepath] (Unix) *)
Module filepath.

Definition Separator : ascii := "/"%char.

(** [filepath.Ext(path)]: the loop
    [for i := len(path)-1; i >= 0 && path[i] != '/'; i--] returning
    [path[i:]] at the first dot.  [ext_loop n path] has [i = n - 1]. *)
Fixpoint ext_loop (n : nat) (path : string) : string :=
  match n with
  | O => EmptyString
  | S i =>
      match String.get i path with
      | None => EmptyString
      | Some c =>
          if Ascii.eqb c Separator then EmptyString
          else if Ascii.eqb c "."%char
               then String.substring i (String.length path - i) path
               else ext_loop i path
      end
  end.

Definition Ext (path : string) : string := ext_loop (String.length path) path.

(** Strip trailing slashes ([for len(path) > 0 && path[len(path)-1] == '/']). *)
Fixpoint stripTrailingSlashes (path : string) : string :=
  match path with
  | EmptyString => EmptyString
  | String c r =>
      match stripTrailingSlashes r with
      | EmptyString => if Ascii.eqb c Separator then EmptyString else String c EmptyString
      | r' => String c r'
      end
  end.

(** The text after the last separator (all of [path] if there is none). *)
Fixpoint lastElement (path : string) : string :=
  match path with
  | EmptyString => EmptyString
  | String c r =>
      if strings.Contains r (String Separator EmptyString) then lastElement r
      else if Ascii.eqb c Separator then r
      else path
  end.

(** [filepath.Base(path)]. *)
Definition Base (path : string) : string :=
  if String.eqb path EmptyString then "."
  else
    let p := lastElement (stripTrailingSlashes path) in
    if String.eqb p EmptyString then String Separator EmptyString else p.

(** One step of [filepath.Clean] on the path elements: empty and [.]
    elements vanish, [..] removes the element before it when there is one
    to remove, is dropped at the root, and is kept at the front of a
    relative path. *)
Definition cleanStep (rooted : bool) (stack : list string) (elem : string)
  : list string :=
  if String.eqb elem "" || String.eqb elem "." then stack
  else if String.eqb elem ".." then
    match stack with
    | top :: rest => if String.eqb top ".." then elem :: stack else rest
    | [] => if rooted then [] else [elem]
    end
  else elem :: stack.

(** [filepath.Clean(path)]: the shortest path name equivalent to [path]
    by purely lexical processing. *)
Definition Clean (path : string) : string :=
  if String.eqb path "" then "."
  else
    let rooted := strings.HasPrefix path "/" in
    let stack := fold_left (cleanStep rooted) (strings.Split path "/") [] in
    let body := strings.Join (rev stack) "/" in
    if rooted then "/" +:+ body
    else if String.eqb body "" then "." else body.

(** [filepath.Join(elem...)]: leading empty elements are ignored, the
    rest is joined with separators and cleaned. *)
Fixpoint Join (elem : list string) : string :=
  match elem with
  | [] => EmptyString
  | e :: rest =>
      if String.eqb e "" then Join rest
      else Clean (strings.Join elem "/")
  end.

(** [filepath.Dir(path)]: all but the last element, cleaned. *)
Definition Dir (path : string) : string :=
  Clean (String.substring 0 (String.length path - String.length (lastElement path)) path).

End filepath.

(** ** Package [bufio]: a [Scanner] with the default [ScanLines] split *)
Module bufio.

(** [bufio.MaxScanTokenSize]: the scanner's buffer never grows beyond
    this, and [Scan] gives up with [ErrTooLong] when the buffer is full
    and holds no complete token. *)
Definition MaxScanTokenSize : N := 65536.

(** [dropCR]: drop one terminal carriage return. *)
Fixpoint dropCR (data : string) : string :=
  match data with
  | EmptyString => EmptyString
  | String c EmptyString => if Ascii.eqb c carriageReturn then EmptyString else data
  | String c r => String c (dropCR r)
  end.

(** The raw lines of [data]: the text between line feeds; text after the
    last line feed is a line only if it is not empty. *)
Definition rawLines (data : string) : list string :=
  let pieces := strings.Split data newline in
  match last pieces with
  | Some EmptyString => removelast pieces
  | _ => pieces
  end.

Definition fits (line : string) : bool :=
  (N.of_nat (String.length line) <? MaxScanTokenSize)%N.

(** The tokens delivered by [for scanner.Scan() { scanner.Text() }] over
    a reader holding [data]: the lines without their terminator, up to
    the first line that does not fit the buffer. *)
Fixpoint scanTokens (lines : list string) : list string :=
  match lines with
  | [] => []
  | l :: rest => if fits l then dropCR l :: scanTokens rest else []
  end.

Definition ScanLines (data : string) : list string := scanTokens (rawLines data).

End bufio.

(* ===================================================================== *)
(** * Part II.  Effects: a trace monad over an answering environment      *)
(* ===================================================================== *)

(** The package talks to the file system, the Docker daemon and child
    processes.  A computation performs operations; the environment answers
    each one, possibly depending on everything performed before, and the
    operations performed are recorded in order. *)
Section Effect.
Context {Op : Type} {Resp : Op -> Type}.

Definition World : Type := list Op -> forall o : Op, Resp o.

Definition M (A : Type) : Type := World -> list Op -> A * list Op.

Definition ret {A} (a : A) : M A := fun _ tr => (a, tr).

Definition bind {A B} (m : M A) (k : A -> M B) : M B :=
  fun w tr => let (a, tr') := m w tr in k a w tr'.

Definition perform (o : Op) : M (Resp o) :=
  fun w tr => (w tr o, tr ++ [o]).

(** Run from an empty history: the value and the operations performed. *)
Definition run {A} (m : M A) (w : World) : A * list Op := m w [].
End Effect.

Arguments World : clear implicits.
Arguments M : clear implicits.

Declare Scope effect_scope.
Delimit Scope effect_scope with effect.
Notation "x <- m ;; k" := (bind m (fun x => k))
  (at level 100, m at next level, right associativity) : effect_scope.

(** Go's [(T, error)] results. *)
Inductive result (E A : Type) : Type :=
| Ok (a : A)
| Err (e : E).
Arguments Ok {E A} a.
Arguments Err {E A} e.

(* ===================================================================== *)
(** * Part III.  ImageResolver ([processDockerComposeImages],
      [createModifiedComposeContent])                                     *)
(* ===================================================================== *)

(** ** compose-go's project model, as far as the package reads it *)
Module types.
Record BuildConfig : Type := { Context : string }.

(** [Build] is a pointer in Go: [None] is [nil]. *)
Record ServiceConfig : Type := {
  Name : string;
  Image : string;
  Build : option BuildConfig
}.

(** [types.Services] is [map[string]ServiceConfig]; the list gives the
    entries in the order in which a [range] visits them, which Go leaves
    unspecified. *)
Definition Services : Type := list (string * ServiceConfig).

Record Project : Type := { Services_ : Services }.
End types.

Record DockerImage : Type := {
  Name : string;      (* original image name from the compose file *)
  LocalTag : string;  (* local tag to use in the SD image *)
  TarPath : string    (* path of the saved image tar file *)
}.

Record DockerComposeConfig : Type := {
  Enabled : bool;
  Path : string;
  Content : string;
  ModifiedContent : string;
  Images : list DockerImage
}.

Record NetworkConfig : Type := { PSK : string }.

(** [Networks] is a Go [map[string]NetworkConfig]: the list holds its
    entries, each key once, in an order that carries no meaning. *)
Record WirelessConfig : Type := {
  WirelessEnabled : bool;
  Networks : list (string * NetworkConfig)
}.

Record OutputConfig : Type := { OutputPath : string }.

Record SproutFile : Type := {
  SSHKeys : list string;
  Wireless : WirelessConfig;
  Output : OutputConfig;
  DockerCompose : DockerComposeConfig;
  Autodiscovery : bool;
  SproutBinaryPath : string
}.

(** The two interchangeable build backends. *)
Inductive BackendKind : Type := LocalBackend | ContainerizedBackend.

(** The image name a service contributes: its declared image, else
    [<service.Name>:latest] when it has a build section, else nothing
    (the empty string). *)
Definition imageNameOf (service : types.ServiceConfig) : string :=
  if negb (String.eqb (types.Image service) "") then types.Image service
  else match types.Build service with
       | Some _ => types.Name service +:+ ":latest"
       | None => ""
       end.

(** "Create a safe local tag and filename". *)
Definition safeImageName (imageName : string) : string :=
  strings.ReplaceAll
    (strings.ReplaceAll (strings.ReplaceAll imageName "/" "_") ":" "_")
    "-" "_".

Definition localTag (imageName : string) : string :=
  "embedded/" +:+ safeImageName imageName.

Definition tarFileName (imageName : string) : string :=
  safeImageName imageName +:+ ".tar".

Definition newDockerImage (imageName : string) : DockerImage :=
  {| Name := imageName;
     LocalTag := localTag imageName;
     TarPath := "/tmp/" +:+ tarFileName imageName |}.

(** Reading a [map[string]bool]: a missing key reads as [false]. *)
Definition seen (imageMap : gmap string bool) (k : string) : bool :=
  default false (imageMap !! k).

(** One iteration of [for _, service := range project.Services]. *)
Definition extractStep (st : list DockerImage * gmap string bool)
    (entry : string * types.ServiceConfig) : list DockerImage * gmap string bool :=
  let '(images, imageMap) := st in
  let imageName := imageNameOf (snd entry) in
  if negb (String.eqb imageName "") && negb (seen imageMap imageName)
  then (images ++ [newDockerImage imageName], <[imageName := true]> imageMap)
  else st.

(** "Extract images from services": the loop of
    [processDockerComposeImages]. *)
Definition extractImages (services : types.Services) : list DockerImage :=
  fst (fold_left extractStep services ([], ∅)).

(** Reading a [map[string]string]: a missing key reads as [""]. *)
Definition mapping (imageMapping : gmap string string) (k : string) : string :=
  default "" (imageMapping !! k).

(** "Create a map of original image names to local tags". *)
Definition buildImageMapping (images : list DockerImage) : gmap string string :=
  fold_left (fun m img => <[Name img := LocalTag img]> m) images ∅.

(** The body of [for serviceName, service := range project.Services]. *)
Definition rewriteService (imageMapping : gmap string string)
    (serviceName : string) (service : types.ServiceConfig) : types.ServiceConfig :=
  if negb (String.eqb (types.Image service) "")
     && negb (String.eqb (mapping imageMapping (types.Image service)) "")
  then {| types.Name := types.Name service;
          types.Image := mapping imageMapping (types.Image service);
          types.Build := types.Build service |}
  else match types.Build service with
       | Some _ =>
           {| types.Name := types.Name service;
              types.Image := "embedded/" +:+ serviceName +:+ "_latest";
              types.Build := None |}
       | None => service
       end.

(** "Modify the project to use local image references"; each entry is
    written back under its own key. *)
Definition rewriteServices (images : list DockerImage)
    (services : types.Services) : types.Services :=
  let imageMapping := buildImageMapping images in
  map (fun entry => (fst entry, rewriteService imageMapping (fst entry) (snd entry)))
      services.

Inductive resolveError : Type :=
| ParseComposeFailed      (* "failed to parse docker-compose file" *)
| MarshalFailed.          (* "failed to marshal modified compose content" *)

Section Resolver.
(** [yaml.Marshal] of the project: the YAML text, or an error. *)
Variable yamlMarshal : types.Project -> option string.

Definition createModifiedComposeContent (dockerConfig : DockerComposeConfig)
    (project : types.Project)
  : result resolveError (DockerComposeConfig * types.Project) :=
  let project' :=
    {| types.Services_ := rewriteServices (Images dockerConfig) (types.Services_ project) |} in
  match yamlMarshal project' with
  | None => Err MarshalFailed
  | Some modifiedContent =>
      Ok ({| Enabled := Enabled dockerConfig;
             Path := Path dockerConfig;
             Content := Content dockerConfig;
             ModifiedContent := modifiedContent;
             Images := Images dockerConfig |}, project')
  end.

(** The resolution half of [processDockerComposeImages] on a loaded
    project: the image list is stored in the configuration, then the
    project is rewritten. *)
Definition resolveImages (dockerConfig : DockerComposeConfig)
    (project : types.Project)
  : result resolveError (DockerComposeConfig * types.Project) :=
  let dockerConfig' :=
    {| Enabled := Enabled dockerConfig;
       Path := Path dockerConfig;
       Content := Content dockerConfig;
       ModifiedContent := ModifiedContent dockerConfig;
       Images := extractImages (types.Services_ project) |} in
  createModifiedComposeContent dockerConfig' project.
End Resolver.

(* ===================================================================== *)
(** * Part IV.  ImageEmbedder ([buildAndSaveDockerImages] and its helpers,
      [internal/nix/docker.go])                                           *)
(* ===================================================================== *)

(** What the embedder asks of the outside world.  Closing of readers,
    files and the client is not recorded; neither are terminal colours. *)
Inductive DockerOp : Type :=
| LoadProject (composePath : string)        (* compose-go [options.LoadProject] *)
| NewClient                                 (* [client.NewClientWithOpts] *)
| ComposeBuild (workingDir service : string) (* [docker-compose build <service>] *)
| ImagePull (image platform : string)       (* [cli.ImagePull], response drained *)
| ImageTag (source target : string)         (* [cli.ImageTag] *)
| ImageSave (tag : string)                  (* [cli.ImageSave] *)
| CreateFile (path : string)                (* [os.Create] *)
| CopyToFile (path : string)                (* [io.Copy(tarFile, reader)] *)
| Printf (message : string).

(** The answer to each operation: whether it succeeded ([err == nil]). *)
Definition DockerResp (o : DockerOp) : Type :=
  match o with
  | LoadProject _ => option types.Project
  | Printf _ => unit
  | _ => bool
  end.

Definition Docker : Type -> Type := M DockerOp DockerResp.

Inductive embedError : Type :=
| ParseError (e : resolveError)
| ClientError                               (* "failed to create Docker client" *)
| BuildServiceError (service : string)      (* "failed to build service %s" *)
| ImageTagError (image tag : string)        (* "failed to tag image %s as %s" *)
| ImageSaveError (tag : string)             (* "failed to save image %s" *)
| CreateTarError (path : string)            (* "failed to create tar file %s" *)
| WriteTarError (path : string).            (* "failed to write image to tar file %s" *)

Local Open Scope effect_scope.

Definition buildLocalImage (imageName workingDir : string)
  : Docker (result embedError unit) :=
  let serviceName := strings.TrimSuffix imageName ":latest" in
  ok <- perform (ComposeBuild workingDir serviceName) ;;
  ret (if ok : bool then Ok tt else Err (BuildServiceError serviceName)).

Definition pullDefaultImage (imageName : string) : Docker (result embedError unit) :=
  _ <- perform (Printf ("ARM64 image not available, trying default platform: " +:+ imageName)) ;;
  ok <- perform (ImagePull imageName "") ;;
  if ok : bool then ret (Ok tt)
  else
    _ <- perform (Printf ("Warning: failed to pull image " +:+ imageName
                          +:+ ", assuming it exists locally")) ;;
    ret (Ok tt).

Definition pullImage (imageName : string) : Docker (result embedError unit) :=
  ok <- perform (ImagePull imageName "linux/arm64") ;;
  if ok : bool then
    _ <- perform (Printf ("Successfully pulled ARM64 image: " +:+ imageName)) ;;
    ret (Ok tt)
  else pullDefaultImage imageName.

Definition buildOrPullImage (img : DockerImage) (workingDir : string)
  : Docker (result embedError unit) :=
  if strings.HasSuffix (Name img) ":latest" && negb (strings.Contains (Name img) "/")
  then buildLocalImage (Name img) workingDir
  else pullImage (Name img).

Definition saveImageToFile (tarPath : string) : Docker (result embedError unit) :=
  created <- perform (CreateFile tarPath) ;;
  if created : bool then
    copied <- perform (CopyToFile tarPath) ;;
    ret (if copied : bool then Ok tt else Err (WriteTarError tarPath))
  else ret (Err (CreateTarError tarPath)).

Definition tagAndSaveImage (img : DockerImage) : Docker (result embedError unit) :=
  tagged <- perform (ImageTag (Name img) (LocalTag img)) ;;
  if tagged : bool then
    saved <- perform (ImageSave (LocalTag img)) ;;
    if saved : bool then saveImageToFile (TarPath img)
    else ret (Err (ImageSaveError (LocalTag img)))
  else ret (Err (ImageTagError (Name img) (LocalTag img))).

(** The loop [for i, img := range dockerConfig.Images]; the first error
    ends it. *)
Fixpoint embedLoop (images : list DockerImage) (workingDir : string)
  : Docker (result embedError unit) :=
  match images with
  | [] => ret (Ok tt)
  | img :: rest =>
      _ <- perform (Printf ("Processing: " +:+ Name img)) ;;
      r <- buildOrPullImage img workingDir ;;
      match r with
      | Err e => ret (Err e)
      | Ok _ =>
          r' <- tagAndSaveImage img ;;
          match r' with
          | Err e => ret (Err e)
          | Ok _ =>
              _ <- perform (Printf ("Saved: " +:+ LocalTag img)) ;;
              embedLoop rest workingDir
          end
      end
  end.

Definition buildAndSaveDockerImages (dockerConfig : DockerComposeConfig)
    (workingDir : string) : Docker (result embedError unit) :=
  _ <- perform (Printf "Building and saving Docker images...") ;;
  ok <- perform NewClient ;;
  if ok : bool then embedLoop (Images dockerConfig) workingDir
  else ret (Err ClientError).

Section Pipeline.
Variable yamlMarshal : types.Project -> option string.

(** [processDockerComposeImages]: load the project, extract the images,
    rewrite the project, then build or pull, tag and save every image. *)
Definition processDockerComposeImages (dockerConfig : DockerComposeConfig)
    (composePath : string) : Docker (result embedError DockerComposeConfig) :=
  loaded <- perform (LoadProject composePath) ;;
  match loaded : option types.Project with
  | None => ret (Err (ParseError ParseComposeFailed))
  | Some project =>
      match resolveImages yamlMarshal dockerConfig project with
      | Err e => ret (Err (ParseError e))
      | Ok (dockerConfig', _) =>
          r <- buildAndSaveDockerImages dockerConfig' (filepath.Dir composePath) ;;
          ret (match r with
               | Ok _ => Ok dockerConfig'
               | Err e => Err e
               end)
      end
  end.
End Pipeline.

(* ===================================================================== *)
(** * Part V.  ArtifactLocator ([FindImageFile], [nix/nix.go])            *)
(* ===================================================================== *)

Record DirEntry : Type := { EntryName : string; EntryIsDir : bool }.

(** The outcome of [os.Stat]: the file's [IsDir()], a "does not exist"
    error, or some other error. *)
Inductive StatResult : Type :=
| StatOk (isDir : bool)
| StatNotExist
| StatError.

Inductive FsOp : Type :=
| Stat (path : string)      (* [os.Stat] *)
| ReadDir (path : string).  (* [os.ReadDir]; [None] is a non-nil error *)

Definition FsResp (o : FsOp) : Type :=
  match o with
  | Stat _ => StatResult
  | ReadDir _ => option (list DirEntry)
  end.

Definition Fs : Type -> Type := M FsOp FsResp.

Inductive locateError : Type :=
| PathDoesNotExist (path : string)    (* "path does not exist: %s" *)
| DockerImageNotFound (path : string) (* "Docker build completed but image file not found at %s" *)
| ImageFileNotFound (path : string)   (* "image file not found: neither %s nor %s/sd-image/*.img exists" *)
| ReadDirError                        (* "failed to read sd-image directory" *)
| NoImgFile.                          (* "no .img file found in sd-image directory" *)

Definition isImg (name : string) : bool := String.eqb (filepath.Ext name) ".img".

(** "Find the .img file": the loop over the directory entries. *)
Fixpoint firstImgEntry (entries : list DirEntry) : option DirEntry :=
  match entries with
  | [] => None
  | entry :: rest =>
      if negb (EntryIsDir entry) && isImg (EntryName entry) then Some entry
      else firstImgEntry rest
  end.

Definition FindImageFile (basePath : string) : Fs (result locateError string) :=
  st <- perform (Stat basePath) ;;
  match st : StatResult with
  | StatOk isDir =>
      if negb isDir && isImg basePath then ret (Ok basePath)
      else if strings.Contains basePath "sprout-docker-" then
        if String.eqb (filepath.Base basePath) "result.img" then
          ret (if negb isDir then Ok basePath else Err (DockerImageNotFound basePath))
        else
          let resultImg := filepath.Join [basePath; "result.img"] in
          st' <- perform (Stat resultImg) ;;
          ret (match st' : StatResult with
               | StatOk _ => Ok resultImg
               | _ => Err (DockerImageNotFound resultImg)
               end)
      else
        let sdImageDir := filepath.Join [basePath; "sd-image"] in
        st' <- perform (Stat sdImageDir) ;;
        match st' : StatResult with
        | StatNotExist => ret (Err (ImageFileNotFound basePath))
        | _ =>
            entries <- perform (ReadDir sdImageDir) ;;
            ret (match entries : option (list DirEntry) with
                 | None => Err ReadDirError
                 | Some es =>
                     match firstImgEntry es with
                     | Some entry => Ok (filepath.Join [sdImageDir; EntryName entry])
                     | None => Err NoImgFile
                     end
                 end)
        end
  | _ => ret (Err (PathDoesNotExist basePath))
  end.

(** The locator as the design describes it, dispatching on the kind of
    backend that reported the path: a path that already names an image
    file is returned; a Containerized result is searched for the
    well-known file [result.img] (or accepted when it already is that
    file); a Local result is searched, in its [sd-image] directory, for
    exactly one image file. *)
Definition locateByKind (kind : BackendKind) (reported : string)
  : Fs (result locateError string) :=
  st <- perform (Stat reported) ;;
  match st : StatResult with
  | StatOk isDir =>
      if negb isDir && isImg reported then ret (Ok reported)
      else match kind with
           | ContainerizedBackend =>
               if String.eqb (filepath.Base reported) "result.img" then
                 ret (if negb isDir then Ok reported else Err (DockerImageNotFound reported))
               else
                 let resultImg := filepath.Join [reported; "result.img"] in
                 st' <- perform (Stat resultImg) ;;
                 ret (match st' : StatResult with
                      | StatOk _ => Ok resultImg
                      | _ => Err (DockerImageNotFound resultImg)
                      end)
           | LocalBackend =>
               let sdImageDir := filepath.Join [reported; "sd-image"] in
               entries <- perform (ReadDir sdImageDir) ;;
               ret (match entries : option (list DirEntry) with
                    | None => Err (ImageFileNotFound reported)
                    | Some es =>
                        match filter (fun entry => negb (EntryIsDir entry) && isImg (EntryName entry)) es with
                        | [entry] => Ok (filepath.Join [sdImageDir; EntryName entry])
                        | _ => Err NoImgFile
                        end
                    end)
           end
  | _ => ret (Err (PathDoesNotExist reported))
  end.

(** A file system given by a table of paths: files, and directories with
    their entries (in the order [os.ReadDir] lists them). *)
Inductive Node : Type :=
| File
| Dir (entries : list DirEntry).

Definition tableFs (table : list (string * Node)) : World FsOp FsResp :=
  fun _ o =>
    match o with
    | Stat p =>
        match list_find (fun kv => String.eqb (fst kv) p) table with
        | Some (_, (_, File)) => StatOk false
        | Some (_, (_, Dir _)) => StatOk true
        | None => StatNotExist
        end
    | ReadDir p =>
        match list_find (fun kv => String.eqb (fst kv) p) table with
        | Some (_, (_, Dir es)) => Some es
        | _ => None
        end
    end.

(* ===================================================================== *)
(** * Part VI.  BuildBackendSelector ([Build], [nix/build.go])            *)
(* ===================================================================== *)

(** The process environment: the variables that are set, and what
    [exec.LookPath] finds on the search path. *)
Record Environment : Type := {
  environ : gmap string string;
  LookPath : string -> option string
}.

(** [os.Getenv]: the value, or [""] when the variable is not set. *)
Definition Getenv (env : Environment) (key : string) : string :=
  default "" (environ env !! key).

Section Selector.
Context {R : Type}.
(** The two backends, [buildLocal(nixPath, filename, sproutFile)] and
    [buildWithDocker(filename, sproutFile)]. *)
Variable buildLocal : string -> string -> SproutFile -> R.
Variable buildWithDocker : string -> SproutFile -> R.

Definition Build (env : Environment) (filename : string)
    (sproutFile : SproutFile) : R :=
  if negb (String.eqb (Getenv env "SPROUT_DISABLE_LOCAL_NIX") "")
  then buildWithDocker filename sproutFile
  else match LookPath env "nix-build" with
       | Some nixPath => buildLocal nixPath filename sproutFile
       | None => buildWithDocker filename sproutFile
       end.
End Selector.

(** Which backend a run of [Build] hands the build to. *)
Definition selectedBackend (env : Environment) (filename : string)
    (sproutFile : SproutFile) : BackendKind :=
  Build (fun _ _ _ => LocalBackend) (fun _ _ => ContainerizedBackend)
        env filename sproutFile.


(* ===================================================================== *)
(** * Part VII.  ContainerizedBackend: the log demultiplexer and the
      store-path extraction ([processDockerLogs], [extractNixStorePath],
      [nix/build_docker.go])                                              *)
(* ===================================================================== *)

(** [int(header[i])]. *)
Definition byteAt (s : string) (i : nat) : Z :=
  match String.get i s with
  | Some c => Z.of_N (byte c)
  | None => 0
  end.

(** [int(header[4])<<24 | int(header[5])<<16 | int(header[6])<<8 | int(header[7])];
    with a 64-bit [int] nothing is lost on the left. *)
Definition payloadSize (header : string) : Z :=
  Z.lor (Z.lor (Z.lor (Z.shiftl (byteAt header 4) 24)
                      (Z.shiftl (byteAt header 5) 16))
               (Z.shiftl (byteAt header 6) 8))
        (byteAt header 7).

(** [io.ReadFull(logs, buf)] with [len(buf) = n] on a stream that ends
    after [logs]: the [n] bytes and the rest of the stream, or an error
    when fewer than [n] bytes are left. *)
Definition readFull (n : Z) (logs : string) : option (string * string) :=
  if (Z.of_nat (String.length logs) <? n)%Z then None
  else Some (String.substring 0 (Z.to_nat n) logs,
             String.substring (Z.to_nat n) (String.length logs - Z.to_nat n) logs).

(** "Process payload line by line": every non-blank trimmed line is
    written to the builder, followed by a line feed. *)
Fixpoint writeLines (tokens : list string) (buildOutput : string) : string :=
  match tokens with
  | [] => buildOutput
  | text :: rest =>
      let line := strings.TrimSpace text in
      if negb (String.eqb line "")
      then writeLines rest (buildOutput +:+ line +:+ newline)
      else writeLines rest buildOutput
  end.

(** The [for] loop of [processDockerLogs]; [fuel] bounds the number of
    iterations. *)
Fixpoint logLoop (fuel : nat) (logs : string) (buildOutput : string) : string :=
  match fuel with
  | O => buildOutput
  | S fuel' =>
      match readFull 8 logs with
      | None => buildOutput                              (* break *)
      | Some (header, rest) =>
          let size := payloadSize header in
          if (size <=? 0)%Z then logLoop fuel' rest buildOutput   (* continue *)
          else match readFull size rest with
               | None => buildOutput                     (* break *)
               | Some (payload, rest') =>
                   logLoop fuel' rest' (writeLines (bufio.ScanLines payload) buildOutput)
               end
      end
  end.

(** [processDockerLogs(logs, &buildOutput)]: the content of the builder
    when the loop ends.  Every iteration consumes at least the eight bytes
    of a header, so [length logs] iterations are enough. *)
Definition processDockerLogs (logs : string) (buildOutput : string) : string :=
  logLoop (String.length logs) logs buildOutput.

Definition storePrefix : string := "/nix/store/".

(** [for i := len(lines) - 1; i >= 0; i--] with [n = i + 1]; the result is
    [nixStorePath], [""] when no line matched. *)
Fixpoint scanBack (n : nat) (lines : list string) : string :=
  match n with
  | O => ""
  | S i =>
      let line := strings.TrimSpace (nth i lines "") in
      if strings.HasPrefix line storePrefix then line else scanBack i lines
  end.

Inductive extractionError : Type :=
| NoStorePath.   (* "could not find Nix store path in build output" *)

Definition extractNixStorePath (output : string) : result extractionError string :=
  let lines := strings.Split (strings.TrimSpace output) newline in
  let nixStorePath := scanBack (length lines) lines in
  if String.eqb nixStorePath "" then Err NoStorePath else Ok nixStorePath.

(** A frame of the multiplexed stream: four bytes naming the stream, the
    payload length in four bytes, most significant first, and the
    payload. *)
Definition be32 (n : Z) : string :=
  String (ascii_of_N (Z.to_N (Z.land (Z.shiftr n 24) 255)))
    (String (ascii_of_N (Z.to_N (Z.land (Z.shiftr n 16) 255)))
       (String (ascii_of_N (Z.to_N (Z.land (Z.shiftr n 8) 255)))
          (String (ascii_of_N (Z.to_N (Z.land n 255))) ""))).

Definition frame (streamTag payload : string) : string :=
  streamTag +:+ be32 (Z.of_nat (String.length payload)) +:+ payload.

Fixpoint frames (fs : list (string * string)) : string :=
  match fs with
  | [] => ""
  | (streamTag, payload) :: rest => frame streamTag payload +:+ frames rest
  end.

(** The header of a stdout frame and of a stderr frame. *)
Definition stdoutTag : string :=
  String "001"%char (String "000"%char (String "000"%char (String "000"%char ""))).
Definition stderrTag : string :=
  String "002"%char (String "000"%char (String "000"%char (String "000"%char ""))).

(* ===================================================================== *)
(** * Part VIII.  TemplateRenderer ([GenerateImage], [nix/build.go])      *)
(* ===================================================================== *)

(** ** The data a template sees

    [text/template] walks its argument by reflection.  The values reachable
    from a [SproutFile] are strings, booleans, slices, maps with string
    keys and structs; a [range] over a slice also binds integer indices,
    and a missing map key yields the invalid value.  A map keeps its
    entries in whatever order the runtime holds them. *)
Inductive value : Type :=
| VString (s : string)
| VBool (b : bool)
| VInt (n : nat)
| VInvalid
| VSlice (elems : list value)
| VMap (entries : list (string * value))
| VStruct (fields : list (string * value)).

(** The part of the template language that is modelled: text, [{{pipeline}}]
    actions printing a field chain or a variable, [if], [with] and [range]
    with their [else] branches, and the variables declared by [range]. *)
Inductive expr : Type :=
| EDot
| EVar (name : string)
| EField (e : expr) (name : string).

Inductive node : Type :=
| NText (text : string)
| NAction (e : expr)
| NIf (e : expr) (body orElse : list node)
| NWith (e : expr) (body orElse : list node)
| NRange (vars : list string) (e : expr) (body orElse : list node).

Fixpoint lookupField (name : string) (fields : list (string * value)) : option value :=
  match fields with
  | [] => None
  | (k, v) :: rest => if String.eqb k name then Some v else lookupField name rest
  end.

(** Map keys are visited in sorted order, strings being compared byte by
    byte. *)
Fixpoint insertEntry {A} (e : string * A) (sorted : list (string * A)) : list (string * A) :=
  match sorted with
  | [] => [e]
  | x :: rest =>
      if String.leb (fst e) (fst x) then e :: sorted else x :: insertEntry e rest
  end.

Definition sortEntries {A} (entries : list (string * A)) : list (string * A) :=
  fold_right insertEntry [] entries.

Definition printNat (n : nat) : string :=
  DecimalString.NilZero.string_of_uint (Nat.to_uint n).

(** [fmt]'s [%v] of a value, as an action prints it. *)
Fixpoint printValue (v : value) : string :=
  match v with
  | VString s => s
  | VBool b => if b then "true" else "false"
  | VInt n => printNat n
  | VInvalid => "<no value>"
  | VSlice elems => "[" +:+ strings.Join (map printValue elems) " " +:+ "]"
  | VMap entries =>
      "map[" +:+
      strings.Join (map (fun kv => fst kv +:+ ":" +:+ snd kv)
                        (sortEntries (map (fun kv => (fst kv, printValue (snd kv))) entries)))
                   " " +:+ "]"
  | VStruct fields => "{" +:+ strings.Join (map (fun kv => printValue (snd kv)) fields) " " +:+ "}"
  end.

(** The truth of a pipeline value in [if] and [with]. *)
Definition isTrue (v : value) : bool :=
  match v with
  | VString s => negb (String.eqb s "")
  | VBool b => b
  | VInt n => negb (Nat.eqb n 0)
  | VInvalid => false
  | VSlice elems => negb (Nat.eqb (length elems) 0)
  | VMap entries => negb (Nat.eqb (length entries) 0)
  | VStruct _ => true
  end.

Definition Vars : Type := list (string * value).

(** Evaluation of a field chain; [None] is an execution error. *)
Fixpoint eval (e : expr) (dot : value) (vars : Vars) : option value :=
  match e with
  | EDot => Some dot
  | EVar name => lookupField name vars
  | EField e' name =>
      match eval e' dot vars with
      | Some (VStruct fields) => lookupField name fields
      | Some (VMap entries) =>
          Some (default VInvalid (lookupField name entries))
      | _ => None
      end
  end.

(** The items a [range] visits, each with its key or index. *)
Definition rangeItems (v : value) : option (list (value * value)) :=
  match v with
  | VSlice elems => Some (imap (fun i x => (VInt i, x)) elems)
  | VMap entries => Some (map (fun kv => (VString (fst kv), snd kv)) (sortEntries entries))
  | _ => None
  end.

(** The variables a [range] declares: one names the element, two name the
    key and the element. *)
Definition bindRange (names : list string) (key elem : value) (vars : Vars) : Vars :=
  match names with
  | [] => vars
  | [x] => (x, elem) :: vars
  | k :: x :: _ => (x, elem) :: (k, key) :: vars
  end.

(** Run [step] on every element in turn and concatenate the outputs; the
    first error ends the run. *)
Section Sequence.
Context {A : Type}.
Variable step : A -> option string.

Fixpoint sequence (l : list A) : option string :=
  match l with
  | [] => Some ""
  | x :: rest =>
      match step x with
      | None => None
      | Some out =>
          match sequence rest with
          | None => None
          | Some out' => Some (out +:+ out')
          end
      end
  end.
End Sequence.

Fixpoint exec (n : node) (dot : value) (vars : Vars) {struct n} : option string :=
  match n with
  | NText text => Some text
  | NAction e => printValue <$> eval e dot vars
  | NIf e body orElse =>
      match eval e dot vars with
      | None => None
      | Some v =>
          if isTrue v then sequence (fun n' => exec n' dot vars) body
          else sequence (fun n' => exec n' dot vars) orElse
      end
  | NWith e body orElse =>
      match eval e dot vars with
      | None => None
      | Some v =>
          if isTrue v then sequence (fun n' => exec n' v vars) body
          else sequence (fun n' => exec n' dot vars) orElse
      end
  | NRange names e body orElse =>
      match eval e dot vars with
      | None => None
      | Some v =>
          match rangeItems v with
          | None => None
          | Some [] => sequence (fun n' => exec n' dot vars) orElse
          | Some items =>
              sequence
                (fun item =>
                   sequence
                     (fun n' =>
                        exec n' (snd item) (bindRange names (fst item) (snd item) vars))
                     body)
                items
          end
      end
  end.

Definition execList (ns : list node) (dot : value) (vars : Vars) : option string :=
  sequence (fun n => exec n dot vars) ns.

(** ** The [SproutFile] as the template sees it *)
Definition reflectImage (img : DockerImage) : value :=
  VStruct [("Name", VString (Name img));
           ("LocalTag", VString (LocalTag img));
           ("TarPath", VString (TarPath img))].

Definition reflectNetwork (nc : NetworkConfig) : value :=
  VStruct [("PSK", VString (PSK nc))].

Definition reflectSproutFile (sf : SproutFile) : value :=
  VStruct
    [("SSHKeys", VSlice (map VString (SSHKeys sf)));
     ("Wireless",
       VStruct [("Enabled", VBool (WirelessEnabled (Wireless sf)));
                ("Networks",
                  VMap (map (fun kv => (fst kv, reflectNetwork (snd kv)))
                            (Networks (Wireless sf))))]);
     ("Output", VStruct [("Path", VString (OutputPath (Output sf)))]);
     ("DockerCompose",
       VStruct [("Enabled", VBool (Enabled (DockerCompose sf)));
                ("Path", VString (Path (DockerCompose sf)));
                ("Content", VString (Content (DockerCompose sf)));
                ("ModifiedContent", VString (ModifiedContent (DockerCompose sf)));
                ("Images", VSlice (map reflectImage (Images (DockerCompose sf))))]);
     ("Autodiscovery", VBool (Autodiscovery sf));
     ("SproutBinaryPath", VString (SproutBinaryPath sf))].

Inductive templateError : Type :=
| TemplateParseError
| TemplateExecError.

Section Renderer.
(** The embedded template text [image.nix.tmpl] and the parser of
    [text/template]; the template file is not part of the sources
    modelled here. *)
Variable imageNixTemplate : string.
Variable parse : string -> option (list node).

Definition GenerateImage (sproutFile : SproutFile) : result templateError string :=
  match parse imageNixTemplate with
  | None => Err TemplateParseError
  | Some tmpl =>
      match execList tmpl (reflectSproutFile sproutFile) [("$", reflectSproutFile sproutFile)] with
      | None => Err TemplateExecError
      | Some text => Ok text
      end
  end.
End Renderer.

(** Two maps hold the same entries. *)
Definition sameMap {A} (m1 m2 : list (string * A)) : Prop :=
  NoDup (map fst m1) /\ NoDup (map fst m2) /\ Permutation m1 m2.

(** Equality of configurations as Go values: field by field, maps by their
    entries. *)
Definition equalConfig (c1 c2 : SproutFile) : Prop :=
  SSHKeys c1 = SSHKeys c2
  /\ WirelessEnabled (Wireless c1) = WirelessEnabled (Wireless c2)
  /\ sameMap (Networks (Wireless c1)) (Networks (Wireless c2))
  /\ Output c1 = Output c2
  /\ DockerCompose c1 = DockerCompose c2
  /\ Autodiscovery c1 = Autodiscovery c2
  /\ SproutBinaryPath c1 = SproutBinaryPath c2.

(* ===================================================================== *)
(** * Part IX.  Notions used in the statements and their proofs           *)
(* ===================================================================== *)

Fixpoint mapBytes (f : ascii -> ascii) (s : string) : string :=
  match s with
  | EmptyString => EmptyString
  | String c r => String (f c) (mapBytes f r)
  end.

(** The byte-wise reading of the three [ReplaceAll] calls. *)
Definition safeByte (c : ascii) : ascii :=
  if Ascii.eqb "-" (if Ascii.eqb ":" (if Ascii.eqb "/" c then "_" else c) then "_"
                    else (if Ascii.eqb "/" c then "_" else c))
  then "_"%char
  else (if Ascii.eqb ":" (if Ascii.eqb "/" c then "_" else c) then "_"
        else (if Ascii.eqb "/" c then "_" else c)).

Definition canonicalRefs (services : types.Services) : list string :=
  filter (fun r => r <> "") (map (fun entry => imageNameOf (snd entry)) services).

Definition extractState (services : types.Services) : list DockerImage * gmap string bool :=
  fold_left extractStep services ([], ∅).

Definition names (images : list DockerImage) : list string := map Name images.

(** The invariant of the extraction loop. *)
Record extractInv (services : types.Services) (st : list DockerImage * gmap string bool) : Prop := {
  inv_nodup : NoDup (names (fst st));
  inv_seen : forall k, seen (snd st) k = true <-> k ∈ names (fst st);
  inv_refs : forall k, k ∈ names (fst st) <-> k ∈ canonicalRefs services;
  inv_made : Forall (fun img => img = newDockerImage (Name img)) (fst st)
}.

Definition service (name image : string) (build : option types.BuildConfig) : string * types.ServiceConfig :=
  (name, {| types.Name := name; types.Image := image; types.Build := build |}).

Definition collidingServices : types.Services :=
  [service "api" "my-app:1" None; service "worker" "my_app:1" None].

Definition hyphenatedServices : types.Services :=
  [service "my-app" "" (Some {| types.Context := "./app" |})].

Definition imageAndBuildServices : types.Services :=
  [service "web" "nginx:1" (Some {| types.Context := "./web" |})].

Definition disableVar : string := "SPROUT_DISABLE_LOCAL_NIX".

Definition disabled (env : Environment) : Prop :=
  exists v, environ env !! disableVar = Some v /\ v <> "".

Definition emptySproutFile : SproutFile :=
  {| SSHKeys := [];
     Wireless := {| WirelessEnabled := false; Networks := [] |};
     Output := {| OutputPath := "" |};
     DockerCompose := {| Enabled := false; Path := ""; Content := "";
                         ModifiedContent := ""; Images := [] |};
     Autodiscovery := false;
     SproutBinaryPath := "" |}.

(** The variable is set and nix-build is installed. *)
Definition disabledEnv : Environment :=
  {| environ := {[ disableVar := "1" ]};
     LookPath := fun file => if String.eqb file "nix-build" then Some "/usr/bin/nix-build" else None |}.

Definition opsOf {Op Resp A} (m : M Op Resp A) (w : World Op Resp) (history : list Op) : list Op :=
  snd (m w history).

Definition valueOf {Op Resp A} (m : M Op Resp A) (w : World Op Resp) (history : list Op) : A :=
  fst (m w history).

Definition isComposeBuild (o : DockerOp) : bool :=
  match o with ComposeBuild _ _ => true | _ => false end.

(** A daemon on which every operation succeeds, loading [project]. *)
Definition obligingDocker (project : types.Project) : World DockerOp DockerResp :=
  fun _ o =>
    match o with
    | LoadProject _ => Some project
    | Printf _ => tt
    | _ => true
    end.

Definition redisProject : types.Project :=
  {| types.Services_ := [service "cache" "redis:latest" None] |}.

Definition emptyDockerConfig : DockerComposeConfig :=
  {| Enabled := true; Path := "docker-compose.yaml"; Content := "";
     ModifiedContent := ""; Images := [] |}.

Definition imageFileFs : World FsOp FsResp :=
  tableFs [("/home/u/build/sprout-docker-42/result.img", File);
           ("/home/u/build/sprout-docker-42", Dir [{| EntryName := "result.img"; EntryIsDir := false |}])].

(** What a backend can report: the Containerized backend returns a line
    that starts with the store prefix, the Local backend the last
    non-blank line its tool printed. *)
Definition reportedBy (kind : BackendKind) (path : string) : Prop :=
  match kind with
  | ContainerizedBackend => strings.HasPrefix path storePrefix = true
  | LocalBackend => path <> ""
  end.

Definition isImgFile (entry : DirEntry) : bool :=
  negb (EntryIsDir entry) && isImg (EntryName entry).

(** A store path that holds [result.img] and no [sd-image] directory. *)
Definition storeFs : World FsOp FsResp :=
  tableFs [("/nix/store/k3v9-nixos-image", Dir [{| EntryName := "result.img"; EntryIsDir := false |}]);
           ("/nix/store/k3v9-nixos-image/result.img", File)].

(** A build result whose name contains [sprout-docker-], laid out as the
    local tool leaves it. *)
Definition localFs : World FsOp FsResp :=
  tableFs [("/nix/store/k3v9-sprout-docker-demo", Dir [{| EntryName := "sd-image"; EntryIsDir := true |}]);
           ("/nix/store/k3v9-sprout-docker-demo/sd-image",
              Dir [{| EntryName := "nixos.img"; EntryIsDir := false |}]);
           ("/nix/store/k3v9-sprout-docker-demo/sd-image/nixos.img", File)].

Definition bytes (s : string) : list ascii := list_ascii_of_string s.

(** A width function that never claims more bytes than there are, and at
    most three. *)
Definition saneWidth (width : list ascii -> nat) : Prop :=
  forall s, width s <= 3 /\ width s <= length s.

(** A string is trimmed when neither end carries a white-space rune. *)
Definition trimmed (l : list ascii) : Prop :=
  strings.spaceWidth l = 0 /\ strings.spaceWidthLast (rev l) = 0.

Definition lf : ascii := "010"%char.

Definition noNewline (s : string) : Prop := lf ∉ bytes s.

(** The text of the builder after the lines [ls] have been written. *)
Fixpoint joinLines (ls : list string) : string :=
  match ls with
  | [] => ""
  | l :: rest => l +:+ newline +:+ joinLines rest
  end.

(** A line as [writeLines] accumulates it: not empty, trimmed, and on one
    line. *)
Definition accumulatedLine (l : string) : Prop :=
  l <> "" /\ strings.TrimSpace l = l /\ noNewline l.

Definition hasStorePrefix (l : string) : bool := strings.HasPrefix l storePrefix.

Definition sampleLines : list string :=
  ["building '/nix/store/q1-nixos.drv'..."; "/nix/store/a7-early"; "copying path";
   "/nix/store/z9-nixos-sd-image"; "done"].

(** The lines [writeLines] keeps of the scanner's tokens. *)
Definition acceptedLines (tokens : list string) : list string :=
  filter (fun l => l <> "") (map strings.TrimSpace tokens).

Definition wellFormedFrame (f : string * string) : Prop :=
  String.length (fst f) = 4 /\ (Z.of_nat (String.length (snd f)) < 2 ^ 32)%Z.

(** What is left of a stream that breaks off inside a frame: fewer than
    eight bytes, or a whole header and less payload than it announces. *)
Definition truncatedFrame (tail : string) : Prop :=
  String.length tail < 8
  \/ exists header partial,
       tail = header +:+ partial /\ String.length header = 8
       /\ (Z.of_nat (String.length partial) < payloadSize header)%Z.

(** All payloads of the complete frames, line by line. *)
Fixpoint writeFrames (fs : list (string * string)) (b : string) : string :=
  match fs with
  | [] => b
  | (_, payload) :: rest => writeFrames rest (writeLines (bufio.ScanLines payload) b)
  end.

(** Padding made of ASCII white space only. *)
Definition blank (pad : string) : Prop :=
  forallb (fun c => strings.asciiSpace (byte c)) (bytes pad) = true.

Definition okLine : string := "ok" +:+ newline.
Definition errLine : string := "err" +:+ newline.

Definition twoSpaces : string := "  ".

(** Two values are the same Go value: equal, except that the entries of a
    map may be held in a different order. *)
Inductive sameValue : value -> value -> Prop :=
| same_refl v : sameValue v v
| same_map m1 m2 :
    NoDup (map fst m1) -> Permutation m1 m2 -> sameValue (VMap m1) (VMap m2)
| same_slice l1 l2 : sameValues l1 l2 -> sameValue (VSlice l1) (VSlice l2)
| same_struct f1 f2 : sameFields f1 f2 -> sameValue (VStruct f1) (VStruct f2)
with sameValues : list value -> list value -> Prop :=
| same_nil : sameValues [] []
| same_cons v1 v2 l1 l2 :
    sameValue v1 v2 -> sameValues l1 l2 -> sameValues (v1 :: l1) (v2 :: l2)
with sameFields : list (string * value) -> list (string * value) -> Prop :=
| sameFields_nil : sameFields [] []
| sameFields_cons k v1 v2 f1 f2 :
    sameValue v1 v2 -> sameFields f1 f2 -> sameFields ((k, v1) :: f1) ((k, v2) :: f2).

Scheme sameValue_mut := Minimality for sameValue Sort Prop
  with sameValues_mut := Minimality for sameValues Sort Prop
  with sameFields_mut := Minimality for sameFields Sort Prop.

Definition sameItem (a b : value * value) : Prop :=
  sameValue (fst a) (fst b) /\ sameValue (snd a) (snd b).

Definition keyLe {A} (a b : string * A) : Prop := String.le (fst a) (fst b).

Definition execInvariant (n : node) : Prop :=
  forall d1 d2 vars1 vars2,
    sameValue d1 d2 -> sameFields vars1 vars2 -> exec n d1 vars1 = exec n d2 vars2.

Definition homeConfig (networks : list (string * NetworkConfig)) : SproutFile :=
  {| SSHKeys := ["ssh-ed25519 AAAA"];
     Wireless := {| WirelessEnabled := true; Networks := networks |};
     Output := {| OutputPath := "build/image.img" |};
     DockerCompose := {| Enabled := false; Path := ""; Content := "";
                         ModifiedContent := ""; Images := [] |};
     Autodiscovery := true;
     SproutBinaryPath := "" |}.

(** A template that lists the wireless networks and the ssh keys. *)
Definition sampleTemplate : list node :=
  [NRange ["$ssid"; "$net"] (EField (EField EDot "Wireless") "Networks")
     [NAction (EVar "$ssid"); NText "="; NAction (EField (EVar "$net") "PSK"); NText ";"]
     [NText "none"];
   NIf (EField EDot "Autodiscovery") [NText "mdns"] [];
   NRange [] (EField EDot "SSHKeys") [NText " "; NAction EDot] []].

(* ===================================================================== *)
(** * Part IX, continued.  Further functions of the package: the rolling
      display, the loaders, the other locators, [copyDockerImages]       *)
(* ===================================================================== *)

(** ** The rolling display ([nix/display.go]) *)

(** The package-level variables [displayLines], [displayIndex] and
    [displayInitialized]; the mutex makes every call atomic, so calls are
    taken one after the other. *)
Record Display : Type := {
  displayLines : list string;
  displayIndex : nat;
  displayInitialized : bool
}.

(** [make([]string, 4)], [0], [false]. *)
Definition initialDisplay : Display :=
  {| displayLines := [""; ""; ""; ""]; displayIndex := 0; displayInitialized := false |}.

Definition esc : string := String "027"%char "".

(** [fmt.Print("\033[4A")] and [fmt.Print("\033[4B")]. *)
Definition cursorUp4 : string := esc +:+ "[4A".
Definition cursorDown4 : string := esc +:+ "[4B".

(** [fmt.Printf("      %s%s\033[0m\n", color, "")]. *)
Definition blankRow (color : string) : string :=
  "      " +:+ color +:+ esc +:+ "[0m" +:+ newline.

(** [fmt.Printf("\033[K      %s%s\033[0m\n", color, displayLine)]. *)
Definition row (color displayLine : string) : string :=
  esc +:+ "[K      " +:+ color +:+ displayLine +:+ esc +:+ "[0m" +:+ newline.

(** "Truncate line if too long": [displayLine[:73] + "..."] when
    [len(displayLine) > 76]. *)
Definition truncateLine (displayLine : string) : string :=
  if (76 <? String.length displayLine)%nat
  then String.substring 0 73 displayLine +:+ "..."
  else displayLine.

(** [displayLines[i] = line]; [None] is Go's index-out-of-range panic. *)
Definition setLine (lines : list string) (i : nat) (line : string) : option (list string) :=
  if (i <? length lines)%nat then Some (<[i := line]> lines) else None.

(** The text shown for [displayLines[lineIndex]]. *)
Definition shownLine (lines : list string) (lineIndex : nat) : option string :=
  match lines !! lineIndex with
  | None => None
  | Some l => Some (if String.eqb l "" then "" else truncateLine l)
  end.

(** "Redraw all 4 lines in their fixed positions": the loop
    [for i := 0; i < 4; i++] from [i] on, [n] iterations left. *)
Fixpoint redraw (n i : nat) (lines : list string) (index : nat) (color : string)
  : option (list string) :=
  match n with
  | O => Some []
  | S n' =>
      match shownLine lines ((index + i) mod 4) with
      | None => None
      | Some displayLine =>
          match redraw n' (S i) lines index color with
          | None => None
          | Some rows => Some (row color displayLine :: rows)
          end
      end
  end.

(** [displayStreamingLine(line, color)]: the new state and what is written
    to the terminal, [None] for a panic. *)
Definition displayStreamingLine (line color : string) (d : Display)
  : option (Display * list string) :=
  if String.eqb line "" then Some (d, [])
  else
    let opening :=
      if displayInitialized d then []
      else [blankRow color; blankRow color; blankRow color; blankRow color; cursorUp4] in
    match setLine (displayLines d) (displayIndex d) line with
    | None => None
    | Some lines =>
        let index := (displayIndex d + 1) mod 4 in
        match redraw 4 0 lines index color with
        | None => None
        | Some rows =>
            Some ({| displayLines := lines; displayIndex := index;
                     displayInitialized := true |},
                  opening ++ rows ++ [cursorUp4])
        end
    end.

(** [finishStreamingDisplay()]. *)
Definition finishStreamingDisplay (d : Display) : Display * list string :=
  if displayInitialized d
  then ({| displayLines := map (fun _ => "") (displayLines d);
           displayIndex := 0; displayInitialized := false |}, [cursorDown4])
  else (d, []).

(** A call of one of the two functions. *)
Inductive displayCall : Type :=
| ShowLine (line color : string)
| FinishDisplay.

(** A sequence of calls, started in state [d]. *)
Fixpoint displayCalls (calls : list displayCall) (d : Display)
  : option (Display * list string) :=
  match calls with
  | [] => Some (d, [])
  | call :: rest =>
      match (match call with
             | ShowLine line color => displayStreamingLine line color d
             | FinishDisplay => Some (finishStreamingDisplay d)
             end) with
      | None => None
      | Some (d', out) =>
          match displayCalls rest d' with
          | None => None
          | Some (d'', out') => Some (d'', out ++ out')
          end
      end
  end.

(** The four lines in the order the redraw shows them, oldest first. *)
Definition window (d : Display) : list string :=
  omap (fun i => displayLines d !! ((displayIndex d + i) mod 4)) [0; 1; 2; 3].

(** The last [n] elements of a list. *)
Definition lastN {A} (n : nat) (l : list A) : list A := drop (length l - n) l.

Definition displayOk (d : Display) : Prop :=
  length (displayLines d) = 4 /\ displayIndex d < 4.

(** The text a redraw shows for a stored line. *)
Definition shownText (l : string) : string :=
  if String.eqb l "" then "" else truncateLine l.

(** A state reached by calls only: in range, and untouched whenever the
    display is not initialised. *)
Definition displayReachable (d : Display) : Prop :=
  displayOk d /\ (displayInitialized d = false -> d = initialDisplay).

Definition showLines (ls : list string) (color : string) : list displayCall :=
  map (fun l => ShowLine l color) ls.

(** ** Notions for the ImageEmbedder *)

(** The operations by which an image is acquired. *)
Definition isAcquireOp (o : DockerOp) : bool :=
  match o with
  | ComposeBuild _ _ | ImagePull _ _ | Printf _ => true
  | _ => false
  end.

(** The world refuses operation [o] after [history]. *)
Definition refused (w : World DockerOp DockerResp) (history : list DockerOp)
    (o : DockerOp) : Prop :=
  match o return DockerResp o -> Prop with
  | LoadProject _ => fun r => r = None
  | Printf _ => fun _ => False
  | _ => fun r => r = false
  end (w history o).

(** The error reported when a fatal operation is refused. *)
Definition errorOf (o : DockerOp) : option embedError :=
  match o with
  | NewClient => Some ClientError
  | ComposeBuild _ service => Some (BuildServiceError service)
  | ImageTag source target => Some (ImageTagError source target)
  | ImageSave tag => Some (ImageSaveError tag)
  | CreateFile path => Some (CreateTarError path)
  | CopyToFile path => Some (WriteTarError path)
  | _ => None
  end.

(** What one image contributes to a successful run, after its
    acquisition. *)
Definition exportOps (img : DockerImage) : list DockerOp :=
  [ImageTag (Name img) (LocalTag img); ImageSave (LocalTag img);
   CreateFile (TarPath img); CopyToFile (TarPath img);
   Printf ("Saved: " +:+ LocalTag img)].

(** The run ended with [e] because its last operation was refused. *)
Definition stoppedAt (w : World DockerOp DockerResp) (history ops : list DockerOp)
    (e : embedError) : Prop :=
  exists done o, ops = history ++ done ++ [o]
                 /\ refused w (history ++ done) o /\ errorOf o = Some e.

(** The trace of a successful run over [images]: one segment per image, in
    the order of the list. *)
Definition exportedInOrder (images : list DockerImage) (ops : list DockerOp) : Prop :=
  exists segments,
    ops = concat segments
    /\ Forall2 (fun img segment =>
                  exists acquire,
                    segment = Printf ("Processing: " +:+ Name img) :: acquire ++ exportOps img
                    /\ Forall (fun o => isAcquireOp o = true) acquire)
               images segments.

(** A daemon that refuses every pull and accepts everything else. *)
Definition offlineDocker : World DockerOp DockerResp :=
  fun _ o =>
    match o with
    | LoadProject _ => None
    | ImagePull _ _ => false
    | Printf _ => tt
    | _ => true
    end.

Definition twoImages : list DockerImage :=
  [newDockerImage "redis:7"; newDockerImage "web:latest"].

Definition twoImageConfig : DockerComposeConfig :=
  {| Enabled := true; Path := "docker-compose.yaml"; Content := "";
     ModifiedContent := ""; Images := twoImages |}.

(** A daemon that accepts everything but the tagging of images. *)
Definition untaggingDocker : World DockerOp DockerResp :=
  fun _ o =>
    match o with
    | LoadProject _ => None
    | ImageTag _ _ => false
    | Printf _ => tt
    | _ => true
    end.

Definition redisConfig : DockerComposeConfig :=
  {| Enabled := true; Path := "docker-compose.yaml"; Content := "";
     ModifiedContent := "yaml"; Images := [newDockerImage "redis:latest"] |}.

(** ** The demultiplexer together with the display *)

(** The colour of container and standard-output lines, ["\033[36m"]. *)
Definition cyan : string := esc +:+ "[36m".

(** [processDockerLogs] with its calls of the rolling display: beside the
    builder, the calls made so far. *)
Module shown.
Fixpoint writeLines (tokens : list string) (buildOutput : string)
    (calls : list displayCall) : string * list displayCall :=
  match tokens with
  | [] => (buildOutput, calls)
  | text :: rest =>
      let line := strings.TrimSpace text in
      if negb (String.eqb line "")
      then writeLines rest (buildOutput +:+ line +:+ newline) (calls ++ [ShowLine line cyan])
      else writeLines rest buildOutput calls
  end.

Fixpoint logLoop (fuel : nat) (logs : string) (buildOutput : string)
    (calls : list displayCall) : string * list displayCall :=
  match fuel with
  | O => (buildOutput, calls)
  | S fuel' =>
      match readFull 8 logs with
      | None => (buildOutput, calls)
      | Some (header, rest) =>
          let size := payloadSize header in
          if (size <=? 0)%Z then logLoop fuel' rest buildOutput calls
          else match readFull size rest with
               | None => (buildOutput, calls)
               | Some (payload, rest') =>
                   let '(buildOutput', calls') :=
                     writeLines (bufio.ScanLines payload) buildOutput calls in
                   logLoop fuel' rest' buildOutput' calls'
               end
      end
  end.

(** [defer finishStreamingDisplay()] runs when the loop is left. *)
Definition processDockerLogs (logs : string) (buildOutput : string)
  : string * list displayCall :=
  let '(buildOutput', calls) := logLoop (String.length logs) logs buildOutput [] in
  (buildOutput', calls ++ [FinishDisplay]).
End shown.

(** ** Notions for the ImageResolver *)

(** [rewriteService] with the look-up in the image mapping replaced by
    the computation of the tag. *)
Definition retagService (serviceName : string) (service : types.ServiceConfig)
  : types.ServiceConfig :=
  if negb (String.eqb (types.Image service) "")
  then {| types.Name := types.Name service;
          types.Image := localTag (types.Image service);
          types.Build := types.Build service |}
  else match types.Build service with
       | Some _ =>
           {| types.Name := types.Name service;
              types.Image := "embedded/" +:+ serviceName +:+ "_latest";
              types.Build := None |}
       | None => service
       end.

Definition webServices : types.Services :=
  [service "web" "" (Some {| types.Context := "./web" |}); service "db" "postgres:16" None].

(** ** The other locators *)

(** The locator as [nix/build_docker.go] has it.  It differs from the one
    of [nix/nix.go] in the branch for paths that contain [sprout-docker-],
    and in the first letter of that branch's message. *)
Module build_docker.
Inductive locateError : Type :=
| PathDoesNotExist (path : string)    (* "path does not exist: %s" *)
| DockerImageNotFound (path : string) (* "docker build completed but image file not found at %s" *)
| ImageFileNotFound (path : string)   (* "image file not found: neither %s nor %s/sd-image/*.img exists" *)
| ReadDirError                        (* "failed to read sd-image directory" *)
| NoImgFile.                          (* "no .img file found in sd-image directory" *)

Definition FindImageFile (basePath : string) : Fs (result locateError string) :=
  st <- perform (Stat basePath) ;;
  match st : StatResult with
  | StatOk isDir =>
      if negb isDir && isImg basePath then ret (Ok basePath)
      else if strings.Contains basePath "sprout-docker-" then
        let isResultImg := String.eqb (filepath.Base basePath) "result.img" in
        if isResultImg && negb isDir then ret (Ok basePath)
        else
          let resultImg := filepath.Join [basePath; "result.img"] in
          st' <- perform (Stat resultImg) ;;
          ret (match st' : StatResult with
               | StatOk _ => Ok resultImg
               | _ => Err (DockerImageNotFound resultImg)
               end)
      else
        let sdImageDir := filepath.Join [basePath; "sd-image"] in
        st' <- perform (Stat sdImageDir) ;;
        match st' : StatResult with
        | StatNotExist => ret (Err (ImageFileNotFound basePath))
        | _ =>
            entries <- perform (ReadDir sdImageDir) ;;
            ret (match entries : option (list DirEntry) with
                 | None => Err ReadDirError
                 | Some es =>
                     match firstImgEntry es with
                     | Some entry => Ok (filepath.Join [sdImageDir; EntryName entry])
                     | None => Err NoImgFile
                     end
                 end)
        end
  | _ => ret (Err (PathDoesNotExist basePath))
  end.
End build_docker.

(** [findImageFile] of [internal/cmd/grow.go], which looks into the
    [sd-image] directory only. *)
Module grow.
Inductive findError : Type :=
| SdImageNotFound (path : string)  (* "sd-image directory not found in %s" *)
| ReadDirError                     (* "failed to read sd-image directory" *)
| NoImgFile.                       (* "no .img file found in sd-image directory" *)

Definition findImageFile (basePath : string) : Fs (result findError string) :=
  let sdImageDir := filepath.Join [basePath; "sd-image"] in
  st <- perform (Stat sdImageDir) ;;
  match st : StatResult with
  | StatNotExist => ret (Err (SdImageNotFound basePath))
  | _ =>
      entries <- perform (ReadDir sdImageDir) ;;
      ret (match entries : option (list DirEntry) with
           | None => Err ReadDirError
           | Some es =>
               match firstImgEntry es with
               | Some entry => Ok (filepath.Join [sdImageDir; EntryName entry])
               | None => Err NoImgFile
               end
           end)
  end.
End grow.

(** The path a locator found, whatever the text of its error. *)
Definition found {E} (r : result E string) : option string :=
  match r with
  | Ok path => Some path
  | Err _ => None
  end.

(** A file system that answers the same whatever was asked before. *)
Definition staticFs (w : World FsOp FsResp) : Prop :=
  forall history history' o, w history o = w history' o.

(** A directory named [result.img] that holds the image. *)
Definition nestedResultFs : World FsOp FsResp :=
  tableFs [("/home/u/sprout-docker-7/result.img",
              Dir [{| EntryName := "result.img"; EntryIsDir := false |}]);
           ("/home/u/sprout-docker-7/result.img/result.img", File)].

(** A local build result with its [sd-image] directory. *)
Definition nixosFs : World FsOp FsResp :=
  tableFs [("/nix/store/k3v9-nixos-image", Dir [{| EntryName := "sd-image"; EntryIsDir := true |}]);
           ("/nix/store/k3v9-nixos-image/sd-image",
              Dir [{| EntryName := "nixos.img"; EntryIsDir := false |}]);
           ("/nix/store/k3v9-nixos-image/sd-image/nixos.img", File)].

(** ** The embedding loop of [nix/nix.go] *)

(** [buildAndSaveDockerImages] as [nix/nix.go] has it, with the work of
    [buildOrPullImage] and [tagAndSaveImage] written out in the loop.  The
    deferred [Close] calls, which here run only when the function returns,
    are not recorded. *)
Module inlined.
Fixpoint embedLoop (images : list DockerImage) (workingDir : string)
  : Docker (result embedError unit) :=
  match images with
  | [] => ret (Ok tt)
  | img :: rest =>
      let tagAndSave : Docker (result embedError unit) :=
        tagged <- perform (ImageTag (Name img) (LocalTag img)) ;;
        if tagged : bool then
          saved <- perform (ImageSave (LocalTag img)) ;;
          if saved : bool then
            created <- perform (CreateFile (TarPath img)) ;;
            if created : bool then
              copied <- perform (CopyToFile (TarPath img)) ;;
              if copied : bool then
                _ <- perform (Printf ("Saved: " +:+ LocalTag img)) ;;
                embedLoop rest workingDir
              else ret (Err (WriteTarError (TarPath img)))
            else ret (Err (CreateTarError (TarPath img)))
          else ret (Err (ImageSaveError (LocalTag img)))
        else ret (Err (ImageTagError (Name img) (LocalTag img))) in
      _ <- perform (Printf ("Processing: " +:+ Name img)) ;;
      if strings.HasSuffix (Name img) ":latest" && negb (strings.Contains (Name img) "/")
      then
        let serviceName := strings.TrimSuffix (Name img) ":latest" in
        ok <- perform (ComposeBuild workingDir serviceName) ;;
        if ok : bool then tagAndSave else ret (Err (BuildServiceError serviceName))
      else
        ok <- perform (ImagePull (Name img) "linux/arm64") ;;
        if ok : bool then
          _ <- perform (Printf ("Successfully pulled ARM64 image: " +:+ Name img)) ;;
          tagAndSave
        else
          _ <- perform (Printf ("ARM64 image not available, trying default platform: "
                                +:+ Name img)) ;;
          ok' <- perform (ImagePull (Name img) "") ;;
          if ok' : bool then tagAndSave
          else
            _ <- perform (Printf ("Warning: failed to pull image " +:+ Name img
                                  +:+ ", assuming it exists locally")) ;;
            tagAndSave
  end.

Definition buildAndSaveDockerImages (dockerConfig : DockerComposeConfig)
    (workingDir : string) : Docker (result embedError unit) :=
  _ <- perform (Printf "Building and saving Docker images...") ;;
  ok <- perform NewClient ;;
  if ok : bool then embedLoop (Images dockerConfig) workingDir
  else ret (Err ClientError).
End inlined.

(** ** The loaders ([LoadSproutFileFromYAML], [nix/nix.go]) *)

(** [filepath.IsAbs(path)] (Unix). *)
Definition IsAbs (path : string) : bool := strings.HasPrefix path "/".

Inductive loadError : Type :=
| ReadFileError (path : string)       (* the error of [os.ReadFile(filename)] *)
| UnmarshalError                      (* the error of [yaml.Unmarshal] *)
| ReadComposeError (path : string)    (* "failed to read docker-compose file at %s" *)
| ProcessComposeError (e : embedError). (* "failed to process docker-compose images" *)

(** [sproutFile.DockerCompose = dockerCompose]. *)
Definition setDockerCompose (sproutFile : SproutFile) (dockerCompose : DockerComposeConfig)
  : SproutFile :=
  {| SSHKeys := SSHKeys sproutFile;
     Wireless := Wireless sproutFile;
     Output := Output sproutFile;
     DockerCompose := dockerCompose;
     Autodiscovery := Autodiscovery sproutFile;
     SproutBinaryPath := SproutBinaryPath sproutFile |}.

(** The two loaders of [nix/nix.go].  Both files are read before anything
    else is done, so [os.ReadFile] is a function of the path; reads are
    not recorded in the trace. *)
Section Loader.
Variable readFile : string -> option string.
(** [yaml.Unmarshal(data, &sproutFile)] on a zero [SproutFile]. *)
Variable yamlUnmarshal : string -> option SproutFile.
Variable yamlMarshal : types.Project -> option string.

Definition LoadSproutFileFromYAMLLightweight (filename : string)
  : result loadError SproutFile :=
  match readFile filename with
  | None => Err (ReadFileError filename)
  | Some data =>
      match yamlUnmarshal data with
      | None => Err UnmarshalError
      | Some sproutFile => Ok sproutFile
      end
  end.

Definition LoadSproutFileFromYAML (filename : string)
  : Docker (result loadError SproutFile) :=
  match readFile filename with
  | None => ret (Err (ReadFileError filename))
  | Some data =>
      match yamlUnmarshal data with
      | None => ret (Err UnmarshalError)
      | Some sproutFile =>
          let dockerCompose := DockerCompose sproutFile in
          if Enabled dockerCompose && negb (String.eqb (Path dockerCompose) "") then
            let configDir := filepath.Dir filename in
            let dockerComposePath :=
              if negb (IsAbs (Path dockerCompose))
              then filepath.Join [configDir; Path dockerCompose]
              else Path dockerCompose in
            match readFile dockerComposePath with
            | None => ret (Err (ReadComposeError dockerComposePath))
            | Some dockerComposeData =>
                let dockerCompose' :=
                  {| Enabled := Enabled dockerCompose;
                     Path := Path dockerCompose;
                     Content := dockerComposeData;
                     ModifiedContent := ModifiedContent dockerCompose;
                     Images := Images dockerCompose |} in
                r <- processDockerComposeImages yamlMarshal dockerCompose' dockerComposePath ;;
                ret (match r with
                     | Ok dockerCompose'' => Ok (setDockerCompose sproutFile dockerCompose'')
                     | Err e => Err (ProcessComposeError e)
                     end)
            end
          else ret (Ok sproutFile)
      end
  end.
End Loader.

(** The directory [/srv/app] with a configuration that enables Docker
    Compose and the compose file beside it. *)
Definition appFiles (path : string) : option string :=
  if String.eqb path "/srv/app/sprout.yaml" then Some "sprout"
  else if String.eqb path "/srv/app/docker-compose.yaml" then Some "compose"
  else None.

Definition appSproutFile : SproutFile := setDockerCompose emptySproutFile emptyDockerConfig.

Definition appUnmarshal (data : string) : option SproutFile :=
  if String.eqb data "sprout" then Some appSproutFile else None.

(** What the full loader returns for [appFiles]. *)
Definition appLoaded : SproutFile :=
  setDockerCompose emptySproutFile
    {| Enabled := true; Path := "docker-compose.yaml"; Content := "compose";
       ModifiedContent := "yaml"; Images := [newDockerImage "redis:latest"] |}.

(** ** [copyDockerImages] and its helpers ([nix/build_docker.go]) *)









Definition noSlash (s : string) : Prop := "/"%char ∉ bytes s.



(** ** The result of a local build ([buildLocal], [nix/nix.go]) *)



(* ===================================================================== *)
(** * Part X.  Properties                                                 *)
(* ===================================================================== *)

(** ** The library functions on examples *)

Example TrimSpace_ex :
  strings.TrimSpace (String "009"%char (" a b " +:+ String "194"%char (String "160"%char newline))) = "a b".
Proof. reflexivity. Qed.

Example Clean_ex :
  filepath.Join ["/home/u/sprout-docker-12//"; "result.img"] = "/home/u/sprout-docker-12/result.img"
  /\ filepath.Join ["a/../../b/./c"; ""] = "../b/c"
  /\ filepath.Base "/x/y/result.img" = "result.img"
  /\ filepath.Base "/x/y/" = "y"
  /\ filepath.Base "///" = "/"
  /\ filepath.Ext "/x/y.d/result.img" = ".img"
  /\ filepath.Ext "/x/y.d/result" = ""
  /\ filepath.Clean "/../a/.." = "/".
Proof. repeat split. Qed.

Example ScanLines_ex :
  bufio.ScanLines ("ok" +:+ String carriageReturn newline +:+ newline +:+ "x") = ["ok"; ""; "x"]
  /\ bufio.ScanLines ("ok" +:+ newline) = ["ok"]
  /\ bufio.ScanLines "" = []
  /\ strings.Split "a,b,,c," "," = ["a"; "b"; ""; "c"; ""]
  /\ strings.ReplaceAll "a/b:c-d/e" "/" "_" = "a_b:c-d_e"
  /\ strings.ReplaceAll "aaaa" "aa" "b" = "bb"
  /\ strings.HasSuffix "redis:latest" ":latest" = true
  /\ strings.TrimSuffix "redis:latest" ":latest" = "redis"
  /\ strings.Contains "ghcr.io/x:latest" "/" = true.
Proof. repeat split. Qed.

(** ** ImageResolver: sanitising and local tags *)

Lemma prefix_empty s : String.prefix "" s = true.
Proof. by destruct s. Qed.

Lemma prefix_single a c r :
  String.prefix (String a "") (String c r) = Ascii.eqb a c.
Proof.
  simpl. destruct (ascii_dec a c) as [->|Hne].
  - by rewrite prefix_empty, Ascii.eqb_refl.
  - symmetry. by apply Ascii.eqb_neq.
Qed.

Lemma ReplaceAll_byte a b s :
  strings.ReplaceAll s (String a "") (String b "")
  = mapBytes (fun c => if Ascii.eqb a c then b else c) s.
Proof.
  unfold strings.ReplaceAll. induction s as [|c r IH]; [done|].
  cbn [strings.replace_go mapBytes]. rewrite prefix_single.
  destruct (Ascii.eqb a c); cbn; by rewrite IH.
Qed.

Lemma mapBytes_compose f g s : mapBytes f (mapBytes g s) = mapBytes (fun c => f (g c)) s.
Proof. induction s; simpl; congruence. Qed.

Lemma mapBytes_ext f g s : (forall c, f c = g c) -> mapBytes f s = mapBytes g s.
Proof. intros E. induction s; simpl; congruence. Qed.

Lemma safeImageName_bytes s : safeImageName s = mapBytes safeByte s.
Proof.
  unfold safeImageName. rewrite !ReplaceAll_byte, !mapBytes_compose. done.
Qed.

Lemma safeByte_idem c : safeByte (safeByte c) = safeByte c.
Proof.
  unfold safeByte.
  destruct (Ascii.eqb "/" c) eqn:E1; [done|].
  destruct (Ascii.eqb ":" c) eqn:E2; [done|].
  destruct (Ascii.eqb "-" c) eqn:E3; [done|].
  by rewrite E1, E2, E3.
Qed.

Lemma safeImageName_idempotent s : safeImageName (safeImageName s) = safeImageName s.
Proof.
  rewrite !safeImageName_bytes, mapBytes_compose.
  apply mapBytes_ext, safeByte_idem.
Qed.

(** ** ImageResolver: the extraction loop *)

Lemma eqb_empty_false s : String.eqb s "" = false <-> s <> "".
Proof. apply String.eqb_neq. Qed.

Lemma extractState_last services entry :
  extractState (services ++ [entry]) = extractStep (extractState services) entry.
Proof. unfold extractState. by rewrite fold_left_app. Qed.

Lemma canonicalRefs_last services entry :
  canonicalRefs (services ++ [entry])
  = canonicalRefs services ++
    (if decide (imageNameOf (snd entry) <> "") then [imageNameOf (snd entry)] else []).
Proof.
  unfold canonicalRefs. rewrite map_app, filter_app. f_equal.
Qed.

Lemma seen_insert m k k' :
  seen (<[k := true]> m) k' = true <-> k' = k \/ seen m k' = true.
Proof.
  unfold seen. destruct (decide (k = k')) as [->|Hne].
  - rewrite lookup_insert_eq. naive_solver.
  - rewrite lookup_insert_ne by done. naive_solver.
Qed.

Lemma extractState_inv services : extractInv services (extractState services).
Proof.
  induction services as [|entry services IH] using rev_ind.
  - split; simpl; [constructor| | |constructor].
    + intros k. unfold seen. rewrite lookup_empty. simpl. split; [done|].
      by intros ?%elem_of_nil.
    + intros k. unfold canonicalRefs. simpl. done.
  - rewrite extractState_last.
    destruct (extractState services) as [images imageMap].
    destruct IH as [Hnd Hseen Hrefs Hmade]. simpl in *.
    assert (forall k, k ∈ canonicalRefs (services ++ [entry]) <->
                      k ∈ canonicalRefs services
                      \/ (k = imageNameOf (snd entry) /\ k <> "")) as Hlast.
    { intros k. rewrite canonicalRefs_last, elem_of_app.
      case_decide; [rewrite list_elem_of_singleton|rewrite elem_of_nil]; naive_solver. }
    unfold extractStep.
    set (imageName := imageNameOf (snd entry)) in *.
    destruct (String.eqb imageName "") eqn:Hempty; simpl.
    { apply String.eqb_eq in Hempty. split; simpl; try done.
      intros k. rewrite Hlast, Hrefs. naive_solver. }
    apply String.eqb_neq in Hempty.
    destruct (seen imageMap imageName) eqn:Hs; simpl.
    { apply Hseen in Hs. split; simpl; try done.
      intros k. rewrite Hlast, <- Hrefs. naive_solver. }
    assert (imageName ∉ names images) as Hfresh.
    { intros Hin. apply Hseen in Hin. congruence. }
    split; simpl.
    + unfold names. rewrite map_app. simpl. apply NoDup_app. split; [done|]. split.
      * intros x Hx ->%list_elem_of_singleton. done.
      * apply NoDup_singleton.
    + intros k. rewrite seen_insert. unfold names. rewrite map_app, elem_of_app.
      simpl. rewrite list_elem_of_singleton. fold (names images). rewrite Hseen.
      naive_solver.
    + intros k. unfold names. rewrite map_app, elem_of_app. simpl.
      rewrite list_elem_of_singleton. fold (names images). rewrite Hlast, Hrefs.
      naive_solver.
    + apply Forall_app. split; [done|]. by constructor.
Qed.

Lemma extractImages_state services : extractImages services = fst (extractState services).
Proof. done. Qed.

Lemma extractImages_names_NoDup services : NoDup (names (extractImages services)).
Proof. apply (inv_nodup _ _ (extractState_inv services)). Qed.

Lemma extractImages_names services k :
  k ∈ names (extractImages services) <-> k ∈ canonicalRefs services.
Proof. apply (inv_refs _ _ (extractState_inv services)). Qed.

Lemma extractImages_made services img :
  img ∈ extractImages services -> img = newDockerImage (Name img).
Proof.
  intros Hin. pose proof (inv_made _ _ (extractState_inv services)) as H.
  rewrite Forall_forall in H. by apply H.
Qed.

Lemma extractImages_count services :
  length (extractImages services) = size (list_to_set (canonicalRefs services) : gset string).
Proof.
  transitivity (length (names (extractImages services))).
  { unfold names. by rewrite length_map. }
  rewrite <- (size_list_to_set (C:=gset string)) by apply extractImages_names_NoDup.
  f_equal. apply set_eq. intros k. rewrite !elem_of_list_to_set. apply extractImages_names.
Qed.

Lemma localTag_eq_iff a b : localTag a = localTag b <-> safeImageName a = safeImageName b.
Proof.
  unfold localTag. split; [|by intros ->].
  intros H. by apply (inj (String.app "embedded/")) in H.
Qed.

(** Claim C3, amended.  The resolver yields exactly one entry for each
    distinct canonical reference of the services (M entries for M distinct
    references), and two entries carry the same local tag exactly when
    their references have the same sanitised form. *)
Theorem extractImages_one_per_reference (services : types.Services) :
  let images := extractImages services in
  length images = size (list_to_set (canonicalRefs services) : gset string)
  /\ NoDup (names images)
  /\ (forall r, r ∈ names images <-> r ∈ canonicalRefs services)
  /\ (forall i j, i ∈ images -> j ∈ images ->
        (LocalTag i = LocalTag j <-> safeImageName (Name i) = safeImageName (Name j))).
Proof.
  cbv zeta. split; [apply extractImages_count|].
  split; [apply extractImages_names_NoDup|].
  split; [apply extractImages_names|].
  intros i j Hi Hj.
  rewrite (extractImages_made _ _ Hi), (extractImages_made _ _ Hj). simpl.
  apply localTag_eq_iff.
Qed.

(** Claim C3 as stated fails: two distinct references, [my-app:1] and
    [my_app:1], give two entries with one and the same local tag. *)
Lemma extractImages_tags_collide :
  canonicalRefs collidingServices = ["my-app:1"; "my_app:1"]
  /\ NoDup (canonicalRefs collidingServices)
  /\ map LocalTag (extractImages collidingServices) = ["embedded/my_app_1"; "embedded/my_app_1"]
  /\ ~ NoDup (map LocalTag (extractImages collidingServices)).
Proof.
  split; [reflexivity|]. split.
  { apply NoDup_ListNoDup. repeat constructor; simpl; intuition discriminate. }
  split; [reflexivity|].
  intros H. vm_compute in H. apply NoDup_cons in H as [H _].
  apply H. by left.
Qed.

Lemma extractImages_one_per_reference_witness :
  length (extractImages collidingServices) = 2
  /\ exists i j, i ∈ extractImages collidingServices /\ j ∈ extractImages collidingServices
       /\ Name i <> Name j /\ LocalTag i = LocalTag j.
Proof.
  destruct (extractImages_one_per_reference collidingServices) as (Hlen & _ & _ & Htags).
  split; [exact Hlen|].
  exists (newDockerImage "my-app:1"), (newDockerImage "my_app:1").
  assert (newDockerImage "my-app:1" ∈ extractImages collidingServices) as Hi
    by (vm_compute; apply list_elem_of_In; simpl; auto).
  assert (newDockerImage "my_app:1" ∈ extractImages collidingServices) as Hj
    by (vm_compute; apply list_elem_of_In; simpl; auto).
  split; [exact Hi|]. split; [exact Hj|]. split; [discriminate|].
  apply (Htags _ _ Hi Hj). reflexivity.
Defined.

(** Claim C8.  Sanitising is idempotent; the local tag and the archive
    path of every resolved image are functions of its canonical reference
    alone; and two distinct references exist with the same sanitised form,
    hence the same local tag. *)
Theorem localTag_pure_idempotent_colliding :
  (forall s, safeImageName (safeImageName s) = safeImageName s)
  /\ (forall services img, img ∈ extractImages services ->
        LocalTag img = localTag (Name img) /\
        TarPath img = "/tmp/" +:+ safeImageName (Name img) +:+ ".tar")
  /\ (exists a b, a <> b /\ safeImageName a = safeImageName b /\ localTag a = localTag b).
Proof.
  split; [apply safeImageName_idempotent|]. split.
  - intros services img Hin. by rewrite (extractImages_made _ _ Hin).
  - exists "my-app:1", "my_app:1". split; [discriminate|]. split; reflexivity.
Qed.

Lemma localTag_pure_idempotent_colliding_witness :
  LocalTag (newDockerImage "redis:7") = "embedded/redis_7".
Proof.
  destruct localTag_pure_idempotent_colliding as (_ & Hpure & _).
  refine (proj1 (Hpure [service "cache" "redis:7" None] (newDockerImage "redis:7") _)).
  vm_compute. apply list_elem_of_In. simpl. auto.
Defined.

(** ** ImageResolver: the rewriting pass *)

(** Claim C2, at the failing input.  The service [my-app] has a build
    context and no image; it is resolved to the reference [my-app:latest]
    with the local tag [embedded/my_app_latest], yet the rewriting pass
    writes [embedded/my-app_latest] into the service, because the service
    name is not sanitised there. *)
Theorem rewriteServices_hyphenated_build_service :
  let images := extractImages hyphenatedServices in
  map Name images = ["my-app:latest"]
  /\ map LocalTag images = ["embedded/my_app_latest"]
  /\ rewriteServices images hyphenatedServices
     = [service "my-app" "embedded/my-app_latest" None].
Proof. repeat split. Qed.

Lemma rewriteServices_keeps_build_of_declared_image :
  let images := extractImages imageAndBuildServices in
  map LocalTag images = ["embedded/nginx_1"]
  /\ rewriteServices images imageAndBuildServices
     = [service "web" "embedded/nginx_1" (Some {| types.Context := "./web" |})].
Proof. repeat split. Qed.

Lemma buildImageMapping_last images img :
  buildImageMapping (images ++ [img]) = <[Name img := LocalTag img]> (buildImageMapping images).
Proof. unfold buildImageMapping. by rewrite fold_left_app. Qed.

Lemma buildImageMapping_lookup images k :
  Forall (fun img => img = newDockerImage (Name img)) images ->
  buildImageMapping images !! k = if decide (k ∈ names images) then Some (localTag k) else None.
Proof.
  induction images as [|img images IH] using rev_ind; intros Hmade.
  - unfold buildImageMapping. cbn [fold_left]. rewrite lookup_empty.
    case_decide as Hin; [|done]. by apply elem_of_nil in Hin.
  - apply Forall_app in Hmade as [Hmade Himg]. apply Forall_inv in Himg.
    rewrite buildImageMapping_last. unfold names. rewrite map_app. simpl.
    fold (names images).
    destruct (decide (Name img = k)) as [<-|Hne].
    + rewrite lookup_insert_eq. rewrite decide_True.
      * f_equal. by rewrite Himg.
      * apply elem_of_app. right. by apply list_elem_of_singleton.
    + rewrite lookup_insert_ne by done. rewrite IH by done.
      repeat case_decide; try done.
      * exfalso. apply H0. apply elem_of_app. by left.
      * exfalso. apply elem_of_app in H0 as [?|?%list_elem_of_singleton]; [done|].
        congruence.
Qed.

Lemma localTag_nonempty k : localTag k <> "".
Proof. unfold localTag. done. Qed.

(** What the rewriting pass does for a service that declares an image. *)
Lemma rewriteServices_declared_image services name svc :
  (name, svc) ∈ services ->
  types.Image svc <> "" ->
  (name, {| types.Name := types.Name svc;
            types.Image := localTag (types.Image svc);
            types.Build := types.Build svc |})
  ∈ rewriteServices (extractImages services) services.
Proof.
  intros Hin Himg. unfold rewriteServices.
  apply list_elem_of_In, in_map_iff. exists (name, svc). split; [|by apply list_elem_of_In].
  simpl. f_equal. unfold rewriteService, mapping.
  rewrite buildImageMapping_lookup
    by (apply (inv_made _ _ (extractState_inv services))).
  rewrite decide_True.
  - cbn [default]. apply String.eqb_neq in Himg. rewrite Himg.
    pose proof (localTag_nonempty (types.Image svc)) as Hne.
    apply String.eqb_neq in Hne. unfold id. by rewrite Hne.
  - assert (imageNameOf svc = types.Image svc) as Hname.
    { unfold imageNameOf. apply String.eqb_neq in Himg. by rewrite Himg. }
    apply extractImages_names. unfold canonicalRefs.
    apply list_elem_of_filter. split.
    + done.
    + apply list_elem_of_In, in_map_iff. exists (name, svc).
      split; [exact Hname|by apply list_elem_of_In].
Qed.

(** ** BuildBackendSelector *)

Lemma Getenv_disabled env : Getenv env disableVar <> "" <-> disabled env.
Proof.
  unfold Getenv, disabled. destruct (environ env !! disableVar) as [v|]; simpl.
  - split; [intros H; by exists v|]. by intros (v' & [= <-] & H).
  - split; [done|]. by intros (v' & ? & _).
Qed.

(** Claim C5.  [Build] decides in this order: with the variable
    [SPROUT_DISABLE_LOCAL_NIX] set to a non-empty value it runs the
    Containerized backend, whatever the search path holds; otherwise it
    runs the Local backend with the resolved [nix-build] when there is
    one; otherwise the Containerized backend. *)
Theorem Build_decision_order {R : Type}
    (buildLocal : string -> string -> SproutFile -> R)
    (buildWithDocker : string -> SproutFile -> R)
    (env : Environment) (filename : string) (sproutFile : SproutFile) :
  (disabled env ->
     Build buildLocal buildWithDocker env filename sproutFile
     = buildWithDocker filename sproutFile)
  /\ (~ disabled env -> forall nixPath, LookPath env "nix-build" = Some nixPath ->
     Build buildLocal buildWithDocker env filename sproutFile
     = buildLocal nixPath filename sproutFile)
  /\ (~ disabled env -> LookPath env "nix-build" = None ->
     Build buildLocal buildWithDocker env filename sproutFile
     = buildWithDocker filename sproutFile).
Proof.
  unfold Build. fold disableVar.
  destruct (String.eqb (Getenv env disableVar) "") eqn:E; simpl.
  - apply String.eqb_eq in E.
    assert (~ disabled env) as Hn by (rewrite <- Getenv_disabled; congruence).
    split; [done|]. split.
    + by intros _ nixPath ->.
    + by intros _ ->.
  - apply String.eqb_neq, Getenv_disabled in E. done.
Qed.

Lemma Build_decision_order_witness :
  LookPath disabledEnv "nix-build" = Some "/usr/bin/nix-build"
  /\ selectedBackend disabledEnv "image.nix" emptySproutFile = ContainerizedBackend.
Proof.
  split; [reflexivity|].
  apply (proj1 (Build_decision_order (fun _ _ _ => LocalBackend)
                  (fun _ _ => ContainerizedBackend) disabledEnv "image.nix" emptySproutFile)).
  exists "1". split; [reflexivity|discriminate].
Defined.

(** ** ImageEmbedder *)

(** Claim C10.  Build or pull is decided by the shape of the reference
    alone: a reference that ends in [:latest] and contains no [/] is built
    with [docker-compose build <name>] and never pulled; any other
    reference is pulled, first for [linux/arm64], and never built. *)
Theorem buildOrPullImage_decides_by_shape
    (w : World DockerOp DockerResp) (history : list DockerOp)
    (img : DockerImage) (workingDir : string) :
  (strings.HasSuffix (Name img) ":latest" = true ->
   strings.Contains (Name img) "/" = false ->
   opsOf (buildOrPullImage img workingDir) w history
   = history ++ [ComposeBuild workingDir (strings.TrimSuffix (Name img) ":latest")])
  /\ (strings.HasSuffix (Name img) ":latest" = false
      \/ strings.Contains (Name img) "/" = true ->
      exists rest,
        opsOf (buildOrPullImage img workingDir) w history
        = history ++ ImagePull (Name img) "linux/arm64" :: rest
        /\ forallb (fun o => negb (isComposeBuild o)) rest = true).
Proof.
  unfold opsOf, buildOrPullImage. split.
  - intros -> ->. reflexivity.
  - intros Hshape.
    assert (strings.HasSuffix (Name img) ":latest"
            && negb (strings.Contains (Name img) "/") = false) as ->.
    { destruct Hshape as [-> | ->]; [done|]. by rewrite andb_false_r. }
    unfold pullImage, pullDefaultImage, bind, perform, ret.
    destruct (w history (ImagePull (Name img) "linux/arm64")); cbn [fst snd].
    + rewrite <- app_assoc. eexists. split; [reflexivity|]. reflexivity.
    + match goal with |- context [if ?b then _ else _] => destruct b end; cbn [fst snd];
        rewrite <- ?app_assoc; (eexists; split; [reflexivity|reflexivity]).
Qed.

Lemma buildOrPullImage_decides_by_shape_witness :
  map Name (extractImages (types.Services_ redisProject)) = ["redis:latest"]
  /\ opsOf (buildOrPullImage (newDockerImage "redis:latest") "/srv/app") (obligingDocker redisProject) []
     = [ComposeBuild "/srv/app" "redis"]
  /\ exists rest,
       opsOf (buildOrPullImage (newDockerImage "redis:7") "/srv/app") (obligingDocker redisProject) []
       = ImagePull "redis:7" "linux/arm64" :: rest.
Proof.
  split; [reflexivity|]. split.
  - apply (proj1 (buildOrPullImage_decides_by_shape (obligingDocker redisProject) []
                    (newDockerImage "redis:latest") "/srv/app")); reflexivity.
  - destruct (proj2 (buildOrPullImage_decides_by_shape (obligingDocker redisProject) []
                    (newDockerImage "redis:7") "/srv/app")) as (rest & Hops & _).
    + left. reflexivity.
    + exists rest. exact Hops.
Defined.

(** The whole resolution-and-embedding pipeline on a compose file whose
    only service declares [image: redis:latest]. *)
Lemma processDockerComposeImages_builds_declared_latest :
  opsOf (processDockerComposeImages (fun _ => Some "") emptyDockerConfig "/srv/app/docker-compose.yaml")
        (obligingDocker redisProject) []
  = [LoadProject "/srv/app/docker-compose.yaml";
     Printf "Building and saving Docker images...";
     NewClient;
     Printf "Processing: redis:latest";
     ComposeBuild "/srv/app" "redis";
     ImageTag "redis:latest" "embedded/redis_latest";
     ImageSave "embedded/redis_latest";
     CreateFile "/tmp/redis_latest.tar";
     CopyToFile "/tmp/redis_latest.tar";
     Printf "Saved: embedded/redis_latest"].
Proof. reflexivity. Qed.

(** ** ArtifactLocator *)

Lemma app_cons c s t : String c s +:+ t = String c (s +:+ t).
Proof. reflexivity. Qed.

Lemma length_app_string s t : String.length (s +:+ t) = String.length s + String.length t.
Proof. induction s; simpl; [done|]. by rewrite IHs. Qed.

Lemma get_app_r p s k : String.get (String.length p + k) (p +:+ s) = String.get k s.
Proof. induction p; simpl; [done|]. exact IHp. Qed.

Lemma substring_app_r p s n :
  String.substring (String.length p) n (p +:+ s) = String.substring 0 n s.
Proof. induction p; simpl; [done|]. exact IHp. Qed.

Lemma substring_all s : String.substring 0 (String.length s) s = s.
Proof. induction s; simpl; [done|]. by rewrite IHs. Qed.

Lemma substring_split s n :
  n <= String.length s ->
  s = String.substring 0 n s +:+ String.substring n (String.length s - n) s.
Proof.
  revert n. induction s as [|c s IH]; intros [|n] Hn; simpl in *; try lia.
  - done.
  - by rewrite substring_all.
  - rewrite app_cons. f_equal. apply IH. lia.
Qed.

Lemma length_substring_0 s n : n <= String.length s -> String.length (String.substring 0 n s) = n.
Proof.
  revert n. induction s as [|c s IH]; intros [|n] Hn; simpl in *; try lia.
  rewrite IH; lia.
Qed.

(** [HasSuffix] holds exactly of the strings that end with the suffix. *)
Lemma HasSuffix_app s suffix :
  strings.HasSuffix s suffix = true <-> exists p, s = p +:+ suffix.
Proof.
  unfold strings.HasSuffix. split.
  - intros [Hlen Heq]%andb_true_iff. apply Nat.leb_le in Hlen.
    apply String.eqb_eq in Heq.
    exists (String.substring 0 (String.length s - String.length suffix) s).
    rewrite (substring_split s (String.length s - String.length suffix)) at 1 by lia.
    f_equal.
    replace (String.length s - (String.length s - String.length suffix))
      with (String.length suffix) by lia.
    exact Heq.
  - intros [p ->]. rewrite length_app_string. apply andb_true_iff. split.
    + apply Nat.leb_le. lia.
    + replace (String.length p + String.length suffix - String.length suffix)
        with (String.length p) by lia.
      rewrite substring_app_r, substring_all. apply String.eqb_refl.
Qed.

Lemma Ext_img p : filepath.Ext (p +:+ ".img") = ".img".
Proof.
  unfold filepath.Ext. rewrite length_app_string.
  replace (String.length p + String.length ".img")
    with (S (S (S (S (String.length p))))) by (simpl; lia).
  cbn [filepath.ext_loop].
  replace (S (S (S (String.length p)))) with (String.length p + 3) by lia.
  rewrite get_app_r. cbn -[String.length String.substring filepath.ext_loop].
  replace (String.length p + 3) with (S (S (S (String.length p)))) by lia.
  cbn [filepath.ext_loop].
  replace (S (S (String.length p))) with (String.length p + 2) by lia.
  rewrite get_app_r. cbn -[String.length String.substring filepath.ext_loop].
  replace (String.length p + 2) with (S (S (String.length p))) by lia.
  cbn [filepath.ext_loop].
  replace (S (String.length p)) with (String.length p + 1) by lia.
  rewrite get_app_r. cbn -[String.length String.substring filepath.ext_loop].
  replace (String.length p + 1) with (S (String.length p)) by lia.
  cbn [filepath.ext_loop].
  replace (String.get (String.length p) (p +:+ ".img")) with (String.get 0 ".img")
    by (rewrite <- (get_app_r p ".img" 0); f_equal; lia).
  cbn -[String.length String.substring].
  rewrite length_app_string.
  replace (String.length p + String.length ".img" - String.length p) with 4 by (simpl; lia).
  by rewrite substring_app_r.
Qed.

Lemma isImg_HasSuffix path : strings.HasSuffix path ".img" = true -> isImg path = true.
Proof.
  intros [p ->]%HasSuffix_app. unfold isImg. by rewrite Ext_img.
Qed.

(** Claim C9.  A path that names an existing file that is not a directory
    and ends in [.img] is returned unchanged, and the only operation
    performed is the [Stat] of that path. *)
Theorem FindImageFile_returns_img_file_unchanged
    (w : World FsOp FsResp) (path : string) :
  w [] (Stat path) = StatOk false ->
  strings.HasSuffix path ".img" = true ->
  run (FindImageFile path) w = (Ok path, [Stat path]).
Proof.
  intros Hstat Himg%isImg_HasSuffix.
  unfold run, FindImageFile, bind, perform. rewrite Hstat. cbn [negb andb].
  by rewrite Himg.
Qed.

Lemma FindImageFile_returns_img_file_unchanged_witness :
  run (FindImageFile "/home/u/build/sprout-docker-42/result.img") imageFileFs
  = (Ok "/home/u/build/sprout-docker-42/result.img",
     [Stat "/home/u/build/sprout-docker-42/result.img"]).
Proof.
  apply FindImageFile_returns_img_file_unchanged; reflexivity.
Defined.

Lemma firstImgEntry_find entries : firstImgEntry entries = List.find isImgFile entries.
Proof.
  induction entries as [|entry rest IH]; [done|].
  simpl. unfold isImgFile at 1. by rewrite IH.
Qed.

(** Claim C1 as stated fails: the locator does not agree with a dispatch on
    the backend kind.  A Containerized result under [/nix/store/] that
    holds [result.img] is searched for [sd-image] instead. *)
Lemma FindImageFile_not_by_backend_kind :
  ~ (forall (kind : BackendKind) (w : World FsOp FsResp) (path : string),
       reportedBy kind path ->
       valueOf (FindImageFile path) w [] = valueOf (locateByKind kind path) w []).
Proof.
  intros H.
  specialize (H ContainerizedBackend storeFs "/nix/store/k3v9-nixos-image" eq_refl).
  vm_compute in H. discriminate H.
Qed.

Lemma FindImageFile_sniffs_path_text :
  valueOf (FindImageFile "/nix/store/k3v9-nixos-image") storeFs []
    = Err (ImageFileNotFound "/nix/store/k3v9-nixos-image")
  /\ valueOf (locateByKind ContainerizedBackend "/nix/store/k3v9-nixos-image") storeFs []
    = Ok "/nix/store/k3v9-nixos-image/result.img"
  /\ valueOf (FindImageFile "/nix/store/k3v9-sprout-docker-demo") localFs []
    = Err (DockerImageNotFound "/nix/store/k3v9-sprout-docker-demo/result.img")
  /\ valueOf (locateByKind LocalBackend "/nix/store/k3v9-sprout-docker-demo") localFs []
    = Ok "/nix/store/k3v9-sprout-docker-demo/sd-image/nixos.img".
Proof. repeat split. Qed.

(** Claim C1, amended.  [FindImageFile] is given the reported path alone
    and chooses its strategy from the text of that path.  For a path that
    exists and is not itself an image file: when the path contains
    [sprout-docker-], only [result.img] directly inside it is looked for
    (one more [Stat], no directory is read), and a path whose last element
    is [result.img] is settled at once; otherwise the [sd-image]
    subdirectory is probed and the first entry, in listing order, that is
    not a directory and has the extension [.img] is returned, without a
    check that it is the only one. *)
Theorem FindImageFile_dispatches_on_path_text
    (w : World FsOp FsResp) (path : string) (isDir : bool) :
  w [] (Stat path) = StatOk isDir ->
  negb isDir && isImg path = false ->
  let resultImg := filepath.Join [path; "result.img"] in
  let sdImageDir := filepath.Join [path; "sd-image"] in
  (strings.Contains path "sprout-docker-" = true ->
   filepath.Base path <> "result.img" ->
   run (FindImageFile path) w
   = (match w [Stat path] (Stat resultImg) : StatResult with
      | StatOk _ => Ok resultImg
      | _ => Err (DockerImageNotFound resultImg)
      end, [Stat path; Stat resultImg]))
  /\ (strings.Contains path "sprout-docker-" = true ->
      filepath.Base path = "result.img" ->
      run (FindImageFile path) w
      = (if negb isDir then Ok path else Err (DockerImageNotFound path), [Stat path]))
  /\ (strings.Contains path "sprout-docker-" = false ->
      w [Stat path] (Stat sdImageDir) = StatNotExist ->
      run (FindImageFile path) w
      = (Err (ImageFileNotFound path), [Stat path; Stat sdImageDir]))
  /\ (strings.Contains path "sprout-docker-" = false ->
      w [Stat path] (Stat sdImageDir) <> StatNotExist ->
      run (FindImageFile path) w
      = (match w [Stat path; Stat sdImageDir] (ReadDir sdImageDir) : option (list DirEntry) with
         | None => Err ReadDirError
         | Some entries =>
             match List.find isImgFile entries with
             | Some entry => Ok (filepath.Join [sdImageDir; EntryName entry])
             | None => Err NoImgFile
             end
         end, [Stat path; Stat sdImageDir; ReadDir sdImageDir])).
Proof.
  intros Hstat Hnot resultImg sdImageDir.
  unfold run, FindImageFile, bind, perform, ret. rewrite Hstat, Hnot. cbn [app].
  fold resultImg sdImageDir.
  split; [|split; [|split]].
  - intros -> Hbase. apply String.eqb_neq in Hbase. rewrite Hbase. reflexivity.
  - intros -> Hbase. apply String.eqb_eq in Hbase. rewrite Hbase. reflexivity.
  - intros -> Hsd. rewrite Hsd. reflexivity.
  - intros -> Hsd.
    destruct (w [Stat path] (Stat sdImageDir)) eqn:E; [|done|];
      cbn [app];
      destruct (w [Stat path; Stat sdImageDir] (ReadDir sdImageDir)) as [entries|];
      rewrite <- ?firstImgEntry_find; reflexivity.
Qed.

Lemma FindImageFile_dispatches_on_path_text_witness :
  run (FindImageFile "/nix/store/k3v9-sprout-docker-demo") localFs
  = (Err (DockerImageNotFound "/nix/store/k3v9-sprout-docker-demo/result.img"),
     [Stat "/nix/store/k3v9-sprout-docker-demo";
      Stat "/nix/store/k3v9-sprout-docker-demo/result.img"]).
Proof.
  refine (proj1 (FindImageFile_dispatches_on_path_text localFs
                   "/nix/store/k3v9-sprout-docker-demo" true _ _) _ _).
  - reflexivity.
  - reflexivity.
  - reflexivity.
  - vm_compute. discriminate.
Defined.

(** ** [strings.TrimSpace] *)

Lemma spaceWidth_sane : saneWidth strings.spaceWidth.
Proof.
  intros [|c0 [|c1 [|c2 s]]]; simpl;
    repeat match goal with |- context [if ?b then _ else _] => destruct b end;
    simpl; lia.
Qed.

Lemma spaceWidthLast_sane : saneWidth strings.spaceWidthLast.
Proof.
  intros [|c0 [|c1 [|c2 s]]]; simpl;
    repeat match goal with |- context [if ?b then _ else _] => destruct b end;
    simpl; lia.
Qed.

Lemma trimLoop_step width s :
  saneWidth width ->
  strings.trimLoop width s
  = if Nat.eqb (width s) 0 then s else strings.trimLoop width (drop (width s) s).
Proof.
  intros Hsane. destruct (Hsane s) as [H3 Hlen].
  destruct s as [|c0 s]; [simpl in *; by destruct (width [])|].
  cbn [strings.trimLoop].
  destruct (width (c0 :: s)) as [|[|[|[|n]]]] eqn:E; try lia; try done.
  - destruct s as [|c1 s]; simpl in *; [lia|done].
  - destruct s as [|c1 [|c2 s]]; simpl in *; try lia. done.
Qed.

Lemma trimLoop_fixed width s :
  saneWidth width -> width s = 0 -> strings.trimLoop width s = s.
Proof. intros Hsane H0. rewrite trimLoop_step by done. by rewrite H0. Qed.

Lemma trimLoop_drop width s :
  saneWidth width -> exists k, strings.trimLoop width s = drop k s.
Proof.
  intros Hsane. remember (length s) as n eqn:Hn. revert s Hn.
  induction n as [n IH] using lt_wf_ind. intros s ->.
  rewrite trimLoop_step by done.
  destruct (Nat.eqb (width s) 0) eqn:E.
  - by exists 0.
  - apply Nat.eqb_neq in E. destruct (Hsane s) as [_ Hlen].
    destruct (IH (length (drop (width s) s))) with (s := drop (width s) s) as [k Hk].
    + rewrite length_drop. lia.
    + done.
    + exists (width s + k). rewrite Hk. by rewrite drop_drop.
Qed.

Lemma trimLoop_width width s :
  saneWidth width -> width (strings.trimLoop width s) = 0.
Proof.
  intros Hsane. remember (length s) as n eqn:Hn. revert s Hn.
  induction n as [n IH] using lt_wf_ind. intros s ->.
  rewrite trimLoop_step by done.
  destruct (Nat.eqb (width s) 0) eqn:E.
  - by apply Nat.eqb_eq.
  - apply Nat.eqb_neq in E. destruct (Hsane s) as [_ Hlen].
    apply (IH (length (drop (width s) s))); [|done].
    rewrite length_drop. lia.
Qed.

Lemma trimLoop_length width s :
  saneWidth width -> length (strings.trimLoop width s) <= length s.
Proof.
  intros Hsane. destruct (trimLoop_drop width s Hsane) as [k ->].
  rewrite length_drop. lia.
Qed.

Lemma trimLoop_same_length width s :
  saneWidth width ->
  length (strings.trimLoop width s) = length s -> width s = 0.
Proof.
  intros Hsane Hlen. rewrite trimLoop_step in Hlen by done.
  destruct (Nat.eqb (width s) 0) eqn:E; [by apply Nat.eqb_eq|].
  apply Nat.eqb_neq in E. destruct (Hsane s) as [_ Hw].
  pose proof (trimLoop_length width (drop (width s) s) Hsane) as Hle.
  rewrite length_drop in Hle. lia.
Qed.

Lemma spaceWidth_prefix l k : strings.spaceWidth l = 0 -> strings.spaceWidth (take k l) = 0.
Proof.
  destruct l as [|c0 [|c1 [|c2 l]]], k as [|[|[|k]]]; simpl; try done;
    repeat match goal with |- context [if ?b then _ else _] => destruct b end; done.
Qed.

Lemma TrimRightSpace_take l : exists k, strings.TrimRightSpace l = take k l.
Proof.
  unfold strings.TrimRightSpace.
  destruct (trimLoop_drop strings.spaceWidthLast (rev l) spaceWidthLast_sane) as [k ->].
  exists (length l - k). by rewrite skipn_rev, rev_involutive.
Qed.

Lemma TrimLeftSpace_drop l : exists k, strings.TrimLeftSpace l = drop k l.
Proof. apply trimLoop_drop, spaceWidth_sane. Qed.

Lemma TrimSpace_bytes s :
  bytes (strings.TrimSpace s) = strings.TrimRightSpace (strings.TrimLeftSpace (bytes s)).
Proof. unfold strings.TrimSpace, bytes. by rewrite list_ascii_of_string_of_list_ascii. Qed.

Lemma TrimSpace_trimmed s : trimmed (bytes (strings.TrimSpace s)).
Proof.
  rewrite TrimSpace_bytes. split.
  - destruct (TrimRightSpace_take (strings.TrimLeftSpace (bytes s))) as [k ->].
    apply spaceWidth_prefix, trimLoop_width, spaceWidth_sane.
  - unfold strings.TrimRightSpace. rewrite rev_involutive.
    apply trimLoop_width, spaceWidthLast_sane.
Qed.

Lemma trimmed_TrimSpace s : trimmed (bytes s) -> strings.TrimSpace s = s.
Proof.
  intros [Hl Hr]. unfold strings.TrimSpace. fold (bytes s).
  unfold strings.TrimLeftSpace. rewrite (trimLoop_fixed _ _ spaceWidth_sane Hl).
  unfold strings.TrimRightSpace. rewrite (trimLoop_fixed _ _ spaceWidthLast_sane Hr).
  rewrite rev_involutive. apply string_of_list_ascii_of_string.
Qed.

Lemma TrimSpace_fixed_iff s : strings.TrimSpace s = s <-> trimmed (bytes s).
Proof.
  split; [|apply trimmed_TrimSpace].
  intros <-. apply TrimSpace_trimmed.
Qed.

Lemma TrimSpace_idempotent s : strings.TrimSpace (strings.TrimSpace s) = strings.TrimSpace s.
Proof. apply trimmed_TrimSpace, TrimSpace_trimmed. Qed.

(** Trimming keeps a contiguous part of the string. *)
Lemma TrimSpace_sub s : exists i k, bytes (strings.TrimSpace s) = take k (drop i (bytes s)).
Proof.
  rewrite TrimSpace_bytes.
  destruct (TrimLeftSpace_drop (bytes s)) as [i ->].
  destruct (TrimRightSpace_take (drop i (bytes s))) as [k ->].
  by exists i, k.
Qed.

(** ** ContainerizedBackend: the store path *)

Lemma space2_second_lf b0 : strings.space2 b0 10 = false.
Proof. unfold strings.space2. by rewrite andb_false_r. Qed.

Lemma space2_first_lf b1 : strings.space2 10 b1 = false.
Proof. done. Qed.

Lemma space3_third_lf b0 b1 : strings.space3 b0 b1 10 = false.
Proof.
  unfold strings.space3. cbn -[N.eqb]. rewrite !andb_false_r. done.
Qed.

Lemma space3_second_lf b0 b2 : strings.space3 b0 10 b2 = false.
Proof.
  unfold strings.space3. cbn -[N.eqb].
  by rewrite !andb_false_r.
Qed.

Lemma space3_first_lf b1 b2 : strings.space3 10 b1 b2 = false.
Proof. done. Qed.

Lemma byte_lf : byte lf = 10%N.
Proof. reflexivity. Qed.

(** A trimmed, non-empty text stays free of leading space when a line
    feed and more text follow it. *)
Lemma spaceWidth_app_lf a rest :
  a <> [] -> strings.spaceWidth a = 0 -> strings.spaceWidth (a ++ lf :: rest) = 0.
Proof.
  intros Hne H0. destruct a as [|c0 [|c1 [|c2 a]]]; [done| | |exact H0];
    cbn [strings.spaceWidth app] in *.
  - destruct (strings.asciiSpace (byte c0)); [done|].
    rewrite byte_lf, space2_second_lf.
    destruct rest; [done|]. by rewrite space3_second_lf.
  - destruct (strings.asciiSpace (byte c0)); [done|].
    destruct (strings.space2 (byte c0) (byte c1)); [done|].
    by rewrite byte_lf, space3_third_lf.
Qed.

Lemma spaceWidthLast_app_lf a rest :
  a <> [] -> strings.spaceWidthLast a = 0 -> strings.spaceWidthLast (a ++ lf :: rest) = 0.
Proof.
  intros Hne H0. destruct a as [|c0 [|c1 [|c2 a]]]; [done| | |exact H0];
    cbn [strings.spaceWidthLast app] in *.
  - destruct (strings.asciiSpace (byte c0)); [done|].
    rewrite byte_lf, space2_first_lf.
    destruct rest; [done|]. by rewrite space3_second_lf.
  - destruct (strings.asciiSpace (byte c0)); [done|].
    destruct (strings.space2 (byte c1) (byte c0)); [done|].
    by rewrite byte_lf, space3_first_lf.
Qed.

Lemma bytes_app a b : bytes (a +:+ b) = bytes a ++ bytes b.
Proof. induction a as [|c a IH]; [done|]. rewrite app_cons. simpl. by rewrite IH. Qed.

Lemma app_assoc_string a b c : (a +:+ b) +:+ c = a +:+ b +:+ c.
Proof. induction a as [|x a IH]; [done|]. rewrite !app_cons. by rewrite IH. Qed.

Lemma bytes_nil s : bytes s = [] <-> s = "".
Proof. destruct s; simpl; split; done. Qed.

Lemma bytes_inj s t : bytes s = bytes t -> s = t.
Proof.
  intros H. rewrite <- (string_of_list_ascii_of_string s), <- (string_of_list_ascii_of_string t).
  unfold bytes in H. by rewrite H.
Qed.

Lemma TrimSpace_app_newline x :
  x <> "" -> trimmed (bytes x) -> strings.TrimSpace (x +:+ newline) = x.
Proof.
  intros Hne [Hl Hr]. assert (bytes x <> []) as Hb by (by rewrite bytes_nil).
  apply bytes_inj. rewrite TrimSpace_bytes, bytes_app. change (bytes newline) with [lf].
  unfold strings.TrimLeftSpace.
  rewrite (trimLoop_fixed _ _ spaceWidth_sane (spaceWidth_app_lf _ [] Hb Hl)).
  unfold strings.TrimRightSpace. rewrite rev_app_distr. cbn [rev app].
  rewrite (trimLoop_step _ _ spaceWidthLast_sane).
  change (strings.spaceWidthLast (lf :: rev (bytes x))) with 1. cbn [Nat.eqb skipn].
  rewrite skipn_O.
  rewrite (trimLoop_fixed _ _ spaceWidthLast_sane Hr). apply rev_involutive.
Qed.

Lemma accumulatedLine_trimmed l : accumulatedLine l -> trimmed (bytes l) /\ bytes l <> [].
Proof.
  intros (Hne & Hfix & _). split; [by apply TrimSpace_fixed_iff|by rewrite bytes_nil].
Qed.

Lemma Join_cons2 l l' rest :
  strings.Join (l :: l' :: rest) newline = l +:+ newline +:+ strings.Join (l' :: rest) newline.
Proof. reflexivity. Qed.

Lemma joinLines_Join ls :
  ls <> [] -> joinLines ls = strings.Join ls newline +:+ newline.
Proof.
  induction ls as [|l [|l' rest] IH]; intros Hne; [done|reflexivity|].
  rewrite Join_cons2.
  change (joinLines (l :: l' :: rest)) with (l +:+ newline +:+ joinLines (l' :: rest)).
  rewrite IH by done. by rewrite !app_assoc_string.
Qed.

Lemma rev_nonempty {A} (l : list A) : l <> [] -> rev l <> [].
Proof. destruct l; [done|]. intros _ H. apply (f_equal (@length A)) in H.
  rewrite length_rev in H. done. Qed.

Lemma Join_trimmed ls :
  ls <> [] -> Forall accumulatedLine ls ->
  trimmed (bytes (strings.Join ls newline)) /\ strings.Join ls newline <> "".
Proof.
  induction ls as [|l [|l' rest] IH]; intros Hne Hall; [done| |].
  - apply Forall_inv in Hall. destruct (accumulatedLine_trimmed l Hall) as [Ht Hb].
    split; [done|]. by rewrite <- bytes_nil.
  - pose proof (Forall_inv Hall) as Hl. apply Forall_inv_tail in Hall.
    destruct (accumulatedLine_trimmed l Hl) as [[Hl1 Hl2] Hb].
    destruct (IH ltac:(done) Hall) as [[Hr1 Hr2] Hrne].
    rewrite Join_cons2. split.
    + split.
      * rewrite !bytes_app. change (bytes newline) with [lf]. cbn [app].
        by apply spaceWidth_app_lf.
      * rewrite !bytes_app. change (bytes newline) with [lf].
        rewrite !rev_app_distr. cbn [rev app]. rewrite <- app_assoc. cbn [app].
        apply spaceWidthLast_app_lf; [|done].
        apply rev_nonempty. by rewrite bytes_nil.
    + destruct l; [by destruct Hl|done].
Qed.

Lemma TrimSpace_joinLines ls :
  Forall accumulatedLine ls ->
  strings.TrimSpace (joinLines ls) = strings.Join ls newline.
Proof.
  intros Hall. destruct ls as [|l rest]; [reflexivity|].
  rewrite joinLines_Join by done.
  destruct (Join_trimmed (l :: rest) ltac:(done) Hall) as [Ht Hne].
  by apply TrimSpace_app_newline.
Qed.

(** [Split] on line feeds. *)
Lemma Split_cons c r :
  strings.Split (String c r) newline
  = if Ascii.eqb lf c then "" :: strings.Split r newline
    else match strings.Split r newline with
         | p :: ps => String c p :: ps
         | [] => [String c ""]
         end.
Proof.
  unfold strings.Split, newline. cbn [strings.split_go]. by rewrite prefix_single.
Qed.

Lemma Split_app_lf l rest :
  noNewline l -> strings.Split (l +:+ newline +:+ rest) newline = l :: strings.Split rest newline.
Proof.
  unfold noNewline. induction l as [|c l IH]; intros Hno.
  - change ("" +:+ newline +:+ rest) with (String lf rest).
    rewrite Split_cons. by rewrite Ascii.eqb_refl.
  - rewrite app_cons, Split_cons. simpl in Hno. apply not_elem_of_cons in Hno as [Hc Hl].
    destruct (Ascii.eqb lf c) eqn:E; [by apply Ascii.eqb_eq in E|].
    by rewrite IH.
Qed.

Lemma Split_line l : noNewline l -> strings.Split l newline = [l].
Proof.
  unfold noNewline. induction l as [|c l IH]; intros Hno; [done|].
  rewrite Split_cons. simpl in Hno. apply not_elem_of_cons in Hno as [Hc Hl].
  destruct (Ascii.eqb lf c) eqn:E; [by apply Ascii.eqb_eq in E|].
  by rewrite IH.
Qed.

Lemma Split_Join ls :
  ls <> [] -> Forall noNewline ls -> strings.Split (strings.Join ls newline) newline = ls.
Proof.
  induction ls as [|l [|l' rest] IH]; intros Hne Hall; [done| |].
  - apply Split_line. by apply Forall_inv in Hall.
  - rewrite Join_cons2, Split_app_lf by (by apply Forall_inv in Hall).
    f_equal. apply IH; [done|]. by apply Forall_inv_tail in Hall.
Qed.

(** The backward scan returns the last line, in order, whose trimmed text
    has the store prefix. *)
Lemma scanBack_app n lines more :
  n <= length lines -> scanBack n (lines ++ more) = scanBack n lines.
Proof.
  induction n as [|i IH]; intros Hn; [done|].
  cbn [scanBack]. rewrite app_nth1 by lia. rewrite IH by lia. done.
Qed.

Lemma scanBack_find lines :
  scanBack (length lines) lines
  = default "" (List.find hasStorePrefix (rev (map strings.TrimSpace lines))).
Proof.
  induction lines as [|line lines IH] using rev_ind; [done|].
  rewrite length_app, Nat.add_comm. cbn [length Nat.add scanBack].
  rewrite app_nth2, Nat.sub_diag by lia. cbn [nth].
  rewrite map_app, rev_app_distr. cbn [map rev app List.find].
  unfold hasStorePrefix at 1.
  destruct (strings.HasPrefix (strings.TrimSpace line) storePrefix); [done|].
  rewrite scanBack_app by lia. exact IH.
Qed.

Lemma find_hasStorePrefix_nonempty ls l :
  List.find hasStorePrefix ls = Some l -> l <> "".
Proof. intros [_ H]%find_some. by destruct l. Qed.

Lemma extractNixStorePath_find output :
  extractNixStorePath output
  = match List.find hasStorePrefix
            (rev (map strings.TrimSpace (strings.Split (strings.TrimSpace output) newline))) with
    | Some l => Ok l
    | None => Err NoStorePath
    end.
Proof.
  unfold extractNixStorePath. rewrite scanBack_find.
  destruct (List.find _ _) as [l|] eqn:E; [|done].
  apply find_hasStorePrefix_nonempty in E. unfold default, from_option, id.
  apply String.eqb_neq in E. by rewrite E.
Qed.

Lemma extractNixStorePath_joinLines ls :
  Forall accumulatedLine ls ->
  extractNixStorePath (joinLines ls)
  = match List.find hasStorePrefix (rev ls) with
    | Some l => Ok l
    | None => Err NoStorePath
    end.
Proof.
  intros Hall.
  rewrite extractNixStorePath_find, TrimSpace_joinLines by done.
  destruct ls as [|l rest]; [reflexivity|].
  rewrite Split_Join; [|done|].
  - replace (map strings.TrimSpace (l :: rest)) with (l :: rest); [done|].
    symmetry. rewrite <- (map_id (l :: rest)) at 2. apply map_ext_Forall.
    eapply Forall_impl; [exact Hall|]. by intros x (_ & Hx & _).
  - eapply Forall_impl; [exact Hall|]. by intros x (_ & _ & Hx).
Qed.

(** Claim C6.  On the accumulated lines, [extractNixStorePath] returns the
    last line, in stream order, that starts with [/nix/store/], and it
    fails exactly when no accumulated line has that prefix. *)
Theorem extractNixStorePath_last_store_line (ls : list string) :
  Forall accumulatedLine ls ->
  extractNixStorePath (joinLines ls)
  = match List.find hasStorePrefix (rev ls) with
    | Some l => Ok l
    | None => Err NoStorePath
    end
  /\ (extractNixStorePath (joinLines ls) = Err NoStorePath
      <-> Forall (fun l => hasStorePrefix l = false) ls).
Proof.
  intros Hall. pose proof (extractNixStorePath_joinLines ls Hall) as Heq.
  split; [exact Heq|]. rewrite Heq.
  destruct (List.find hasStorePrefix (rev ls)) as [l|] eqn:E.
  - split; [done|]. intros Hnone. apply find_some in E as [Hin Hp].
    apply in_rev in Hin. rewrite Forall_forall in Hnone.
    apply list_elem_of_In in Hin. specialize (Hnone _ Hin). congruence.
  - split; [|done]. intros _. apply Forall_forall. intros l Hin.
    apply list_elem_of_In, in_rev in Hin.
    apply (find_none _ _ E) in Hin. done.
Qed.

Lemma accumulatedLine_by_computation l :
  l <> "" -> strings.TrimSpace l = l -> forallb (fun c => negb (Ascii.eqb lf c)) (bytes l) = true ->
  accumulatedLine l.
Proof.
  intros Hne Ht Hb. split; [done|]. split; [done|].
  unfold noNewline. intros Hin. apply list_elem_of_In in Hin.
  rewrite forallb_forall in Hb. specialize (Hb _ Hin).
  by rewrite Ascii.eqb_refl in Hb.
Qed.

Lemma extractNixStorePath_last_store_line_witness :
  extractNixStorePath (joinLines sampleLines) = Ok "/nix/store/z9-nixos-sd-image".
Proof.
  refine (proj1 (extractNixStorePath_last_store_line sampleLines _)).
  repeat constructor; apply accumulatedLine_by_computation;
    try discriminate; reflexivity.
Defined.

(** ** ContainerizedBackend: what the demultiplexer accumulates *)

Lemma app_empty_r s : s +:+ "" = s.
Proof. induction s as [|c s IH]; [done|]. by rewrite app_cons, IH. Qed.

Lemma joinLines_app a b : joinLines (a ++ b) = joinLines a +:+ joinLines b.
Proof.
  induction a as [|l a IH]; [done|]. cbn [app joinLines].
  by rewrite IH, !app_assoc_string.
Qed.

Lemma writeLines_joinLines tokens b :
  writeLines tokens b = b +:+ joinLines (acceptedLines tokens).
Proof.
  revert b. induction tokens as [|text tokens IH]; intros b.
  - by rewrite app_empty_r.
  - cbn [writeLines]. unfold acceptedLines. cbn [map]. rewrite filter_cons.
    destruct (String.eqb (strings.TrimSpace text) "") eqn:E; cbn [negb].
    + apply String.eqb_eq in E. rewrite decide_False by (by intros ?).
      apply IH.
    + apply String.eqb_neq in E. rewrite decide_True by done.
      rewrite IH. cbn [joinLines]. fold (acceptedLines tokens).
      by rewrite !app_assoc_string.
Qed.

Lemma Split_noNewline s : Forall noNewline (strings.Split s newline).
Proof.
  induction s as [|c s IH].
  - repeat constructor. unfold noNewline. simpl. apply not_elem_of_nil.
  - rewrite Split_cons. destruct (Ascii.eqb lf c) eqn:E.
    + constructor; [|done]. unfold noNewline. simpl. apply not_elem_of_nil.
    + apply Ascii.eqb_neq in E.
      destruct (strings.Split s newline) as [|p ps].
      * repeat constructor. unfold noNewline. simpl.
        intros [?|?%elem_of_nil]%elem_of_cons; done.
      * apply Forall_cons in IH as [Hp Hps]. constructor; [|done].
        unfold noNewline in *. simpl. intros [?|?]%elem_of_cons; done.
Qed.

Lemma dropCR_noNewline s : noNewline s -> noNewline (bufio.dropCR s).
Proof.
  unfold noNewline. induction s as [|c s IH]; [done|].
  intros [Hc Hs]%not_elem_of_cons. cbn [bufio.dropCR].
  destruct s as [|c' s].
  - destruct (Ascii.eqb c carriageReturn); simpl; [apply not_elem_of_nil|].
    intros [?|?%elem_of_nil]%elem_of_cons; done.
  - change (bytes (String c (bufio.dropCR (String c' s))))
      with (c :: bytes (bufio.dropCR (String c' s))).
    intros [?|?]%elem_of_cons; [done|]. by apply IH.
Qed.

Lemma Forall_removelast {A} (P : A -> Prop) l : Forall P l -> Forall P (removelast l).
Proof.
  induction l as [|x [|y l] IH]; intros H; [done|constructor|].
  change (removelast (x :: y :: l)) with (x :: removelast (y :: l)).
  apply Forall_cons in H as [Hx H]. constructor; [done|]. by apply IH.
Qed.

Lemma scanTokens_noNewline lines :
  Forall noNewline lines -> Forall noNewline (bufio.scanTokens lines).
Proof.
  induction lines as [|l lines IH]; intros H; [constructor|].
  apply Forall_cons in H as [Hl H]. cbn [bufio.scanTokens].
  destruct (bufio.fits l); constructor; [by apply dropCR_noNewline|by apply IH].
Qed.

Lemma ScanLines_noNewline data : Forall noNewline (bufio.ScanLines data).
Proof.
  unfold bufio.ScanLines, bufio.rawLines. apply scanTokens_noNewline.
  pose proof (Split_noNewline data) as H.
  destruct (last (strings.Split data newline)) as [[|]|]; try done.
  by apply Forall_removelast.
Qed.

Lemma TrimSpace_noNewline s : noNewline s -> noNewline (strings.TrimSpace s).
Proof.
  unfold noNewline. intros Hno Hin.
  destruct (TrimSpace_sub s) as (i & k & Heq). rewrite Heq in Hin.
  by apply subseteq_take, subseteq_drop in Hin.
Qed.

Lemma acceptedLines_accumulated tokens :
  Forall noNewline tokens -> Forall accumulatedLine (acceptedLines tokens).
Proof.
  intros Hno. unfold acceptedLines. apply Forall_forall. intros l Hin.
  apply list_elem_of_filter in Hin as [Hne Hin].
  apply list_elem_of_In, in_map_iff in Hin as (text & <- & Hin).
  split; [done|]. split; [apply TrimSpace_idempotent|].
  apply TrimSpace_noNewline. rewrite Forall_forall in Hno.
  by apply Hno, list_elem_of_In.
Qed.




Local Open Scope Z_scope.

(** ** ContainerizedBackend: frames *)

Lemma byte_of_Z z : 0 <= z < 256 -> Z.of_N (byte (ascii_of_N (Z.to_N z))) = z.
Proof.
  intros Hz. unfold byte. rewrite N_ascii_embedding by lia. lia.
Qed.

Lemma land_255_range z : 0 <= Z.land z 255 < 256.
Proof.
  change 255 with (Z.ones 8). rewrite Z.land_ones by lia.
  apply Z.mod_pos_bound. lia.
Qed.

Lemma testbit_255 i : 0 <= i -> Z.testbit 255 i = (i <? 8).
Proof.
  intros Hi. change 255 with (Z.ones 8).
  destruct (i <? 8) eqn:E.
  - apply Z.ones_spec_low. lia.
  - apply Z.ones_spec_high. lia.
Qed.

Lemma testbit_byte_field n k i :
  0 <= k -> 0 <= i ->
  Z.testbit (Z.shiftl (Z.land (Z.shiftr n k) 255) k) i
  = (k <=? i) && (i <? k + 8) && Z.testbit n i.
Proof.
  intros Hk Hi. rewrite Z.shiftl_spec by lia.
  destruct (Z.leb_spec k i).
  - rewrite Z.land_spec, Z.shiftr_spec, testbit_255 by lia.
    replace (i - k + k) with i by lia.
    destruct (Z.ltb_spec (i - k) 8), (Z.ltb_spec i (k + 8)); try lia;
      simpl; by rewrite ?andb_true_r, ?andb_false_r.
  - by rewrite Z.testbit_neg_r by lia.
Qed.

(** The four length bytes of a frame header spell the length. *)
Lemma be32_value n :
  0 <= n < 2 ^ 32 ->
  Z.lor (Z.lor (Z.lor (Z.shiftl (Z.land (Z.shiftr n 24) 255) 24)
                      (Z.shiftl (Z.land (Z.shiftr n 16) 255) 16))
               (Z.shiftl (Z.land (Z.shiftr n 8) 255) 8))
        (Z.land n 255) = n.
Proof.
  intros Hn. apply Z.bits_inj'. intros i Hi.
  rewrite !Z.lor_spec, !testbit_byte_field by lia.
  rewrite Z.land_spec, testbit_255 by lia.
  destruct (Z.ltb_spec i 32) as [Hlt|Hge].
  - destruct (Z.leb_spec 24 i), (Z.leb_spec 16 i), (Z.leb_spec 8 i),
      (Z.ltb_spec i (24 + 8)), (Z.ltb_spec i (16 + 8)), (Z.ltb_spec i (8 + 8)),
      (Z.ltb_spec i 8); try lia; simpl;
      by rewrite ?andb_true_r, ?andb_false_r, ?orb_false_r.
  - assert (Z.testbit n i = false) as ->.
    { destruct (Z.eq_dec n 0) as [->|Hn0]; [apply Z.bits_0|].
      apply Z.bits_above_log2; [lia|].
      assert (Z.log2 n < 32) by (apply Z.log2_lt_pow2; lia). lia. }
    by rewrite !andb_false_r.
Qed.

Close Scope Z_scope.

Lemma tag4 (tag : string) :
  String.length tag = 4 -> exists a b c d, tag = String a (String b (String c (String d ""))).
Proof.
  destruct tag as [|a [|b [|c [|d [|e tag]]]]]; try done. intros _. by exists a, b, c, d.
Qed.

Lemma payloadSize_header tag n :
  String.length tag = 4 -> (0 <= n < 2 ^ 32)%Z -> payloadSize (tag +:+ be32 n) = n.
Proof.
  intros (a & b & c & d & ->)%tag4 Hn.
  unfold payloadSize, byteAt, be32. cbn [String.get String.append].
  change (String a (String b (String c (String d ""))) +:+ ?x)
    with (String a (String b (String c (String d x)))).
  cbn [String.get].
  rewrite !byte_of_Z by apply land_255_range.
  by apply be32_value.
Qed.

Lemma length_be32 n : String.length (be32 n) = 4.
Proof. reflexivity. Qed.

Lemma substring_0_app p s : String.substring 0 (String.length p) (p +:+ s) = p.
Proof. induction p as [|c p IH]; [by destruct s|]. rewrite app_cons. simpl. by rewrite IH. Qed.

Lemma readFull_app p rest :
  readFull (Z.of_nat (String.length p)) (p +:+ rest) = Some (p, rest).
Proof.
  unfold readFull. rewrite length_app_string.
  destruct (Z.ltb_spec (Z.of_nat (String.length p + String.length rest))
              (Z.of_nat (String.length p))); [lia|].
  rewrite Nat2Z.id. rewrite substring_0_app.
  replace (String.length p + String.length rest - String.length p)
    with (String.length rest) by lia.
  by rewrite substring_app_r, substring_all.
Qed.

Lemma readFull_short n logs :
  (Z.of_nat (String.length logs) < n)%Z -> readFull n logs = None.
Proof. intros H. unfold readFull. by destruct (Z.ltb_spec (Z.of_nat (String.length logs)) n); [|lia]. Qed.

Lemma readFull_length n logs p rest :
  (0 <= n)%Z -> readFull n logs = Some (p, rest) ->
  String.length logs = Z.to_nat n + String.length rest.
Proof.
  unfold readFull. intros Hn.
  destruct (Z.ltb_spec (Z.of_nat (String.length logs)) n); [done|].
  intros [= <- <-].
  rewrite (substring_split logs (Z.to_nat n)) at 1 by lia.
  rewrite length_app_string, length_substring_0 by lia. done.
Qed.

(** Enough fuel: the loop's result does not depend on it. *)
Lemma logLoop_fuel fuel fuel' logs b :
  String.length logs <= fuel -> String.length logs <= fuel' ->
  logLoop fuel logs b = logLoop fuel' logs b.
Proof.
  revert fuel' logs b. induction fuel as [|fuel IH]; intros fuel' logs b H1 H2.
  - destruct logs; [|simpl in H1; lia]. by destruct fuel'.
  - destruct fuel' as [|fuel'].
    { destruct logs; [|simpl in H2; lia]. done. }
    cbn [logLoop].
    destruct (readFull 8 logs) as [[header rest]|] eqn:E1; [|done].
    apply readFull_length in E1; [|lia].
    destruct (payloadSize header <=? 0)%Z eqn:E0.
    + apply IH; lia.
    + destruct (readFull (payloadSize header) rest) as [[payload rest']|] eqn:E2; [|done].
      apply Z.leb_gt in E0. apply readFull_length in E2; [|lia].
      apply IH; lia.
Qed.

Lemma ScanLines_empty b : writeLines (bufio.ScanLines "") b = b.
Proof. reflexivity. Qed.

Lemma processDockerLogs_frame tag payload more b :
  wellFormedFrame (tag, payload) ->
  processDockerLogs (frame tag payload +:+ more) b
  = processDockerLogs more (writeLines (bufio.ScanLines payload) b).
Proof.
  intros [Htag Hlen]. simpl in Htag, Hlen. unfold processDockerLogs, frame.
  rewrite !app_assoc_string.
  assert (String.length (tag +:+ be32 (Z.of_nat (String.length payload)) +:+ payload +:+ more)
          = S (7 + String.length payload + String.length more)) as Hl.
  { rewrite !length_app_string, length_be32. lia. }
  rewrite Hl. cbn [logLoop].
  rewrite <- (app_assoc_string tag).
  pose proof (readFull_app (tag +:+ be32 (Z.of_nat (String.length payload))) (payload +:+ more)) as Hr.
  rewrite length_app_string, length_be32, Htag in Hr. change (Z.of_nat (4 + 4)) with 8%Z in Hr.
  rewrite Hr. rewrite payloadSize_header by (done || lia).
  destruct (Z.leb_spec (Z.of_nat (String.length payload)) 0).
  - assert (payload = "") as -> by (destruct payload; [done|simpl in *; lia]).
    rewrite ScanLines_empty. apply logLoop_fuel; simpl; lia.
  - rewrite readFull_app. apply logLoop_fuel; lia.
Qed.

Lemma processDockerLogs_truncated tail b :
  truncatedFrame tail -> processDockerLogs tail b = b.
Proof.
  intros [Hshort|(header & partial & -> & Hh & Hp)]; unfold processDockerLogs.
  - destruct (String.length tail) eqn:E; [done|]. cbn [logLoop].
    rewrite readFull_short; [done|lia].
  - rewrite length_app_string, Hh. cbn [Nat.add logLoop].
    pose proof (readFull_app header partial) as Hr. rewrite Hh in Hr.
    change (Z.of_nat 8) with 8%Z in Hr. rewrite Hr.
    destruct (Z.leb_spec (payloadSize header) 0); [lia|].
    by rewrite readFull_short.
Qed.

Lemma processDockerLogs_frames fs tail b :
  Forall wellFormedFrame fs -> truncatedFrame tail ->
  processDockerLogs (frames fs +:+ tail) b = writeFrames fs b.
Proof.
  revert b. induction fs as [|[tag payload] fs IH]; intros b Hwf Htail.
  - by apply processDockerLogs_truncated.
  - apply Forall_cons in Hwf as [Hf Hwf]. cbn [frames writeFrames].
    rewrite app_assoc_string, processDockerLogs_frame by done. by apply IH.
Qed.

Lemma asciiSpace_cases c :
  strings.asciiSpace (byte c) = true ->
  c = "009"%char \/ c = "010"%char \/ c = "011"%char \/ c = "012"%char
  \/ c = "013"%char \/ c = " "%char.
Proof.
  destruct c as [[] [] [] [] [] [] [] []]; vm_compute; intros H;
    try discriminate H; auto 10.
Qed.

Lemma blank_cons c pad : blank (String c pad) -> strings.asciiSpace (byte c) = true /\ blank pad.
Proof. unfold blank. simpl. by intros [? ?]%andb_true_iff. Qed.

Lemma processDockerLogs_empty b : processDockerLogs "" b = b.
Proof. reflexivity. Qed.

Lemma frames_nil_r fs : frames fs +:+ "" = frames fs.
Proof. apply app_empty_r. Qed.

Lemma truncatedFrame_empty : truncatedFrame "".
Proof. left. simpl. lia. Qed.

Lemma okLine_padded pad1 :
  blank pad1 -> String.length (okLine +:+ pad1) = 5 ->
  writeLines (bufio.ScanLines (okLine +:+ pad1)) "" = okLine.
Proof.
  intros Hb Hlen.
  destruct pad1 as [|a [|b [|c pad1]]]; try (simpl in Hlen; lia).
  apply blank_cons in Hb as [Ha Hb]. apply blank_cons in Hb as [Hb _].
  apply asciiSpace_cases in Ha, Hb.
  destruct Ha as [->|[->|[->|[->|[->| ->]]]]];
    destruct Hb as [->|[->|[->|[->|[->| ->]]]]]; reflexivity.
Qed.

Lemma errLine_padded pad2 :
  blank pad2 -> String.length pad2 <= 1 ->
  writeLines (bufio.ScanLines (errLine +:+ pad2)) okLine = okLine +:+ errLine.
Proof.
  intros Hb Hlen.
  destruct pad2 as [|a [|b pad2]]; try (simpl in Hlen; lia); [reflexivity|].
  apply blank_cons in Hb as [Ha _]. apply asciiSpace_cases in Ha.
  destruct Ha as [->|[->|[->|[->|[->| ->]]]]]; reflexivity.
Qed.

(** Claim C4.  A frame whose header announces five bytes and carries
    ["ok\n"] padded with white space, followed by a frame carrying
    ["err\n"], leaves exactly the two lines in the accumulation buffer;
    and a stream of complete frames that breaks off inside a header or
    inside a payload is decoded as the complete frames alone: nothing of
    the broken frame is appended. *)
Theorem processDockerLogs_demultiplexes :
  (forall tag1 tag2 pad1 pad2 : string,
     String.length tag1 = 4 -> String.length tag2 = 4 ->
     blank pad1 -> String.length (okLine +:+ pad1) = 5 ->
     blank pad2 -> String.length pad2 <= 1 ->
     processDockerLogs (frame tag1 (okLine +:+ pad1) +:+ frame tag2 (errLine +:+ pad2)) ""
     = okLine +:+ errLine)
  /\ (forall (fs : list (string * string)) (tail buildOutput : string),
        Forall wellFormedFrame fs -> truncatedFrame tail ->
        processDockerLogs (frames fs +:+ tail) buildOutput
        = processDockerLogs (frames fs) buildOutput
        /\ processDockerLogs (frames fs +:+ tail) buildOutput
           = writeFrames fs buildOutput).
Proof.
  split.
  - intros tag1 tag2 pad1 pad2 Ht1 Ht2 Hb1 Hl1 Hb2 Hl2.
    rewrite processDockerLogs_frame.
    2:{ split; [done|]. cbn [snd]. rewrite Hl1. done. }
    rewrite <- (app_empty_r (frame tag2 _)), processDockerLogs_frame.
    2:{ split; [done|]. cbn [snd]. rewrite length_app_string.
        change (String.length errLine) with 4. lia. }
    rewrite processDockerLogs_empty, okLine_padded by done.
    by apply errLine_padded.
  - intros fs tail b Hwf Htail. split.
    + rewrite <- (frames_nil_r fs) at 2.
      rewrite !processDockerLogs_frames; [done| done | apply truncatedFrame_empty | done | done].
    + by apply processDockerLogs_frames.
Qed.

Lemma processDockerLogs_demultiplexes_witness :
  processDockerLogs (frame stdoutTag (okLine +:+ twoSpaces) +:+ frame stderrTag (errLine +:+ " ")) ""
    = okLine +:+ errLine
  /\ processDockerLogs
       (frames [(stdoutTag, okLine +:+ twoSpaces)] +:+ stderrTag +:+ be32 5 +:+ "er") ""
     = okLine.
Proof.
  split.
  - apply (proj1 processDockerLogs_demultiplexes); reflexivity.
  - refine (eq_trans (proj2 (proj2 processDockerLogs_demultiplexes
              [(stdoutTag, okLine +:+ twoSpaces)] (stderrTag +:+ be32 5 +:+ "er") "" _ _)) _).
    + repeat constructor.
    + right. exists (stderrTag +:+ be32 5), "er". split; [reflexivity|].
      split; [reflexivity|]. vm_compute. reflexivity.
    + reflexivity.
Defined.

Local Open Scope Z_scope.

Lemma testbit_byte_high x i : 0 <= x < 256 -> 8 <= i -> Z.testbit x i = false.
Proof.
  intros Hx Hi. destruct (Z.eq_dec x 0) as [->|Hx0]; [apply Z.bits_0|].
  apply Z.bits_above_log2; [lia|].
  assert (Z.log2 x < 8) by (apply Z.log2_lt_pow2; lia). lia.
Qed.

Lemma byte_range c : 0 <= Z.of_N (byte c) < 256.
Proof. unfold byte. pose proof (N_ascii_bounded c). lia. Qed.

(** The bits of four bytes packed most significant first. *)
Lemma testbit_pack a b c d i :
  0 <= a < 256 -> 0 <= b < 256 -> 0 <= c < 256 -> 0 <= d < 256 -> 0 <= i ->
  Z.testbit (Z.lor (Z.lor (Z.lor (Z.shiftl a 24) (Z.shiftl b 16)) (Z.shiftl c 8)) d) i
  = if i <? 8 then Z.testbit d i
    else if i <? 16 then Z.testbit c (i - 8)
    else if i <? 24 then Z.testbit b (i - 16)
    else Z.testbit a (i - 24).
Proof.
  intros Ha Hb Hc Hd Hi. rewrite !Z.lor_spec, !Z.shiftl_spec by lia.
  destruct (Z.ltb_spec i 8); [|destruct (Z.ltb_spec i 16); [|destruct (Z.ltb_spec i 24)]].
  - by rewrite !(Z.testbit_neg_r _ (i - _)) by lia.
  - rewrite !(Z.testbit_neg_r _ (i - 24)), !(Z.testbit_neg_r _ (i - 16)) by lia.
    by rewrite (testbit_byte_high d i), orb_false_r by lia.
  - rewrite !(Z.testbit_neg_r _ (i - 24)) by lia.
    by rewrite (testbit_byte_high d i), (testbit_byte_high c (i - 8)), !orb_false_r by lia.
  - by rewrite (testbit_byte_high d i), (testbit_byte_high c (i - 8)),
      (testbit_byte_high b (i - 16)), !orb_false_r by lia.
Qed.

Lemma unpack_byte n k x :
  0 <= k -> 0 <= x < 256 ->
  (forall j, 0 <= j < 8 -> Z.testbit n (j + k) = Z.testbit x j) ->
  Z.land (Z.shiftr n k) 255 = x.
Proof.
  intros Hk Hx Hbits. apply Z.bits_inj'. intros j Hj.
  rewrite Z.land_spec, Z.shiftr_spec, testbit_255 by lia.
  destruct (Z.ltb_spec j 8).
  - rewrite andb_true_r. apply Hbits. lia.
  - rewrite andb_false_r. symmetry. apply testbit_byte_high; lia.
Qed.

Lemma pack_range a b c d :
  0 <= a < 256 -> 0 <= b < 256 -> 0 <= c < 256 -> 0 <= d < 256 ->
  0 <= Z.lor (Z.lor (Z.lor (Z.shiftl a 24) (Z.shiftl b 16)) (Z.shiftl c 8)) d < 2 ^ 32.
Proof.
  intros Ha Hb Hc Hd.
  set (n := Z.lor _ d).
  assert (0 <= n) as Hn0.
  { unfold n. rewrite !Z.lor_nonneg, !Z.shiftl_nonneg. lia. }
  split; [done|].
  assert (n mod 2 ^ 32 = n) as <-; [|apply Z.mod_pos_bound; lia].
  apply Z.bits_inj'. intros i Hi.
  destruct (Z.ltb_spec i 32).
  - by rewrite Z.mod_pow2_bits_low by lia.
  - rewrite Z.mod_pow2_bits_high by lia. symmetry. unfold n.
    rewrite testbit_pack by lia.
    destruct (Z.ltb_spec i 8); [lia|]. destruct (Z.ltb_spec i 16); [lia|].
    destruct (Z.ltb_spec i 24); [lia|]. apply testbit_byte_high; lia.
Qed.

Close Scope Z_scope.

Lemma ascii_of_byte c : ascii_of_N (Z.to_N (Z.of_N (byte c))) = c.
Proof. rewrite N2Z.id. apply ascii_N_embedding. Qed.

(** Any eight bytes are the header of a frame. *)
Lemma header_be32 tag size :
  String.length tag = 4 -> String.length size = 4 ->
  be32 (payloadSize (tag +:+ size)) = size
  /\ (0 <= payloadSize (tag +:+ size) < 2 ^ 32)%Z.
Proof.
  intros (t0 & t1 & t2 & t3 & ->)%tag4 (a & b & c & d & ->)%tag4.
  unfold payloadSize, byteAt. cbn [String.get String.append].
  change (String t0 (String t1 (String t2 (String t3 ""))) +:+ ?x)
    with (String t0 (String t1 (String t2 (String t3 x)))).
  cbn [String.get].
  pose proof (byte_range a) as Ha. pose proof (byte_range b) as Hb.
  pose proof (byte_range c) as Hc. pose proof (byte_range d) as Hd.
  split; [|by apply pack_range].
  unfold be32.
  rewrite (unpack_byte _ 24 (Z.of_N (byte a))), (unpack_byte _ 16 (Z.of_N (byte b))),
    (unpack_byte _ 8 (Z.of_N (byte c))); try lia.
  - replace (Z.land _ 255) with (Z.of_N (byte d)).
    + by rewrite !ascii_of_byte.
    + symmetry. rewrite <- (Z.shiftr_0_r (Z.lor _ _)). apply unpack_byte; try lia.
      intros j Hj. rewrite testbit_pack by lia.
      destruct (Z.ltb_spec (j + 0) 8); [|lia]. f_equal. lia.
  - intros j Hj. rewrite testbit_pack by lia.
    destruct (Z.ltb_spec (j + 8) 8); [lia|]. destruct (Z.ltb_spec (j + 8) 16); [|lia].
    f_equal. lia.
  - intros j Hj. rewrite testbit_pack by lia.
    destruct (Z.ltb_spec (j + 16) 8); [lia|]. destruct (Z.ltb_spec (j + 16) 16); [lia|].
    destruct (Z.ltb_spec (j + 16) 24); [|lia]. f_equal. lia.
  - intros j Hj. rewrite testbit_pack by lia.
    destruct (Z.ltb_spec (j + 24) 8); [lia|]. destruct (Z.ltb_spec (j + 24) 16); [lia|].
    destruct (Z.ltb_spec (j + 24) 24); [lia|]. f_equal. lia.
Qed.

Lemma length_substring_from s n :
  n <= String.length s ->
  String.length (String.substring n (String.length s - n) s) = String.length s - n.
Proof.
  intros Hn. pose proof (substring_split s n Hn) as Hs.
  apply (f_equal String.length) in Hs.
  rewrite length_app_string, length_substring_0 in Hs by lia. lia.
Qed.

(** Every stream is a run of complete frames followed by what is left of a
    broken one (possibly nothing). *)
Lemma stream_frames logs :
  exists fs tail,
    logs = frames fs +:+ tail /\ Forall wellFormedFrame fs /\ truncatedFrame tail.
Proof.
  remember (String.length logs) as n eqn:Hn. revert logs Hn.
  induction n as [n IH] using lt_wf_ind. intros logs ->.
  destruct (Nat.lt_ge_cases (String.length logs) 8) as [Hshort|Hlong].
  { exists [], logs. repeat split; [constructor|by left]. }
  pose proof (substring_split logs 8 Hlong) as Hsplit.
  set (header := String.substring 0 8 logs) in *.
  set (rest := String.substring 8 (String.length logs - 8) logs) in *.
  assert (String.length header = 8) as Hh by (by apply length_substring_0).
  assert (String.length rest = String.length logs - 8) as Hr
    by (by apply length_substring_from).
  pose proof (substring_split header 4 ltac:(lia)) as Hhs.
  set (tag := String.substring 0 4 header) in *.
  set (size := String.substring 4 (String.length header - 4) header) in *.
  assert (String.length tag = 4) as Htag by (apply length_substring_0; lia).
  assert (String.length size = 4) as Hsize
    by (unfold size; rewrite length_substring_from; lia).
  destruct (header_be32 tag size Htag Hsize) as [Hbe Hrange]. rewrite <- Hhs in Hbe, Hrange.
  destruct (Z.lt_ge_cases (Z.of_nat (String.length rest)) (payloadSize header)) as [Hcut|Hfull].
  { exists [], logs. repeat split; [constructor|].
    right. exists header, rest. done. }
  set (k := Z.to_nat (payloadSize header)).
  assert (k <= String.length rest) as Hk by (unfold k; lia).
  pose proof (substring_split rest k Hk) as Hrs.
  set (payload := String.substring 0 k rest) in *.
  set (rest' := String.substring k (String.length rest - k) rest) in *.
  assert (String.length payload = k) as Hp by (by apply length_substring_0).
  assert (String.length rest' = String.length rest - k) as Hr'
    by (by apply length_substring_from).
  destruct (IH (String.length rest') ltac:(lia) rest' eq_refl) as (fs & tail & Heq & Hwf & Htail).
  exists ((tag, payload) :: fs), tail. split; [|split; [|done]].
  - cbn [frames]. unfold frame. rewrite Hp. unfold k. rewrite Z2Nat.id by lia.
    rewrite Hbe. rewrite !app_assoc_string, <- Heq, <- Hrs.
    rewrite <- app_assoc_string, <- Hhs. exact Hsplit.
  - constructor; [|done]. split; [done|]. cbn [snd]. rewrite Hp. unfold k. lia.
Qed.

(** X8.  Whatever bytes the stream holds, it is a run of complete frames
    followed by what is left of a broken one (possibly nothing), and the
    builder receives the lines of the complete frames and nothing else. *)
Lemma processDockerLogs_any_stream logs buildOutput :
  exists fs tail,
    logs = frames fs +:+ tail /\ Forall wellFormedFrame fs /\ truncatedFrame tail
    /\ processDockerLogs logs buildOutput = writeFrames fs buildOutput.
Proof.
  destruct (stream_frames logs) as (fs & tail & -> & Hwf & Htail).
  exists fs, tail. repeat split; try done. by apply processDockerLogs_frames.
Qed.

(** ** TemplateRenderer *)

Section SortEntries.
Context {A : Type}.
Implicit Types (e : string * A) (m : list (string * A)).

Lemma insertEntry_perm e m : Permutation (insertEntry e m) (e :: m).
Proof.
  induction m as [|x m IH]; [done|]. cbn [insertEntry].
  destruct (String.leb (fst e) (fst x)); [done|].
  rewrite IH. apply perm_swap.
Qed.

Lemma sortEntries_perm m : Permutation (sortEntries m) m.
Proof.
  induction m as [|e m IH]; [done|]. cbn [sortEntries fold_right].
  fold (sortEntries m). rewrite insertEntry_perm. by constructor.
Qed.

Lemma keyLe_total (a b : string * A) : keyLe a b \/ keyLe b a.
Proof. apply (total String.le). Qed.

Global Instance keyLe_trans : Transitive (@keyLe A).
Proof. intros a b c. unfold keyLe. apply (transitivity (R:=String.le)). Qed.

Lemma insertEntry_sorted e m : Sorted keyLe m -> Sorted keyLe (insertEntry e m).
Proof.
  induction m as [|x m IH]; intros Hs; cbn [insertEntry].
  - repeat constructor.
  - destruct (String.leb (fst e) (fst x)) eqn:E.
    + constructor; [done|]. constructor. unfold keyLe, String.le. by rewrite E.
    + apply Sorted_inv in Hs as [Hs Hhd]. constructor; [by apply IH|].
      assert (keyLe x e) as Hxe.
      { destruct (keyLe_total x e) as [?|H]; [done|].
        unfold keyLe, String.le in H. by rewrite E in H. }
      destruct m as [|y m]; cbn [insertEntry].
      * by constructor.
      * destruct (String.leb (fst e) (fst y)); constructor; [done|].
        by apply HdRel_inv in Hhd.
Qed.

Lemma sortEntries_sorted m : Sorted keyLe (sortEntries m).
Proof.
  induction m as [|e m IH]; [constructor|]. by apply insertEntry_sorted.
Qed.

Lemma elem_of_keys m k (v : A) : (k, v) ∈ m -> k ∈ map fst m.
Proof.
  intros H. apply list_elem_of_In, in_map_iff. exists (k, v).
  split; [done|]. by apply list_elem_of_In.
Qed.

Lemma NoDup_keys_functional m k (v1 v2 : A) :
  NoDup (map fst m) -> (k, v1) ∈ m -> (k, v2) ∈ m -> v1 = v2.
Proof.
  induction m as [|[k' v'] m IH]; intros Hnd H1 H2.
  - by apply elem_of_nil in H1.
  - cbn [map fst] in Hnd. apply NoDup_cons in Hnd as [Hk Hnd].
    apply elem_of_cons in H1 as [H1|H1]; apply elem_of_cons in H2 as [H2|H2].
    + congruence.
    + exfalso. apply Hk. inversion H1; subst. by eapply elem_of_keys.
    + exfalso. apply Hk. inversion H2; subst. by eapply elem_of_keys.
    + by apply IH.
Qed.

(** With distinct keys the sorted order is the only one. *)
Lemma sortEntries_unique m1 m2 :
  NoDup (map fst m1) -> Permutation m1 m2 -> sortEntries m1 = sortEntries m2.
Proof.
  intros Hnd Hperm.
  apply (Sorted_unique_strong keyLe); [|apply sortEntries_sorted..|].
  - intros [k1 v1] [k2 v2] H1 H2 Hle Hge. unfold keyLe in *. simpl in *.
    assert (k1 = k2) as <- by (by apply (anti_symm String.le)).
    f_equal. rewrite sortEntries_perm in H1. rewrite sortEntries_perm, <- Hperm in H2.
    by eapply (NoDup_keys_functional m1).
  - by rewrite !sortEntries_perm.
Qed.
End SortEntries.

Lemma sameValues_refl l : sameValues l l.
Proof. induction l; constructor; [apply same_refl|done]. Qed.

Lemma sameFields_refl f : sameFields f f.
Proof. induction f as [|[k v] f IH]; constructor; [apply same_refl|done]. Qed.

Lemma sameValues_length l1 l2 : sameValues l1 l2 -> length l1 = length l2.
Proof. induction 1; simpl; congruence. Qed.

Lemma sortEntries_map_unique {A B} (f : string * A -> string * B) m1 m2 :
  (forall e, fst (f e) = fst e) ->
  NoDup (map fst m1) -> Permutation m1 m2 ->
  sortEntries (map f m1) = sortEntries (map f m2).
Proof.
  intros Hf Hnd Hperm. apply sortEntries_unique.
  - rewrite map_map. by rewrite (map_ext _ fst Hf).
  - by apply Permutation_map.
Qed.

Lemma sameValue_print_mut :
  (forall v1 v2, sameValue v1 v2 -> printValue v1 = printValue v2)
  /\ (forall l1 l2, sameValues l1 l2 -> map printValue l1 = map printValue l2)
  /\ (forall f1 f2, sameFields f1 f2 ->
        map (fun kv => printValue (snd kv)) f1 = map (fun kv => printValue (snd kv)) f2).
Proof.
  assert (H := sameValue_mut
    (fun v1 v2 => printValue v1 = printValue v2)
    (fun l1 l2 => map printValue l1 = map printValue l2)
    (fun f1 f2 => map (fun kv => printValue (snd kv)) f1
                  = map (fun kv => printValue (snd kv)) f2)).
  assert (H' := sameValues_mut
    (fun v1 v2 => printValue v1 = printValue v2)
    (fun l1 l2 => map printValue l1 = map printValue l2)
    (fun f1 f2 => map (fun kv => printValue (snd kv)) f1
                  = map (fun kv => printValue (snd kv)) f2)).
  assert (H'' := sameFields_mut
    (fun v1 v2 => printValue v1 = printValue v2)
    (fun l1 l2 => map printValue l1 = map printValue l2)
    (fun f1 f2 => map (fun kv => printValue (snd kv)) f1
                  = map (fun kv => printValue (snd kv)) f2)).
  assert (forall m1 m2, NoDup (map fst m1) -> Permutation m1 m2 ->
            printValue (VMap m1) = printValue (VMap m2)) as Hmap.
  { intros m1 m2 Hnd Hperm. cbn [printValue].
    by rewrite (sortEntries_map_unique _ m1 m2). }
  assert (forall l1 l2, sameValues l1 l2 -> map printValue l1 = map printValue l2 ->
            printValue (VSlice l1) = printValue (VSlice l2)) as Hslice.
  { intros l1 l2 _ Heq. cbn [printValue]. by rewrite Heq. }
  assert (forall f1 f2, sameFields f1 f2 ->
            map (fun kv => printValue (snd kv)) f1 = map (fun kv => printValue (snd kv)) f2 ->
            printValue (VStruct f1) = printValue (VStruct f2)) as Hstruct.
  { intros f1 f2 _ Heq. cbn [printValue]. by rewrite Heq. }
  split; [|split].
  - apply H; try done.
    + intros. simpl. congruence.
    + intros. simpl. congruence.
  - apply H'; try done.
    + intros. simpl. congruence.
    + intros. simpl. congruence.
  - apply H''; try done.
    + intros. simpl. congruence.
    + intros. simpl. congruence.
Qed.

Lemma sameValue_print v1 v2 : sameValue v1 v2 -> printValue v1 = printValue v2.
Proof. apply sameValue_print_mut. Qed.

Lemma sameFields_length f1 f2 : sameFields f1 f2 -> length f1 = length f2.
Proof. induction 1; simpl; congruence. Qed.

Lemma sameValue_isTrue v1 v2 : sameValue v1 v2 -> isTrue v1 = isTrue v2.
Proof.
  destruct 1 as [v|m1 m2 _ Hperm|l1 l2 Hl|f1 f2 Hf]; simpl; try done.
  - by rewrite (Permutation_length Hperm).
  - by rewrite (sameValues_length _ _ Hl).
Qed.

Lemma lookupField_elem_of name fields v :
  lookupField name fields = Some v -> (name, v) ∈ fields.
Proof.
  induction fields as [|[k v'] fields IH]; [done|]. cbn [lookupField].
  destruct (String.eqb k name) eqn:E.
  - apply String.eqb_eq in E as ->. intros [= ->]. by left.
  - intros H. right. by apply IH.
Qed.

Lemma lookupField_NoDup name fields v :
  NoDup (map fst fields) -> (name, v) ∈ fields -> lookupField name fields = Some v.
Proof.
  intros Hnd Hin. destruct (lookupField name fields) as [v'|] eqn:E.
  - f_equal. apply lookupField_elem_of in E.
    by eapply (NoDup_keys_functional fields).
  - exfalso. induction fields as [|[k v'] fields IH]; [by apply elem_of_nil in Hin|].
    cbn [lookupField] in E. destruct (String.eqb k name) eqn:Ek; [done|].
    apply String.eqb_neq in Ek.
    apply elem_of_cons in Hin as [[= <- <-]|Hin]; [done|].
    cbn [map fst] in Hnd. apply NoDup_cons in Hnd as [_ Hnd]. by apply IH.
Qed.

Lemma lookupField_perm name m1 m2 :
  NoDup (map fst m1) -> Permutation m1 m2 -> lookupField name m1 = lookupField name m2.
Proof.
  intros Hnd Hperm.
  assert (NoDup (map fst m2)) as Hnd2 by (by rewrite <- Hperm).
  destruct (lookupField name m1) as [v|] eqn:E1.
  - symmetry. apply lookupField_NoDup; [done|]. rewrite <- Hperm.
    by apply lookupField_elem_of.
  - destruct (lookupField name m2) as [v|] eqn:E2; [|done].
    apply lookupField_elem_of in E2. rewrite <- Hperm in E2.
    apply (lookupField_NoDup _ _ _ Hnd) in E2. congruence.
Qed.

Lemma lookupField_same name f1 f2 :
  sameFields f1 f2 ->
  option_Forall2 sameValue (lookupField name f1) (lookupField name f2).
Proof.
  induction 1 as [|k v1 v2 f1 f2 Hv Hf IH]; [constructor|].
  cbn [lookupField]. destruct (String.eqb k name); [by constructor|done].
Qed.

Lemma option_Forall2_same_refl (o : option value) : option_Forall2 sameValue o o.
Proof. destruct o; constructor. apply same_refl. Qed.

Lemma eval_same e d1 d2 vars1 vars2 :
  sameValue d1 d2 -> sameFields vars1 vars2 ->
  option_Forall2 sameValue (eval e d1 vars1) (eval e d2 vars2).
Proof.
  intros Hd Hvars. induction e as [| name | e IH name]; cbn [eval].
  - by constructor.
  - by apply lookupField_same.
  - destruct IH as [v1 v2 Hv|]; [|constructor].
    destruct Hv as [v|m1 m2 Hnd Hperm|l1 l2 Hl|f1 f2 Hf].
    + destruct v; try constructor; try apply option_Forall2_same_refl.
      apply same_refl.
    + rewrite (lookupField_perm name m1 m2) by done. constructor. apply same_refl.
    + constructor.
    + by apply lookupField_same.
Qed.

Lemma imap_items_same (g : nat -> nat) l1 l2 :
  sameValues l1 l2 ->
  Forall2 sameItem (imap (fun i x => (VInt (g i), x)) l1)
                   (imap (fun i x => (VInt (g i), x)) l2).
Proof.
  intros H. revert g. induction H as [|v1 v2 l1 l2 Hv Hl IH]; intros g; [constructor|].
  cbn [imap]. constructor.
  - split; [apply same_refl|done].
  - apply (IH (g ∘ S)).
Qed.

Lemma Forall2_sameItem_refl items : Forall2 sameItem items items.
Proof. induction items; constructor; [split; apply same_refl|done]. Qed.

Lemma rangeItems_same v1 v2 :
  sameValue v1 v2 ->
  option_Forall2 (Forall2 sameItem) (rangeItems v1) (rangeItems v2).
Proof.
  destruct 1 as [v|m1 m2 Hnd Hperm|l1 l2 Hl|f1 f2 Hf]; cbn [rangeItems].
  - destruct (rangeItems v); constructor. apply Forall2_sameItem_refl.
  - rewrite (sortEntries_unique m1 m2) by done. constructor. apply Forall2_sameItem_refl.
  - constructor. apply (imap_items_same id _ _ Hl).
  - constructor.
Qed.

Lemma bindRange_same names k1 k2 e1 e2 vars1 vars2 :
  sameValue k1 k2 -> sameValue e1 e2 -> sameFields vars1 vars2 ->
  sameFields (bindRange names k1 e1 vars1) (bindRange names k2 e2 vars2).
Proof.
  intros Hk He Hv. destruct names as [|x [|y names]]; cbn [bindRange]; [done|..];
    repeat constructor; done.
Qed.

Lemma node_nested_ind (P : node -> Prop) :
  (forall text, P (NText text)) ->
  (forall e, P (NAction e)) ->
  (forall e body orElse, Forall P body -> Forall P orElse -> P (NIf e body orElse)) ->
  (forall e body orElse, Forall P body -> Forall P orElse -> P (NWith e body orElse)) ->
  (forall names e body orElse, Forall P body -> Forall P orElse ->
     P (NRange names e body orElse)) ->
  forall n, P n.
Proof.
  intros Htext Haction Hif Hwith Hrange. fix IH 1.
  intros [text|e|e body orElse|e body orElse|names e body orElse].
  - apply Htext.
  - apply Haction.
  - apply Hif; [induction body|induction orElse]; constructor; auto.
  - apply Hwith; [induction body|induction orElse]; constructor; auto.
  - apply Hrange; [induction body|induction orElse]; constructor; auto.
Qed.

Lemma sequence_ext {A} (f g : A -> option string) l :
  Forall (fun x => f x = g x) l -> sequence f l = sequence g l.
Proof.
  induction 1 as [|x l Hx Hl IH]; [done|]. cbn [sequence]. by rewrite Hx, IH.
Qed.

Lemma sequence_Forall2 {A} (R : A -> A -> Prop) (f g : A -> option string) l1 l2 :
  (forall x y, R x y -> f x = g y) -> Forall2 R l1 l2 -> sequence f l1 = sequence g l2.
Proof.
  intros Hfg. induction 1 as [|x y l1 l2 Hxy Hl IH]; [done|].
  cbn [sequence]. by rewrite (Hfg x y Hxy), IH.
Qed.

Lemma sequence_same body d1 d2 vars1 vars2 :
  Forall execInvariant body ->
  sameValue d1 d2 -> sameFields vars1 vars2 ->
  sequence (fun n => exec n d1 vars1) body = sequence (fun n => exec n d2 vars2) body.
Proof.
  intros Hbody Hd Hv. apply sequence_ext.
  eapply Forall_impl; [exact Hbody|]. intros n Hn. by apply Hn.
Qed.

Lemma exec_same n : execInvariant n.
Proof.
  induction n as [text|e|e body orElse Hb Ho|e body orElse Hb Ho|names e body orElse Hb Ho]
    using node_nested_ind; intros d1 d2 vars1 vars2 Hd Hv; cbn [exec].
  - done.
  - destruct (eval_same e d1 d2 vars1 vars2 Hd Hv) as [v1 v2 Hv12|]; [|done].
    cbn. by rewrite (sameValue_print v1 v2).
  - destruct (eval_same e d1 d2 vars1 vars2 Hd Hv) as [v1 v2 Hv12|]; [|done].
    rewrite (sameValue_isTrue v1 v2) by done.
    destruct (isTrue v2); by apply sequence_same.
  - destruct (eval_same e d1 d2 vars1 vars2 Hd Hv) as [v1 v2 Hv12|]; [|done].
    rewrite (sameValue_isTrue v1 v2) by done.
    destruct (isTrue v2); by apply sequence_same.
  - destruct (eval_same e d1 d2 vars1 vars2 Hd Hv) as [v1 v2 Hv12|]; [|done].
    destruct (rangeItems_same v1 v2 Hv12) as [items1 items2 Hitems|]; [|done].
    destruct Hitems as [|i1 i2 items1 items2 Hi Hitems].
    + by apply sequence_same.
    + apply (sequence_Forall2 sameItem); [|by constructor].
      intros [k1 e1] [k2 e2] [Hk He]. simpl in *.
      apply sequence_same; [done..|]. by apply bindRange_same.
Qed.

Lemma execList_invariant ns d1 d2 vars1 vars2 :
  sameValue d1 d2 -> sameFields vars1 vars2 ->
  execList ns d1 vars1 = execList ns d2 vars2.
Proof.
  intros Hd Hv. apply sequence_same; [|done..].
  apply Forall_forall. intros n _. apply exec_same.
Qed.

(** *** Configurations *)
Lemma reflectSproutFile_same c1 c2 :
  equalConfig c1 c2 -> sameValue (reflectSproutFile c1) (reflectSproutFile c2).
Proof.
  intros (Hkeys & Hen & (Hnd1 & Hnd2 & Hperm) & Hout & Hdc & Hauto & Hbin).
  unfold reflectSproutFile. rewrite Hkeys, Hen, Hout, Hdc, Hauto, Hbin.
  apply same_struct.
  constructor; [apply same_refl|].
  constructor.
  { apply same_struct. constructor; [apply same_refl|].
    constructor; [|constructor].
    apply same_map.
    - rewrite map_map. cbn [fst]. exact Hnd1.
    - by apply Permutation_map. }
  apply sameFields_refl.
Qed.

(** Claim C7.  Rendering is deterministic: configurations that are equal
    as Go values (maps compared by their entries, whatever order the
    runtime holds them in) render to the same result, byte for byte, for
    every template. *)
Theorem GenerateImage_deterministic
    (imageNixTemplate : string) (parse : string -> option (list node))
    (c1 c2 : SproutFile) :
  equalConfig c1 c2 ->
  GenerateImage imageNixTemplate parse c1 = GenerateImage imageNixTemplate parse c2.
Proof.
  intros Heq. unfold GenerateImage.
  destruct (parse imageNixTemplate) as [tmpl|]; [|done].
  pose proof (reflectSproutFile_same c1 c2 Heq) as Hsame.
  rewrite (execList_invariant tmpl _ _ _ [("$", reflectSproutFile c2)] Hsame); [done|].
  apply sameFields_cons; [exact Hsame|constructor].
Qed.

Lemma GenerateImage_deterministic_witness :
  GenerateImage "image.nix.tmpl" (fun _ => Some sampleTemplate)
    (homeConfig [("work", {| PSK := "w" |}); ("home", {| PSK := "h" |})])
  = GenerateImage "image.nix.tmpl" (fun _ => Some sampleTemplate)
      (homeConfig [("home", {| PSK := "h" |}); ("work", {| PSK := "w" |})])
  /\ GenerateImage "image.nix.tmpl" (fun _ => Some sampleTemplate)
       (homeConfig [("work", {| PSK := "w" |}); ("home", {| PSK := "h" |})])
     = Ok "home=h;work=w;mdns ssh-ed25519 AAAA".
Proof.
  split; [|reflexivity].
  apply GenerateImage_deterministic.
  repeat split; simpl.
  - apply NoDup_ListNoDup. repeat constructor; simpl; intuition discriminate.
  - apply NoDup_ListNoDup. repeat constructor; simpl; intuition discriminate.
  - apply perm_swap.
Defined.

(* ===================================================================== *)
(** * Part XI.  Further properties                                       *)
(* ===================================================================== *)

Lemma displayOk_cases d :
  displayOk d ->
  exists a b c e i, displayLines d = [a; b; c; e] /\ displayIndex d = i /\ i < 4.
Proof.
  intros [Hlen Hi]. destruct d as [lines i init]. simpl in *.
  destruct lines as [|a [|b [|c [|e [|f lines]]]]]; try discriminate.
  by exists a, b, c, e, i.
Qed.

Lemma displayStreamingLine_show line color d :
  displayOk d -> line <> "" ->
  exists d',
    displayStreamingLine line color d
    = Some (d', (if displayInitialized d then []
                 else [blankRow color; blankRow color; blankRow color; blankRow color;
                       cursorUp4])
                ++ map (fun l => row color (shownText l)) (window d') ++ [cursorUp4])
    /\ displayOk d' /\ displayInitialized d' = true
    /\ window d' = drop 1 (window d) ++ [line].
Proof.
  intros Hok Hne. destruct (displayOk_cases d Hok) as (a & b & c & e & i & Hl & Hi & Hlt).
  unfold displayStreamingLine. apply String.eqb_neq in Hne. rewrite Hne.
  destruct d as [lines i' init]. simpl in Hl, Hi. subst lines i'. cbn [displayLines displayIndex].
  exists {| displayLines := <[i := line]> [a; b; c; e];
            displayIndex := (i + 1) mod 4; displayInitialized := true |}.
  destruct i as [|[|[|[|i]]]]; [| | |  |lia];
    (split; [reflexivity|]; split; [split; simpl; lia|]; split; reflexivity).
Qed.

Lemma displayStreamingLine_empty color d : displayStreamingLine "" color d = Some (d, []).
Proof. reflexivity. Qed.

Lemma finishStreamingDisplay_reachable d :
  displayOk d -> fst (finishStreamingDisplay d) = initialDisplay \/
                 (displayInitialized d = false /\ fst (finishStreamingDisplay d) = d).
Proof.
  intros Hok. destruct (displayOk_cases d Hok) as (a & b & c & e & i & Hl & Hi & Hlt).
  unfold finishStreamingDisplay. destruct (displayInitialized d) eqn:E.
  - left. simpl. by rewrite Hl.
  - right. done.
Qed.

Lemma displayCalls_reachable calls d :
  displayReachable d ->
  exists d' out, displayCalls calls d = Some (d', out) /\ displayReachable d'.
Proof.
  revert d. induction calls as [|call calls IH]; intros d [Hok Hinit].
  - by exists d, [].
  - cbn [displayCalls]. destruct call as [line color|].
    + destruct (String.eqb line "") eqn:E.
      * apply String.eqb_eq in E as ->. rewrite displayStreamingLine_empty.
        destruct (IH d (conj Hok Hinit)) as (d' & out & -> & Hr). by exists d', ([] ++ out).
      * apply String.eqb_neq in E.
        destruct (displayStreamingLine_show line color d Hok E) as (d1 & -> & Hok1 & Hi1 & _).
        destruct (IH d1) as (d' & out & -> & Hr); [split; [done|congruence]|].
        by eexists _, _.
    + destruct (finishStreamingDisplay d) as [d1 out1] eqn:Ef.
      assert (displayReachable d1) as Hr1.
      { destruct (finishStreamingDisplay_reachable d Hok) as [H|[Hni H]];
          rewrite Ef in H; simpl in H.
        - rewrite H. split; [split; simpl; lia|done].
        - subst d1. by split. }
      destruct (IH d1 Hr1) as (d' & out & -> & Hr). by eexists _, _.
Qed.

Lemma initialDisplay_reachable : displayReachable initialDisplay.
Proof. split; [split; simpl; lia|done]. Qed.

(** X1.  Whatever calls of [displayStreamingLine] and
    [finishStreamingDisplay] are made, in whatever order (the mutex makes
    each call atomic, so the two goroutines of a build give some such
    sequence), none of them indexes [displayLines] out of range: every
    call returns, the slice keeps its four entries and [displayIndex]
    stays below four. *)
Theorem displayCalls_never_out_of_range (calls : list displayCall) :
  exists d out,
    displayCalls calls initialDisplay = Some (d, out)
    /\ length (displayLines d) = 4 /\ displayIndex d < 4.
Proof.
  destruct (displayCalls_reachable calls initialDisplay initialDisplay_reachable)
    as (d & out & Heq & [[Hlen Hi] _]).
  by exists d, out.
Qed.

Lemma displayCalls_app calls1 calls2 d :
  displayCalls (calls1 ++ calls2) d
  = match displayCalls calls1 d with
    | None => None
    | Some (d', out) =>
        match displayCalls calls2 d' with
        | None => None
        | Some (d'', out') => Some (d'', out ++ out')
        end
    end.
Proof.
  revert d. induction calls1 as [|call calls1 IH]; intros d.
  - cbn [app displayCalls]. by destruct (displayCalls calls2 d) as [[d' out]|].
  - cbn [app displayCalls].
    destruct (match call with
              | ShowLine line color => displayStreamingLine line color d
              | FinishDisplay => Some (finishStreamingDisplay d)
              end) as [[d1 out1]|]; [|done].
    rewrite IH. destruct (displayCalls calls1 d1) as [[d2 out2]|]; [|done].
    destruct (displayCalls calls2 d2) as [[d3 out3]|]; [|done].
    by rewrite app_assoc.
Qed.

Lemma displayCalls_finish calls d :
  displayReachable d ->
  exists out, displayCalls (calls ++ [FinishDisplay]) d = Some (initialDisplay, out).
Proof.
  intros Hd. rewrite displayCalls_app.
  destruct (displayCalls_reachable calls d Hd) as (d0 & out & -> & [Hok Hinit]).
  cbn [displayCalls].
  destruct (finishStreamingDisplay d0) as [d1 out1] eqn:Ef.
  destruct (finishStreamingDisplay_reachable d0 Hok) as [H|[Hni H]];
    rewrite Ef in H; simpl in H.
  - subst d1. by eexists.
  - subst d1. rewrite (Hinit Hni). by eexists.
Qed.

(** X4.  After any sequence of calls, [finishStreamingDisplay] leaves the
    package variables as they were at program start: four empty lines,
    index 0, not initialised.  The next build starts with a fresh
    display. *)
Theorem finishStreamingDisplay_resets (calls : list displayCall) :
  exists out,
    displayCalls (calls ++ [FinishDisplay]) initialDisplay = Some (initialDisplay, out).
Proof. apply displayCalls_finish, initialDisplay_reachable. Qed.

Lemma window_length d : displayOk d -> length (window d) = 4.
Proof.
  intros Hok. destruct (displayOk_cases d Hok) as (a & b & c & e & i & Hl & Hi & Hlt).
  unfold window. rewrite Hl, Hi.
  destruct i as [|[|[|[|i]]]]; [reflexivity..|lia].
Qed.

Lemma lastN_step {A} (w : list A) x ls :
  length w = 4 -> lastN 4 (w ++ x :: ls) = lastN 4 ((drop 1 w ++ [x]) ++ ls).
Proof.
  intros Hw. destruct w as [|a [|b [|c [|e [|f w]]]]]; try discriminate.
  unfold lastN. rewrite !length_app. cbn [length drop app Nat.add].
  replace (4 + S (length ls) - 4) with (S (length ls)) by lia.
  replace (S (S (S (S (length ls)))) - 4) with (length ls) by lia.
  done.
Qed.

(** X2.  The display is a rolling window: after the non-empty lines [ls]
    have been shown, the four rows, read from the oldest to the newest,
    are the last four of the rows before followed by [ls]. *)
Theorem displayCalls_rolling_window (ls : list string) (color : string) (d : Display) :
  displayOk d -> Forall (fun l => l <> "") ls ->
  exists d' out,
    displayCalls (showLines ls color) d = Some (d', out)
    /\ window d' = lastN 4 (window d ++ ls).
Proof.
  revert d. induction ls as [|l ls IH]; intros d Hok Hall.
  - exists d, []. split; [done|]. rewrite app_nil_r. unfold lastN.
    rewrite window_length by done. done.
  - apply Forall_cons in Hall as [Hl Hall]. cbn [showLines map displayCalls].
    destruct (displayStreamingLine_show l color d Hok Hl) as (d1 & -> & Hok1 & _ & Hw).
    destruct (IH d1 Hok1 Hall) as (d' & out & Heq & Hw').
    unfold showLines in Heq. rewrite Heq. eexists _, _. split; [reflexivity|].
    rewrite Hw', Hw. symmetry. apply lastN_step. by apply window_length.
Qed.

Lemma displayCalls_rolling_window_witness :
  exists d out,
    displayCalls (showLines ["a"; "b"; "c"; "d"; "e"; "f"] "") initialDisplay = Some (d, out)
    /\ window d = ["c"; "d"; "e"; "f"].
Proof.
  destruct (displayCalls_rolling_window ["a"; "b"; "c"; "d"; "e"; "f"] "" initialDisplay)
    as (d & out & Heq & Hw).
  - split; simpl; lia.
  - repeat constructor; discriminate.
  - exists d, out. split; [exact Heq|]. rewrite Hw. reflexivity.
Defined.

Lemma truncateLine_length s : String.length (truncateLine s) <= 76.
Proof.
  unfold truncateLine. destruct (Nat.ltb_spec 76 (String.length s)); [|done].
  rewrite length_app_string, length_substring_0 by lia. simpl. lia.
Qed.

Lemma shownText_length l : String.length (shownText l) <= 76.
Proof.
  unfold shownText. destruct (String.eqb l ""); [simpl; lia|apply truncateLine_length].
Qed.

(** X3.  One call with a non-empty line writes, after the four blank rows
    and the cursor movement of the first call, exactly four rows and the
    cursor movement back up.  The rows are the window after the call,
    oldest first, which is the old window without its oldest row followed
    by the new line; a row of at most 76 bytes is printed as it is, a
    longer one as its first 73 bytes followed by three dots, so no row
    text exceeds 76 bytes. *)
Theorem displayStreamingLine_redraws_window (line color : string) (d : Display) :
  displayOk d -> line <> "" ->
  exists d' opening texts,
    displayStreamingLine line color d
    = Some (d', opening ++ map (row color) texts ++ [cursorUp4])
    /\ opening = (if displayInitialized d then []
                  else [blankRow color; blankRow color; blankRow color; blankRow color;
                        cursorUp4])
    /\ length texts = 4
    /\ Forall2 (fun l text =>
                  String.length text <= 76
                  /\ (String.length l <= 76 -> text = l)
                  /\ (76 < String.length l -> text = String.substring 0 73 l +:+ "..."))
               (window d') texts
    /\ window d' = drop 1 (window d) ++ [line].
Proof.
  intros Hok Hne.
  destruct (displayStreamingLine_show line color d Hok Hne) as (d' & Heq & Hok' & _ & Hw).
  exists d', (if displayInitialized d then []
              else [blankRow color; blankRow color; blankRow color; blankRow color;
                    cursorUp4]), (map shownText (window d')).
  split; [by rewrite Heq, map_map|]. split; [done|]. split.
  { rewrite length_map. by apply window_length. }
  split; [|done].
  apply Forall2_fmap_r, Forall_Forall2_diag, Forall_forall. intros l _.
  split; [apply shownText_length|]. unfold shownText, truncateLine. split.
  - intros Hle. destruct (String.eqb l "") eqn:E; [by apply String.eqb_eq in E|].
    by destruct (Nat.ltb_spec 76 (String.length l)); [lia|].
  - intros Hgt. destruct (String.eqb l "") eqn:E.
    { apply String.eqb_eq in E. subst l. simpl in Hgt. lia. }
    by destruct (Nat.ltb_spec 76 (String.length l)); [|lia].
Qed.

Lemma displayStreamingLine_redraws_window_witness :
  exists d' out,
    displayStreamingLine "building" "" initialDisplay = Some (d', out)
    /\ window d' = [""; ""; ""; "building"]
    /\ length out = 10.
Proof.
  destruct (displayStreamingLine_redraws_window "building" "" initialDisplay)
    as (d' & opening & texts & Heq & -> & Hlen & _ & Hw).
  - split; simpl; lia.
  - discriminate.
  - eexists d', _. split; [exact Heq|]. split; [exact Hw|].
    rewrite !length_app, length_map, Hlen. reflexivity.
Defined.

Lemma pullImage_run w h name :
  exists acquire,
    pullImage name w h = (Ok tt, h ++ ImagePull name "linux/arm64" :: acquire)
    /\ Forall (fun o => isAcquireOp o = true /\ forall d s, o <> ComposeBuild d s) acquire
    /\ (ImagePull name "" ∈ acquire <-> w h (ImagePull name "linux/arm64") = false).
Proof.
  unfold pullImage, pullDefaultImage, bind, perform, ret.
  destruct (w h (ImagePull name "linux/arm64")) eqn:E.
  - eexists. rewrite <- app_assoc. split; [reflexivity|]. split.
    + repeat constructor; done.
    + split; [|done]. intros [?|?%elem_of_nil]%elem_of_cons; done.
  - match goal with |- context [if ?b then _ else _] => destruct b end;
      rewrite <- ?app_assoc; (eexists; split; [reflexivity|]; split;
        [repeat constructor; done|split; [done|intros _; right; left]]).
Qed.

Lemma stoppedAt_last w h o e :
  refused w h o -> errorOf o = Some e -> stoppedAt w h (h ++ [o]) e.
Proof. intros Hr He. exists [], o. by rewrite app_nil_r. Qed.

Lemma stoppedAt_extend w h pre ops e :
  stoppedAt w (h ++ pre) ops e -> stoppedAt w h ops e.
Proof.
  intros (done & o & -> & Hr & He). exists (pre ++ done), o.
  rewrite <- !app_assoc in *. done.
Qed.

Lemma buildOrPullImage_run w h img dir :
  let r := buildOrPullImage img dir w h in
  exists acquire,
    snd r = h ++ acquire
    /\ Forall (fun o => isAcquireOp o = true) acquire
    /\ match fst r with
       | Ok _ => True
       | Err e => stoppedAt w h (snd r) e
       end.
Proof.
  cbv zeta. unfold buildOrPullImage.
  destruct (strings.HasSuffix (Name img) ":latest" && negb (strings.Contains (Name img) "/")).
  - unfold buildLocalImage, bind, perform, ret.
    exists [ComposeBuild dir (strings.TrimSuffix (Name img) ":latest")].
    split; [done|]. split; [by repeat constructor|].
    destruct (w h (ComposeBuild dir (strings.TrimSuffix (Name img) ":latest"))) eqn:E;
      cbn [fst snd]; [done|].
    by apply stoppedAt_last.
  - destruct (pullImage_run w h (Name img)) as (acquire & -> & Hall & _).
    eexists. split; [reflexivity|]. split; [|done].
    constructor; [done|]. eapply Forall_impl; [exact Hall|]. by intros o [? _].
Qed.

Lemma tagAndSaveImage_run w h img :
  let r := tagAndSaveImage img w h in
  match fst r with
  | Ok _ => snd r = h ++ [ImageTag (Name img) (LocalTag img); ImageSave (LocalTag img);
                         CreateFile (TarPath img); CopyToFile (TarPath img)]
  | Err e => stoppedAt w h (snd r) e
  end.
Proof.
  cbv zeta. unfold tagAndSaveImage, saveImageToFile, bind, perform, ret.
  destruct (w h (ImageTag (Name img) (LocalTag img))) eqn:E1; cbn [fst snd].
  2:{ by apply stoppedAt_last. }
  destruct (w (h ++ [ImageTag (Name img) (LocalTag img)]) (ImageSave (LocalTag img))) eqn:E2;
    cbn [fst snd].
  2:{ exists [ImageTag (Name img) (LocalTag img)], (ImageSave (LocalTag img)).
      rewrite <- app_assoc. done. }
  destruct (w ((h ++ [ImageTag (Name img) (LocalTag img)]) ++ [ImageSave (LocalTag img)])
              (CreateFile (TarPath img))) eqn:E3; cbn [fst snd].
  2:{ exists [ImageTag (Name img) (LocalTag img); ImageSave (LocalTag img)],
        (CreateFile (TarPath img)).
      rewrite <- !app_assoc in *. cbn [app] in *. done. }
  destruct (w (((h ++ [ImageTag (Name img) (LocalTag img)]) ++ [ImageSave (LocalTag img)])
               ++ [CreateFile (TarPath img)]) (CopyToFile (TarPath img))) eqn:E4; cbn [fst snd].
  - by rewrite <- !app_assoc.
  - exists [ImageTag (Name img) (LocalTag img); ImageSave (LocalTag img);
            CreateFile (TarPath img)], (CopyToFile (TarPath img)).
    rewrite <- !app_assoc in *. cbn [app] in *. done.
Qed.

Lemma embedLoop_cons img rest dir w h :
  embedLoop (img :: rest) dir w h =
  let r := buildOrPullImage img dir w (h ++ [Printf ("Processing: " +:+ Name img)]) in
  match fst r with
  | Err e => (Err e, snd r)
  | Ok _ =>
      let r' := tagAndSaveImage img w (snd r) in
      match fst r' with
      | Err e => (Err e, snd r')
      | Ok _ => embedLoop rest dir w (snd r' ++ [Printf ("Saved: " +:+ LocalTag img)])
      end
  end.
Proof.
  cbn [embedLoop]. unfold bind at 1 2. unfold perform at 1. cbv zeta.
  destruct (buildOrPullImage img dir w (h ++ [Printf ("Processing: " +:+ Name img)]))
    as [[u|e] h1]; cbn [fst snd]; [|reflexivity].
  unfold bind at 1.
  destruct (tagAndSaveImage img w h1) as [[u'|e] h2]; cbn [fst snd]; reflexivity.
Qed.

Lemma embedLoop_run images dir w : forall h,
  match valueOf (embedLoop images dir) w h with
  | Ok _ => exists ops, opsOf (embedLoop images dir) w h = h ++ ops
                        /\ exportedInOrder images ops
  | Err e => stoppedAt w h (opsOf (embedLoop images dir) w h) e
  end.
Proof.
  unfold valueOf, opsOf.
  induction images as [|img rest IH]; intros h.
  - cbn. exists []. rewrite app_nil_r. split; [done|]. exists []. split; [done|constructor].
  - rewrite embedLoop_cons. cbv zeta.
    pose proof (buildOrPullImage_run w (h ++ [Printf ("Processing: " +:+ Name img)]) img dir) as Hb.
    cbv zeta in Hb. destruct Hb as (acquire & Hops & Hacq & Hres).
    destruct (buildOrPullImage img dir w (h ++ [Printf ("Processing: " +:+ Name img)]))
      as [[u|e] h1]; cbn [fst snd] in *.
    2:{ eapply stoppedAt_extend. exact Hres. }
    pose proof (tagAndSaveImage_run w h1 img) as Ht. cbv zeta in Ht.
    destruct (tagAndSaveImage img w h1) as [[u'|e] h2]; cbn [fst snd] in *.
    2:{ subst h1. apply (stoppedAt_extend _ _ ([Printf ("Processing: " +:+ Name img)] ++ acquire)).
        by rewrite app_assoc. }
    specialize (IH (h2 ++ [Printf ("Saved: " +:+ LocalTag img)])).
    destruct (embedLoop rest dir w (h2 ++ [Printf ("Saved: " +:+ LocalTag img)]))
      as [[u''|e] h3]; cbn [fst snd] in *.
    + destruct IH as (ops & -> & segments & -> & Hall).
      subst h2 h1.
      exists ((Printf ("Processing: " +:+ Name img) :: acquire ++ exportOps img) ++ concat segments).
      split.
      { unfold exportOps. rewrite <- !app_assoc. cbn [app].
        rewrite <- ?app_assoc. reflexivity. }
      exists ((Printf ("Processing: " +:+ Name img) :: acquire ++ exportOps img) :: segments).
      split; [reflexivity|]. constructor; [|done]. by exists acquire.
    + subst h2 h1.
      apply (stoppedAt_extend _ _
               ([Printf ("Processing: " +:+ Name img)] ++ acquire
                ++ [ImageTag (Name img) (LocalTag img); ImageSave (LocalTag img);
                    CreateFile (TarPath img); CopyToFile (TarPath img)]
                ++ [Printf ("Saved: " +:+ LocalTag img)])).
      rewrite <- !app_assoc in IH. exact IH.
Qed.

Lemma buildAndSaveDockerImages_run dockerConfig dir w h :
  match valueOf (buildAndSaveDockerImages dockerConfig dir) w h with
  | Ok _ => exists ops,
      opsOf (buildAndSaveDockerImages dockerConfig dir) w h
      = h ++ Printf "Building and saving Docker images..." :: NewClient :: ops
      /\ exportedInOrder (Images dockerConfig) ops
  | Err e => stoppedAt w h (opsOf (buildAndSaveDockerImages dockerConfig dir) w h) e
  end.
Proof.
  unfold valueOf, opsOf, buildAndSaveDockerImages, bind, perform, ret.
  destruct (w (h ++ [Printf "Building and saving Docker images..."]) NewClient) eqn:E.
  - pose proof (embedLoop_run (Images dockerConfig) dir w
                  ((h ++ [Printf "Building and saving Docker images..."]) ++ [NewClient])) as H.
    unfold valueOf, opsOf in H.
    destruct (embedLoop (Images dockerConfig) dir w
                ((h ++ [Printf "Building and saving Docker images..."]) ++ [NewClient]))
      as [[u|e] h1]; cbn [fst snd] in *.
    + destruct H as (ops & -> & Hexp). exists ops. split; [|done].
      by rewrite <- !app_assoc.
    + apply (stoppedAt_extend _ _ ([Printf "Building and saving Docker images..."] ++ [NewClient])).
      by rewrite app_assoc.
  - cbn [fst snd]. exists [Printf "Building and saving Docker images..."], NewClient.
    rewrite <- app_assoc. done.
Qed.

(** X10.  [pullImage] never returns an error, whatever the daemon
    answers.  It first pulls for [linux/arm64]; the pull for the default
    platform is made exactly when that first pull is refused; beside pulls
    it only prints, and it never builds. *)
Theorem pullImage_never_fails w h name :
  valueOf (pullImage name) w h = Ok tt
  /\ exists rest,
       opsOf (pullImage name) w h = h ++ ImagePull name "linux/arm64" :: rest
       /\ Forall (fun o => isAcquireOp o = true /\ forall d s, o <> ComposeBuild d s) rest
       /\ (ImagePull name "" ∈ rest <-> w h (ImagePull name "linux/arm64") = false).
Proof.
  unfold valueOf, opsOf.
  destruct (pullImage_run w h name) as (acquire & -> & H). split; [done|]. by exists acquire.
Qed.

(** X11.  When [buildAndSaveDockerImages] returns no error, the trace
    after the opening message and the creation of the client consists of
    one segment per image, in the order of [dockerConfig.Images]: the
    "Processing" message, build or pull operations, then the tagging of
    the image with its local tag, the saving of that tag, the creation of
    the tar file, the copy into it and the "Saved" message. *)
Theorem buildAndSaveDockerImages_exports_all dockerConfig dir w h :
  valueOf (buildAndSaveDockerImages dockerConfig dir) w h = Ok tt ->
  exists ops,
    opsOf (buildAndSaveDockerImages dockerConfig dir) w h
    = h ++ Printf "Building and saving Docker images..." :: NewClient :: ops
    /\ exportedInOrder (Images dockerConfig) ops.
Proof.
  intros H. pose proof (buildAndSaveDockerImages_run dockerConfig dir w h) as R.
  rewrite H in R. exact R.
Qed.

Lemma buildAndSaveDockerImages_exports_all_witness :
  exists ops,
    opsOf (buildAndSaveDockerImages twoImageConfig "/proj") offlineDocker []
    = [] ++ Printf "Building and saving Docker images..." :: NewClient :: ops
    /\ exportedInOrder (Images twoImageConfig) ops.
Proof.
  apply (buildAndSaveDockerImages_exports_all twoImageConfig "/proj" offlineDocker []).
  vm_compute. reflexivity.
Defined.

(** X12.  When [buildAndSaveDockerImages] returns an error, the operation
    performed last is one the environment refused, the error is the one
    that belongs to that operation, and nothing is performed after it:
    the first fatal refusal ends the run. *)
Theorem buildAndSaveDockerImages_stops_at_failure dockerConfig dir w h e :
  valueOf (buildAndSaveDockerImages dockerConfig dir) w h = Err e ->
  exists done o,
    opsOf (buildAndSaveDockerImages dockerConfig dir) w h = h ++ done ++ [o]
    /\ refused w (h ++ done) o
    /\ errorOf o = Some e.
Proof.
  intros H. pose proof (buildAndSaveDockerImages_run dockerConfig dir w h) as R.
  rewrite H in R. exact R.
Qed.

Lemma buildAndSaveDockerImages_stops_at_failure_witness :
  exists done o,
    opsOf (buildAndSaveDockerImages twoImageConfig "/proj") untaggingDocker [] = [] ++ done ++ [o]
    /\ refused untaggingDocker ([] ++ done) o
    /\ errorOf o = Some (ImageTagError "redis:7" "embedded/redis_7").
Proof.
  apply (buildAndSaveDockerImages_stops_at_failure twoImageConfig "/proj" untaggingDocker []).
  vm_compute. reflexivity.
Defined.

(** X13.  Only the creation of the client, a compose build, tagging,
    saving, creating the tar file and copying into it can fail a run: when
    the environment refuses nothing but other operations (pulls), the
    result is success, for every image list. *)
Theorem buildAndSaveDockerImages_tolerates_pull_failures dockerConfig dir w h :
  (forall history o, refused w history o -> errorOf o = None) ->
  valueOf (buildAndSaveDockerImages dockerConfig dir) w h = Ok tt.
Proof.
  intros Hw. pose proof (buildAndSaveDockerImages_run dockerConfig dir w h) as R.
  destruct (valueOf (buildAndSaveDockerImages dockerConfig dir) w h) as [[]|e]; [done|].
  destruct R as (done & o & _ & Hr & He). rewrite (Hw _ _ Hr) in He. done.
Qed.

Lemma buildAndSaveDockerImages_tolerates_pull_failures_witness :
  valueOf (buildAndSaveDockerImages twoImageConfig "/proj") offlineDocker [] = Ok tt.
Proof.
  apply (buildAndSaveDockerImages_tolerates_pull_failures twoImageConfig "/proj" offlineDocker []).
  intros history o. destruct o; cbn; intros H; try reflexivity; discriminate H.
Defined.

Lemma processDockerComposeImages_run yamlMarshal dockerConfig composePath
    (w : World DockerOp DockerResp) h :
  let m := processDockerComposeImages yamlMarshal dockerConfig composePath in
  match w h (LoadProject composePath) : option types.Project with
  | None => m w h = (Err (ParseError ParseComposeFailed), h ++ [LoadProject composePath])
  | Some project =>
      match resolveImages yamlMarshal dockerConfig project with
      | Err e => m w h = (Err (ParseError e), h ++ [LoadProject composePath])
      | Ok (dockerConfig', _) =>
          let r := buildAndSaveDockerImages dockerConfig' (filepath.Dir composePath) w
                     (h ++ [LoadProject composePath]) in
          m w h = (match fst r with Ok _ => Ok dockerConfig' | Err e => Err e end, snd r)
      end
  end.
Proof.
  cbv zeta.
  assert (forall v, w h (LoadProject composePath) = v ->
            processDockerComposeImages yamlMarshal dockerConfig composePath w h
            = match v with
              | None => ret (Err (ParseError ParseComposeFailed))
              | Some project =>
                  match resolveImages yamlMarshal dockerConfig project with
                  | Err e => ret (Err (ParseError e))
                  | Ok (dockerConfig', _) =>
                      bind (buildAndSaveDockerImages dockerConfig' (filepath.Dir composePath))
                           (fun r => ret (match r with
                                          | Ok _ => Ok dockerConfig'
                                          | Err e => Err e
                                          end))
                  end
              end w (h ++ [LoadProject composePath])) as Hstep.
  { intros v <-. reflexivity. }
  destruct (w h (LoadProject composePath)) as [project|];
    rewrite (Hstep _ eq_refl); [|reflexivity].
  destruct (resolveImages yamlMarshal dockerConfig project) as [[dockerConfig' p]|e];
    [|reflexivity].
  unfold bind, ret.
  destruct (buildAndSaveDockerImages dockerConfig' (filepath.Dir composePath) w
              (h ++ [LoadProject composePath])) as [[[]|e] h1]; reflexivity.
Qed.

(** X15.  When [processDockerComposeImages] fails to parse the compose
    file or to marshal the rewritten project, nothing but the loading of
    the project has been performed: no client is created, nothing is
    built, pulled, tagged or saved. *)
Theorem processDockerComposeImages_parse_error_before_daemon
    yamlMarshal dockerConfig composePath (w : World DockerOp DockerResp) h e :
  valueOf (processDockerComposeImages yamlMarshal dockerConfig composePath) w h
  = Err (ParseError e) ->
  opsOf (processDockerComposeImages yamlMarshal dockerConfig composePath) w h
  = h ++ [LoadProject composePath].
Proof.
  unfold valueOf, opsOf. intros H.
  pose proof (processDockerComposeImages_run yamlMarshal dockerConfig composePath w h) as R.
  cbv zeta in R.
  destruct (w h (LoadProject composePath)) as [project|]; [|by rewrite R].
  destruct (resolveImages yamlMarshal dockerConfig project) as [[dockerConfig' p]|e'];
    [|by rewrite R].
  rewrite R in H |- *. cbn [fst snd] in *.
  pose proof (buildAndSaveDockerImages_run dockerConfig' (filepath.Dir composePath) w
                (h ++ [LoadProject composePath])) as B.
  unfold valueOf, opsOf in B.
  destruct (buildAndSaveDockerImages dockerConfig' (filepath.Dir composePath) w
              (h ++ [LoadProject composePath])) as [[[]|e''] h1]; cbn [fst snd] in *;
    [discriminate H|].
  injection H as ->. destruct B as (done & o & _ & _ & He). destruct o; discriminate He.
Qed.

Lemma processDockerComposeImages_parse_error_before_daemon_witness :
  opsOf (processDockerComposeImages (fun _ => None) emptyDockerConfig "/srv/app/docker-compose.yaml")
        (obligingDocker redisProject) []
  = [] ++ [LoadProject "/srv/app/docker-compose.yaml"].
Proof.
  apply (processDockerComposeImages_parse_error_before_daemon
           (fun _ => None) emptyDockerConfig "/srv/app/docker-compose.yaml"
           (obligingDocker redisProject) [] MarshalFailed).
  reflexivity.
Defined.

(** X16.  When [processDockerComposeImages] succeeds, the configuration it
    leaves holds the images extracted from the loaded project, its
    modified content is the marshalled project rewritten with these
    images, [Enabled], [Path] and [Content] are unchanged, and after the
    loading of the project every image has been exported in order. *)
Theorem processDockerComposeImages_success
    yamlMarshal dockerConfig composePath (w : World DockerOp DockerResp) h dockerConfig' :
  valueOf (processDockerComposeImages yamlMarshal dockerConfig composePath) w h
  = Ok dockerConfig' ->
  exists project ops,
    w h (LoadProject composePath) = Some project
    /\ Images dockerConfig' = extractImages (types.Services_ project)
    /\ yamlMarshal {| types.Services_ :=
                        rewriteServices (Images dockerConfig') (types.Services_ project) |}
       = Some (ModifiedContent dockerConfig')
    /\ Enabled dockerConfig' = Enabled dockerConfig
    /\ Path dockerConfig' = Path dockerConfig
    /\ Content dockerConfig' = Content dockerConfig
    /\ opsOf (processDockerComposeImages yamlMarshal dockerConfig composePath) w h
       = h ++ LoadProject composePath :: Printf "Building and saving Docker images..."
           :: NewClient :: ops
    /\ exportedInOrder (Images dockerConfig') ops.
Proof.
  unfold valueOf, opsOf. intros H.
  pose proof (processDockerComposeImages_run yamlMarshal dockerConfig composePath w h) as R.
  cbv zeta in R.
  destruct (w h (LoadProject composePath)) as [project|]; [|by rewrite R in H].
  unfold resolveImages, createModifiedComposeContent in R. cbn [Images] in R.
  destruct (yamlMarshal _) as [modifiedContent|] eqn:Hyaml in R; [|by rewrite R in H].
  rewrite R in H |- *. cbn [fst snd] in *.
  match type of H with
  | context [buildAndSaveDockerImages ?c ?d ?w ?h] =>
      pose proof (buildAndSaveDockerImages_run c d w h) as B;
      unfold valueOf, opsOf in B;
      destruct (buildAndSaveDockerImages c d w h) as [[[]|e''] h1]
  end; cbn [fst snd] in *; [|discriminate H].
  injection H as <-. cbn [Images ModifiedContent Enabled Path Content] in *.
  destruct B as (ops & -> & Hexp).
  exists project, ops. rewrite <- app_assoc. cbn [app]. done.
Qed.

Lemma processDockerComposeImages_success_witness :
  exists project ops,
    obligingDocker redisProject [] (LoadProject "/srv/app/docker-compose.yaml") = Some project
    /\ Images redisConfig = extractImages (types.Services_ project)
    /\ Some "yaml" = Some (ModifiedContent redisConfig)
    /\ Enabled redisConfig = Enabled emptyDockerConfig
    /\ Path redisConfig = Path emptyDockerConfig
    /\ Content redisConfig = Content emptyDockerConfig
    /\ opsOf (processDockerComposeImages (fun _ => Some "yaml") emptyDockerConfig
                "/srv/app/docker-compose.yaml") (obligingDocker redisProject) []
       = [] ++ LoadProject "/srv/app/docker-compose.yaml"
            :: Printf "Building and saving Docker images..." :: NewClient :: ops
    /\ exportedInOrder (Images redisConfig) ops.
Proof.
  apply (processDockerComposeImages_success
           (fun _ => Some "yaml") emptyDockerConfig "/srv/app/docker-compose.yaml"
           (obligingDocker redisProject) [] redisConfig).
  reflexivity.
Defined.

(** ** The demultiplexer and the display *)

Lemma showLines_app ls1 ls2 color :
  showLines (ls1 ++ ls2) color = showLines ls1 color ++ showLines ls2 color.
Proof. unfold showLines. by rewrite map_app. Qed.

Lemma shown_writeLines tokens b calls :
  shown.writeLines tokens b calls
  = (writeLines tokens b, calls ++ showLines (acceptedLines tokens) cyan).
Proof.
  revert b calls. induction tokens as [|text tokens IH]; intros b calls.
  - cbn. by rewrite app_nil_r.
  - cbn [shown.writeLines writeLines]. unfold acceptedLines. cbn [map].
    rewrite filter_cons.
    destruct (String.eqb (strings.TrimSpace text) "") eqn:E; cbn [negb].
    + apply String.eqb_eq in E. rewrite decide_False by (by intros ?). apply IH.
    + apply String.eqb_neq in E. rewrite decide_True by done.
      rewrite IH. unfold acceptedLines. cbn [showLines map]. by rewrite <- app_assoc.
Qed.

Lemma shown_logLoop fuel logs b calls :
  exists ls,
    Forall accumulatedLine ls
    /\ shown.logLoop fuel logs b calls = (b +:+ joinLines ls, calls ++ showLines ls cyan)
    /\ logLoop fuel logs b = b +:+ joinLines ls.
Proof.
  revert logs b calls. induction fuel as [|fuel IH]; intros logs b calls;
    cbn [shown.logLoop logLoop].
  - exists []. cbn. by rewrite app_empty_r, app_nil_r.
  - destruct (readFull 8 logs) as [[header rest]|];
      [|exists []; cbn; by rewrite app_empty_r, app_nil_r].
    destruct (payloadSize header <=? 0)%Z; [apply IH|].
    destruct (readFull (payloadSize header) rest) as [[payload rest']|];
      [|exists []; cbn; by rewrite app_empty_r, app_nil_r].
    rewrite shown_writeLines.
    destruct (IH rest' (writeLines (bufio.ScanLines payload) b)
                (calls ++ showLines (acceptedLines (bufio.ScanLines payload)) cyan))
      as (ls & Hls & -> & ->).
    exists (acceptedLines (bufio.ScanLines payload) ++ ls). split; [|split].
    + apply Forall_app. split; [|done].
      apply acceptedLines_accumulated, ScanLines_noNewline.
    + by rewrite writeLines_joinLines, joinLines_app, app_assoc_string, showLines_app,
        <- app_assoc.
    + by rewrite writeLines_joinLines, joinLines_app, app_assoc_string.
Qed.

(** X5.  [processDockerLogs] shows exactly what it accumulates: the lines
    passed to [displayStreamingLine] are, in the same order, the lines
    written to the builder, each non-empty, trimmed and free of line
    feeds, and all in cyan; the deferred [finishStreamingDisplay] is the
    last call, and the whole sequence of calls runs without a panic and
    returns the display to its initial state. *)
Theorem processDockerLogs_shows_accumulated_lines (logs buildOutput : string) :
  exists ls out,
    Forall accumulatedLine ls
    /\ shown.processDockerLogs logs buildOutput
       = (buildOutput +:+ joinLines ls, showLines ls cyan ++ [FinishDisplay])
    /\ processDockerLogs logs buildOutput = buildOutput +:+ joinLines ls
    /\ displayCalls (showLines ls cyan ++ [FinishDisplay]) initialDisplay
       = Some (initialDisplay, out).
Proof.
  unfold shown.processDockerLogs, processDockerLogs.
  destruct (shown_logLoop (String.length logs) logs buildOutput []) as (ls & Hls & -> & ->).
  destruct (displayCalls_finish (showLines ls cyan) initialDisplay initialDisplay_reachable)
    as (out & Hout).
  by exists ls, out.
Qed.

(** ** ImageResolver: extraction followed by rewriting *)

Lemma mapBytes_app f s t : mapBytes f (s +:+ t) = mapBytes f s +:+ mapBytes f t.
Proof. induction s as [|c s IH]; [done|]. rewrite app_cons. cbn [mapBytes]. by rewrite IH. Qed.

Lemma safeImageName_app s t : safeImageName (s +:+ t) = safeImageName s +:+ safeImageName t.
Proof. by rewrite !safeImageName_bytes, mapBytes_app. Qed.

Lemma imageNameOf_extracted services name svc :
  (name, svc) ∈ services -> imageNameOf svc <> "" ->
  imageNameOf svc ∈ names (extractImages services).
Proof.
  intros Hin Hne. apply extractImages_names. unfold canonicalRefs.
  apply list_elem_of_filter. split; [done|].
  apply list_elem_of_In, in_map_iff. exists (name, svc). split; [done|by apply list_elem_of_In].
Qed.

Lemma rewriteService_extracted services name svc :
  (name, svc) ∈ services ->
  rewriteService (buildImageMapping (extractImages services)) name svc = retagService name svc.
Proof.
  intros Hin. unfold rewriteService, retagService, mapping.
  destruct (String.eqb (types.Image svc) "") eqn:E; [done|]. cbn [negb andb].
  rewrite buildImageMapping_lookup by (apply (inv_made _ _ (extractState_inv services))).
  rewrite decide_True.
  - cbn [default]. pose proof (localTag_nonempty (types.Image svc)) as Hne.
    apply String.eqb_neq in Hne. unfold id. by rewrite Hne.
  - assert (imageNameOf svc = types.Image svc) as Hname.
    { unfold imageNameOf. by rewrite E. }
    rewrite <- Hname. apply (imageNameOf_extracted services name); [done|].
    rewrite Hname. by apply String.eqb_neq.
Qed.

Lemma HasPrefix_embedded s : strings.HasPrefix ("embedded/" +:+ s) "embedded/" = true.
Proof. unfold strings.HasPrefix. rewrite !app_cons. cbn. by destruct s. Qed.

Lemma retagService_embedded name svc :
  (imageNameOf svc <> "" ->
   strings.HasPrefix (types.Image (retagService name svc)) "embedded/" = true)
  /\ (imageNameOf svc = "" -> retagService name svc = svc).
Proof.
  unfold imageNameOf, retagService.
  destruct (String.eqb (types.Image svc) "") eqn:E; cbn [negb].
  - destruct (types.Build svc); (split; [intros H|intros H]); try done.
    + apply HasPrefix_embedded.
    + by destruct (types.Name svc).
  - split; [intros _; apply HasPrefix_embedded|]. intros H. rewrite H in E. done.
Qed.

(** X17.  Rewriting a project with the images extracted from that same
    project never misses the image mapping: a service that declares an
    image gets that image's local tag and keeps its build section, a
    service with a build section only gets [embedded/<key>_latest] and
    loses it, any other service is unchanged.  Keys and their order are
    kept, and every service that contributes an image ends with an image
    in the [embedded/] name space. *)
Theorem rewriteServices_of_extracted_images (services : types.Services) :
  rewriteServices (extractImages services) services
  = map (fun entry => (fst entry, retagService (fst entry) (snd entry))) services
  /\ Forall2 (fun entry entry' =>
                fst entry' = fst entry
                /\ (imageNameOf (snd entry) <> "" ->
                    strings.HasPrefix (types.Image (snd entry')) "embedded/" = true)
                /\ (imageNameOf (snd entry) = "" -> snd entry' = snd entry))
             services (rewriteServices (extractImages services) services).
Proof.
  assert (rewriteServices (extractImages services) services
          = map (fun entry => (fst entry, retagService (fst entry) (snd entry))) services) as Heq.
  { unfold rewriteServices. apply map_ext_in. intros [name svc] Hin%list_elem_of_In.
    cbn [fst snd]. f_equal. by apply rewriteService_extracted. }
  split; [exact Heq|]. rewrite Heq. apply Forall2_fmap_r, Forall_Forall2_diag, Forall_forall.
  intros [name svc] _. cbn [fst snd]. split; [done|]. apply retagService_embedded.
Qed.

(** X18.  For a build-only service whose name equals its key and holds no
    slash, colon or hyphen, the image written by the rewriting pass is the
    local tag of the image extracted for that service, the tag under which
    the embedder saves it. *)
Theorem rewriteServices_build_only_plain_name
    (services : types.Services) (name : string) (svc : types.ServiceConfig) :
  (name, svc) ∈ services ->
  types.Image svc = "" ->
  is_Some (types.Build svc) ->
  types.Name svc = name ->
  safeImageName name = name ->
  exists img,
    img ∈ extractImages services
    /\ Name img = name +:+ ":latest"
    /\ (name, {| types.Name := name; types.Image := LocalTag img; types.Build := None |})
       ∈ rewriteServices (extractImages services) services.
Proof.
  intros Hin Himg [build Hbuild] Hname Hsafe.
  assert (imageNameOf svc = name +:+ ":latest") as Href.
  { unfold imageNameOf. by rewrite Himg, Hbuild, Hname. }
  assert (imageNameOf svc ∈ names (extractImages services)) as Hex.
  { apply (imageNameOf_extracted services name); [done|]. rewrite Href. by destruct name. }
  unfold names in Hex. apply list_elem_of_In, in_map_iff in Hex as (img & Himgname & Himgin).
  apply list_elem_of_In in Himgin.
  exists img. split; [done|]. split; [congruence|].
  unfold rewriteServices. apply list_elem_of_In, in_map_iff. exists (name, svc).
  split; [|by apply list_elem_of_In]. cbn [fst snd]. f_equal.
  rewrite (rewriteService_extracted services) by done.
  unfold retagService. rewrite Himg, Hbuild, Hname. cbn. f_equal.
  rewrite (extractImages_made _ _ Himgin), Himgname, Href. cbn [LocalTag newDockerImage].
  unfold localTag. by rewrite safeImageName_app, Hsafe.
Qed.

Lemma rewriteServices_build_only_plain_name_witness :
  exists img,
    img ∈ extractImages webServices
    /\ Name img = "web" +:+ ":latest"
    /\ ("web", {| types.Name := "web"; types.Image := LocalTag img; types.Build := None |})
       ∈ rewriteServices (extractImages webServices) webServices.
Proof.
  apply (rewriteServices_build_only_plain_name webServices "web"
           (snd (service "web" "" (Some {| types.Context := "./web" |})))).
  - left.
  - reflexivity.
  - by eexists.
  - reflexivity.
  - reflexivity.
Defined.

(** ** ArtifactLocator: the three locators *)

Lemma bind_perform {Op} {Resp : Op -> Type} {A} (o : Op) (k : Resp o -> M Op Resp A) w h :
  bind (perform o) k w h = k (w h o) w (h ++ [o]).
Proof. reflexivity. Qed.

Lemma ret_run {Op} {Resp : Op -> Type} {A} (a : A) (w : World Op Resp) h : ret a w h = (a, h).
Proof. reflexivity. Qed.

(** X21.  The [FindImageFile] of [nix/build_docker.go] and the one of
    [nix/nix.go] find the same file, or both fail, and perform the
    same operations, except for a path that contains [sprout-docker-],
    ends in the element [result.img] and is a directory. *)
Theorem FindImageFile_versions_agree (w : World FsOp FsResp) (path : string)
    (history : list FsOp) :
  ~ (strings.Contains path "sprout-docker-" = true
     /\ filepath.Base path = "result.img"
     /\ w history (Stat path) = StatOk true) ->
  found (valueOf (build_docker.FindImageFile path) w history)
  = found (valueOf (FindImageFile path) w history)
  /\ opsOf (build_docker.FindImageFile path) w history
     = opsOf (FindImageFile path) w history.
Proof.
  intros Hnot. unfold valueOf, opsOf, build_docker.FindImageFile, FindImageFile.
  rewrite !bind_perform.
  destruct (w history (Stat path)) as [isDir| |] eqn:Hstat; [|done..].
  destruct (negb isDir && isImg path); [done|].
  destruct (strings.Contains path "sprout-docker-") eqn:Hc.
  - destruct (String.eqb (filepath.Base path) "result.img") eqn:Hb.
    + destruct isDir; cbn [negb andb]; [|done].
      exfalso. apply Hnot. apply String.eqb_eq in Hb. done.
    + cbn [andb]. rewrite !bind_perform, !ret_run.
      by destruct (w (history ++ [Stat path]) (Stat (filepath.Join [path; "result.img"]))).
  - rewrite !bind_perform.
    destruct (w (history ++ [Stat path]) (Stat (filepath.Join [path; "sd-image"])));
      [|done|]; rewrite !bind_perform, !ret_run;
      by destruct (w _ (ReadDir _)) as [es|]; [destruct (firstImgEntry es)|].
Qed.

Lemma FindImageFile_versions_agree_witness :
  found (valueOf (build_docker.FindImageFile "/nix/store/k3v9-sprout-docker-demo") localFs [])
  = found (valueOf (FindImageFile "/nix/store/k3v9-sprout-docker-demo") localFs [])
  /\ opsOf (build_docker.FindImageFile "/nix/store/k3v9-sprout-docker-demo") localFs []
     = opsOf (FindImageFile "/nix/store/k3v9-sprout-docker-demo") localFs [].
Proof.
  apply (FindImageFile_versions_agree localFs "/nix/store/k3v9-sprout-docker-demo" []).
  intros (_ & H & _). vm_compute in H. discriminate H.
Defined.

(** X22.  On a directory named [result.img] under a path that contains
    [sprout-docker-] the two versions differ: the one of [nix/nix.go]
    fails at once, the one of [nix/build_docker.go] goes on to look for
    [result.img] inside that directory. *)
Theorem FindImageFile_versions_differ (w : World FsOp FsResp) (path : string)
    (history : list FsOp) :
  strings.Contains path "sprout-docker-" = true ->
  filepath.Base path = "result.img" ->
  w history (Stat path) = StatOk true ->
  let resultImg := filepath.Join [path; "result.img"] in
  FindImageFile path w history = (Err (DockerImageNotFound path), history ++ [Stat path])
  /\ build_docker.FindImageFile path w history
     = (match w (history ++ [Stat path]) (Stat resultImg) : StatResult with
        | StatOk _ => Ok resultImg
        | _ => Err (build_docker.DockerImageNotFound resultImg)
        end, history ++ [Stat path; Stat resultImg]).
Proof.
  intros Hc Hb Hstat. cbv zeta.
  unfold build_docker.FindImageFile, FindImageFile.
  rewrite !bind_perform, Hstat. cbn [negb andb]. rewrite Hc, Hb, String.eqb_refl.
  cbn [negb andb].
  split; [reflexivity|]. rewrite bind_perform, ret_run, <- app_assoc. reflexivity.
Qed.

Lemma FindImageFile_versions_differ_witness :
  FindImageFile "/home/u/sprout-docker-7/result.img" nestedResultFs []
  = (Err (DockerImageNotFound "/home/u/sprout-docker-7/result.img"),
     [] ++ [Stat "/home/u/sprout-docker-7/result.img"])
  /\ build_docker.FindImageFile "/home/u/sprout-docker-7/result.img" nestedResultFs []
     = (Ok "/home/u/sprout-docker-7/result.img/result.img",
        [] ++ [Stat "/home/u/sprout-docker-7/result.img";
               Stat "/home/u/sprout-docker-7/result.img/result.img"]).
Proof.
  apply (FindImageFile_versions_differ nestedResultFs "/home/u/sprout-docker-7/result.img" []);
    reflexivity.
Defined.

(** X23.  On a file system that does not change, for an existing path that
    is not itself an image file and does not contain [sprout-docker-],
    [findImageFile] of [internal/cmd/grow.go] and [FindImageFile] find the
    same file or both fail; [FindImageFile] performs one operation more,
    the [Stat] of the path itself. *)
Theorem findImageFile_agrees_on_local_results (w : World FsOp FsResp) (path : string)
    (isDir : bool) :
  staticFs w ->
  w [] (Stat path) = StatOk isDir ->
  negb isDir && isImg path = false ->
  strings.Contains path "sprout-docker-" = false ->
  found (valueOf (grow.findImageFile path) w [])
  = found (valueOf (FindImageFile path) w [])
  /\ opsOf (FindImageFile path) w [] = Stat path :: opsOf (grow.findImageFile path) w [].
Proof.
  intros Hstatic Hstat Himg Hc.
  unfold valueOf, opsOf, grow.findImageFile, FindImageFile. cbv zeta.
  rewrite !bind_perform, Hstat, Himg, Hc, !bind_perform. cbn [app].
  rewrite (Hstatic [Stat path] [] (Stat (filepath.Join [path; "sd-image"]))).
  destruct (w [] (Stat (filepath.Join [path; "sd-image"]))) eqn:E; [|done|];
    rewrite !bind_perform, !ret_run; cbn [app fst snd];
    rewrite (Hstatic [Stat path; Stat (filepath.Join [path; "sd-image"])]
               [Stat (filepath.Join [path; "sd-image"])]);
    by destruct (w _ (ReadDir _)) as [es|]; [destruct (firstImgEntry es)|].
Qed.

Lemma findImageFile_agrees_on_local_results_witness :
  found (valueOf (grow.findImageFile "/nix/store/k3v9-nixos-image") nixosFs [])
  = found (valueOf (FindImageFile "/nix/store/k3v9-nixos-image") nixosFs [])
  /\ opsOf (FindImageFile "/nix/store/k3v9-nixos-image") nixosFs []
     = Stat "/nix/store/k3v9-nixos-image"
       :: opsOf (grow.findImageFile "/nix/store/k3v9-nixos-image") nixosFs [].
Proof.
  apply (findImageFile_agrees_on_local_results nixosFs "/nix/store/k3v9-nixos-image" true);
    [intros h h' o; reflexivity|reflexivity..].
Defined.

(** ** ImageEmbedder: the loop of [nix/nix.go] and its split form *)

Lemma bind_bind {Op} {Resp : Op -> Type} {A B C}
    (m : M Op Resp A) (k1 : A -> M Op Resp B) (k2 : B -> M Op Resp C) w h :
  bind (bind m k1) k2 w h = bind m (fun x => bind (k1 x) k2) w h.
Proof. unfold bind. by destruct (m w h). Qed.

Lemma bind_ret {Op} {Resp : Op -> Type} {A B} (a : A) (k : A -> M Op Resp B) w h :
  bind (ret a) k w h = k a w h.
Proof. reflexivity. Qed.

Ltac mstep :=
  repeat first [rewrite bind_bind | rewrite bind_perform | rewrite bind_ret | rewrite ret_run];
  cbv beta iota.

Ltac answers w :=
  repeat (mstep;
          try match goal with
              | |- context [w ?h ?o] => destruct (w h o)
              end).

Lemma inlined_embedLoop images dir w : forall h,
  inlined.embedLoop images dir w h = embedLoop images dir w h.
Proof.
  induction images as [|img rest IH]; intros h; [reflexivity|].
  cbn [inlined.embedLoop embedLoop]. cbv zeta.
  unfold buildOrPullImage, buildLocalImage, pullImage, pullDefaultImage,
    tagAndSaveImage, saveImageToFile. cbv zeta.
  destruct (strings.HasSuffix (Name img) ":latest" && negb (strings.Contains (Name img) "/"));
    answers w; solve [reflexivity | apply IH].
Qed.

(** X14.  The loop that [nix/nix.go] writes out in one function and the
    loop that [internal/nix/docker.go] splits into [buildOrPullImage],
    [buildLocalImage], [pullImage], [pullDefaultImage], [tagAndSaveImage]
    and [saveImageToFile] return the same result and perform the same
    operations in the same order, for every configuration, environment
    and history. *)
Theorem buildAndSaveDockerImages_inlined_agrees
    (dockerConfig : DockerComposeConfig) (workingDir : string)
    (w : World DockerOp DockerResp) (history : list DockerOp) :
  inlined.buildAndSaveDockerImages dockerConfig workingDir w history
  = buildAndSaveDockerImages dockerConfig workingDir w history.
Proof.
  unfold inlined.buildAndSaveDockerImages, buildAndSaveDockerImages.
  rewrite !bind_perform.
  destruct (w (history ++ [Printf "Building and saving Docker images..."]) NewClient);
    [apply inlined_embedLoop|reflexivity].
Qed.

(** ** The two loaders *)

Lemma processDockerComposeImages_keeps yamlMarshal dockerConfig composePath
    (w : World DockerOp DockerResp) h dockerConfig' :
  valueOf (processDockerComposeImages yamlMarshal dockerConfig composePath) w h
  = Ok dockerConfig' ->
  Enabled dockerConfig' = Enabled dockerConfig
  /\ Path dockerConfig' = Path dockerConfig
  /\ Content dockerConfig' = Content dockerConfig
  /\ exists ops,
       opsOf (processDockerComposeImages yamlMarshal dockerConfig composePath) w h
       = h ++ LoadProject composePath :: ops.
Proof.
  unfold valueOf, opsOf. intros H.
  pose proof (processDockerComposeImages_run yamlMarshal dockerConfig composePath w h) as R.
  cbv zeta in R.
  destruct (w h (LoadProject composePath)) as [project|]; [|by rewrite R in H].
  unfold resolveImages, createModifiedComposeContent in R. cbn [Images] in R.
  destruct (yamlMarshal _) as [modifiedContent|] eqn:Hyaml in R; [|by rewrite R in H].
  rewrite R in H |- *. cbn [fst snd] in *.
  match type of H with
  | context [buildAndSaveDockerImages ?c ?d ?w ?h] =>
      pose proof (buildAndSaveDockerImages_run c d w h) as B;
      unfold valueOf, opsOf in B;
      destruct (buildAndSaveDockerImages c d w h) as [[[]|e''] h1]
  end; cbn [fst snd] in *; [|discriminate H].
  injection H as <-. cbn. destruct B as (ops & -> & _).
  repeat split. eexists. by rewrite <- app_assoc.
Qed.

(** X19.  Whenever [LoadSproutFileFromYAML] succeeds,
    [LoadSproutFileFromYAMLLightweight] succeeds on the same file, and the
    two configurations differ in [DockerCompose] at most, with the same
    [Enabled] and [Path].  When Docker Compose is disabled or has no path
    they are equal and no Docker operation is performed; otherwise
    [Content] is the text of the compose file, read at its own path when
    that is absolute and relative to the directory of the sprout file when
    it is not, and the first operation is the loading of that file. *)
Theorem LoadSproutFileFromYAML_extends_lightweight
    (readFile : string -> option string) (yamlUnmarshal : string -> option SproutFile)
    (yamlMarshal : types.Project -> option string) (filename : string)
    (w : World DockerOp DockerResp) (history : list DockerOp) (sproutFile : SproutFile) :
  valueOf (LoadSproutFileFromYAML readFile yamlUnmarshal yamlMarshal filename) w history
  = Ok sproutFile ->
  exists light,
    LoadSproutFileFromYAMLLightweight readFile yamlUnmarshal filename = Ok light
    /\ sproutFile = setDockerCompose light (DockerCompose sproutFile)
    /\ Enabled (DockerCompose sproutFile) = Enabled (DockerCompose light)
    /\ Path (DockerCompose sproutFile) = Path (DockerCompose light)
    /\ (Enabled (DockerCompose light) && negb (String.eqb (Path (DockerCompose light)) "") = false ->
        sproutFile = light
        /\ opsOf (LoadSproutFileFromYAML readFile yamlUnmarshal yamlMarshal filename) w history
           = history)
    /\ (Enabled (DockerCompose light) && negb (String.eqb (Path (DockerCompose light)) "") = true ->
        let dockerComposePath :=
          if IsAbs (Path (DockerCompose light)) then Path (DockerCompose light)
          else filepath.Join [filepath.Dir filename; Path (DockerCompose light)] in
        readFile dockerComposePath = Some (Content (DockerCompose sproutFile))
        /\ exists ops,
             opsOf (LoadSproutFileFromYAML readFile yamlUnmarshal yamlMarshal filename) w history
             = history ++ LoadProject dockerComposePath :: ops).
Proof.
  unfold valueOf, opsOf, LoadSproutFileFromYAML, LoadSproutFileFromYAMLLightweight.
  destruct (readFile filename) as [data|]; [|discriminate].
  destruct (yamlUnmarshal data) as [light|]; [|discriminate].
  cbv zeta. intros H. exists light. split; [done|].
  destruct (Enabled (DockerCompose light) && negb (String.eqb (Path (DockerCompose light)) ""))
    eqn:Hproc.
  - assert ((if negb (IsAbs (Path (DockerCompose light)))
             then filepath.Join [filepath.Dir filename; Path (DockerCompose light)]
             else Path (DockerCompose light))
            = (if IsAbs (Path (DockerCompose light)) then Path (DockerCompose light)
               else filepath.Join [filepath.Dir filename; Path (DockerCompose light)])) as Hpath
      by (by destruct (IsAbs _)).
    rewrite Hpath in H |- *. clear Hpath.
    set (dockerComposePath := if IsAbs (Path (DockerCompose light)) then _ else _) in *.
    destruct (readFile dockerComposePath) as [dockerComposeData|]; [|discriminate].
    unfold bind, ret in H |- *.
    match type of H with
    | context [processDockerComposeImages ?y ?c ?p ?w ?h] =>
        pose proof (processDockerComposeImages_keeps y c p w h) as K;
        unfold valueOf, opsOf in K;
        destruct (processDockerComposeImages y c p w h) as [[dc|e] h1]
    end; cbn [fst snd] in *; [|discriminate].
    injection H as <-. destruct (K dc eq_refl) as (He & Hp & Hc & ops & Hops).
    cbn in He, Hp, Hc. cbn [DockerCompose setDockerCompose].
    split; [done|]. split; [done|]. split; [done|].
    split; [intros Hf; discriminate Hf|]. intros _. split; [by rewrite Hc|]. by exists ops.
  - cbn [fst snd ret] in *. injection H as <-.
    split; [by destruct light|]. split; [done|]. split; [done|].
    split; [done|]. intros Hf; discriminate Hf.
Qed.

Lemma LoadSproutFileFromYAML_extends_lightweight_witness :
  exists light,
    LoadSproutFileFromYAMLLightweight appFiles appUnmarshal "/srv/app/sprout.yaml" = Ok light
    /\ appLoaded = setDockerCompose light (DockerCompose appLoaded).
Proof.
  destruct (LoadSproutFileFromYAML_extends_lightweight
              appFiles appUnmarshal (fun _ => Some "yaml") "/srv/app/sprout.yaml"
              (obligingDocker redisProject) [] appLoaded)
    as (light & Hl & Heq & _).
  - vm_compute. reflexivity.
  - by exists light.
Defined.

(** ** The archives on their way into the build directory *)

Lemma noSlash_cons c s : noSlash (String c s) <-> c <> "/"%char /\ noSlash s.
Proof.
  unfold noSlash, bytes. cbn [list_ascii_of_string]. rewrite not_elem_of_cons.
  split; intros [H1 H2]; split; try done; by intros ->.
Qed.





Lemma Contains_noSlash s : noSlash s -> strings.Contains s "/" = false.
Proof.
  induction s as [|c s IH]; [done|]. intros [Hc Hs]%noSlash_cons.
  cbn [strings.Contains]. rewrite prefix_single, IH by done.
  destruct (Ascii.eqb "/" c) eqn:E; [|done]. apply Ascii.eqb_eq in E. by subst.
Qed.



Lemma lastElement_noSlash s : noSlash s -> filepath.lastElement s = s.
Proof.
  destruct s as [|c s]; [done|]. intros [Hc Hs]%noSlash_cons.
  cbn [filepath.lastElement]. rewrite Contains_noSlash by done.
  unfold filepath.Separator. destruct (Ascii.eqb c "/") eqn:E; [|done].
  by apply Ascii.eqb_eq in E.
Qed.


















(** ** The demultiplexer: headers and frame boundaries *)

Local Open Scope Z_scope.

Lemma byteAt_range header i : 0 <= byteAt header i < 256.
Proof. unfold byteAt. destruct (String.get i header); [apply byte_range|lia]. Qed.

Lemma lor_disjoint hi lo k :
  0 <= k -> 0 <= lo < 2 ^ k -> Z.lor (Z.shiftl hi k) lo = hi * 2 ^ k + lo.
Proof.
  intros Hk Hlo. rewrite <- Z.shiftl_mul_pow2 by done.
  rewrite <- Z.add_lor_land.
  assert (Z.land (Z.shiftl hi k) lo = 0) as ->; [|lia].
  apply Z.bits_inj'. intros i Hi. rewrite Z.land_spec, Z.bits_0.
  destruct (Z.ltb_spec i k).
  - by rewrite Z.shiftl_spec_low.
  - rewrite <- (Z.mod_small lo (2 ^ k)) by done.
    rewrite Z.mod_pow2_bits_high by lia. apply andb_false_r.
Qed.

Lemma pack_value a b c d :
  0 <= a < 256 -> 0 <= b < 256 -> 0 <= c < 256 -> 0 <= d < 256 ->
  Z.lor (Z.lor (Z.lor (Z.shiftl a 24) (Z.shiftl b 16)) (Z.shiftl c 8)) d
  = a * 2 ^ 24 + b * 2 ^ 16 + c * 2 ^ 8 + d.
Proof.
  intros Ha Hb Hc Hd.
  assert (Z.lor (Z.lor (Z.shiftl a 24) (Z.shiftl b 16)) (Z.shiftl c 8)
          = Z.shiftl (Z.lor (Z.lor (Z.shiftl a 16) (Z.shiftl b 8)) c) 8) as ->.
  { rewrite !Z.shiftl_lor, !Z.shiftl_shiftl by lia. reflexivity. }
  assert (Z.lor (Z.shiftl a 16) (Z.shiftl b 8) = Z.shiftl (Z.lor (Z.shiftl a 8) b) 8) as ->.
  { rewrite !Z.shiftl_lor, !Z.shiftl_shiftl by lia. reflexivity. }
  rewrite !lor_disjoint by lia. lia.
Qed.

(** X6.  The payload size computed from a header by shifts and ors is the
    big-endian number held in bytes 4 to 7.  It is never negative and
    stays below 2^32, so the test [payloadSize <= 0] skips a frame only
    when these four bytes are all zero. *)
Theorem payloadSize_big_endian (header : string) :
  payloadSize header
  = byteAt header 4 * 2 ^ 24 + byteAt header 5 * 2 ^ 16 + byteAt header 6 * 2 ^ 8
    + byteAt header 7
  /\ 0 <= payloadSize header < 2 ^ 32
  /\ ((payloadSize header <=? 0) = true
      <-> byteAt header 4 = 0 /\ byteAt header 5 = 0 /\ byteAt header 6 = 0
          /\ byteAt header 7 = 0).
Proof.
  pose proof (byteAt_range header 4) as H4. pose proof (byteAt_range header 5) as H5.
  pose proof (byteAt_range header 6) as H6. pose proof (byteAt_range header 7) as H7.
  unfold payloadSize. rewrite pack_value by done.
  split; [done|]. split; [lia|]. rewrite Z.leb_le. lia.
Qed.

Close Scope Z_scope.

Lemma dropCR_fixed l :
  last (bytes l) <> Some carriageReturn -> bufio.dropCR l = l.
Proof.
  induction l as [|c l IH]; [done|]. intros Hlast.
  cbn [bufio.dropCR]. destruct l as [|c' l].
  - destruct (Ascii.eqb c carriageReturn) eqn:E; [|done].
    apply Ascii.eqb_eq in E. subst c. by destruct Hlast.
  - f_equal. apply IH. intros H. apply Hlast. exact H.
Qed.

Lemma trimmed_last l : trimmed (bytes l) -> last (bytes l) <> Some carriageReturn.
Proof.
  intros [_ Hr] Hlast. apply last_Some in Hlast as [front Hfront].
  rewrite Hfront, rev_app_distr in Hr. cbn in Hr. discriminate Hr.
Qed.

Lemma ScanLines_line l :
  accumulatedLine l -> (N.of_nat (String.length l) < bufio.MaxScanTokenSize)%N ->
  acceptedLines (bufio.ScanLines l) = [l].
Proof.
  intros (Hne & Htrim & Hno) Hlen.
  unfold bufio.ScanLines, bufio.rawLines. rewrite Split_line by done.
  assert (last [l] = Some l) as -> by done.
  assert (match l with "" => removelast [l] | _ => [l] end = [l]) as ->
    by (by destruct l).
  cbn [bufio.scanTokens].
  assert (bufio.fits l = true) as -> by (by apply N.ltb_lt).
  rewrite dropCR_fixed by (by apply trimmed_last, TrimSpace_fixed_iff).
  unfold acceptedLines. cbn [map]. rewrite Htrim.
  rewrite filter_cons, decide_True by done. done.
Qed.

(** X7.  Every payload is scanned on its own, so a frame boundary ends a
    line: two frames whose payloads are lines without a line feed are
    accumulated as two lines, not as their concatenation.  A store path
    that the daemon splits over two frames therefore reaches the builder
    in two pieces. *)
Theorem processDockerLogs_frame_boundary_ends_line (tag1 tag2 l1 l2 : string) :
  String.length tag1 = 4 -> String.length tag2 = 4 ->
  accumulatedLine l1 -> accumulatedLine l2 ->
  (N.of_nat (String.length l1) < bufio.MaxScanTokenSize)%N ->
  (N.of_nat (String.length l2) < bufio.MaxScanTokenSize)%N ->
  processDockerLogs (frame tag1 l1 +:+ frame tag2 l2) "" = l1 +:+ newline +:+ l2 +:+ newline
  /\ processDockerLogs (frame tag1 l1 +:+ frame tag2 l2) "" <> (l1 +:+ l2) +:+ newline.
Proof.
  intros Ht1 Ht2 Hl1 Hl2 Hlen1 Hlen2.
  assert (forall l, (N.of_nat (String.length l) < bufio.MaxScanTokenSize)%N ->
                    (Z.of_nat (String.length l) < 2 ^ 32)%Z) as Hsmall.
  { intros l. unfold bufio.MaxScanTokenSize. lia. }
  assert (processDockerLogs (frame tag1 l1 +:+ frame tag2 l2) ""
          = l1 +:+ newline +:+ l2 +:+ newline) as Heq.
  { rewrite processDockerLogs_frame by (split; [done|cbn [snd]; by apply Hsmall]).
    rewrite <- (app_empty_r (frame tag2 l2)).
    rewrite processDockerLogs_frame by (split; [done|cbn [snd]; by apply Hsmall]).
    rewrite processDockerLogs_empty, !writeLines_joinLines, !ScanLines_line by done.
    cbn [joinLines]. rewrite !app_empty_r. by rewrite !app_assoc_string. }
  split; [exact Heq|]. rewrite Heq. intros H.
  apply (f_equal String.length) in H. rewrite !length_app_string in H. simpl in H. lia.
Qed.

Lemma processDockerLogs_frame_boundary_ends_line_witness :
  processDockerLogs (frame stdoutTag "/nix/store/z9-nixos" +:+ frame stdoutTag "-sd-image") ""
  = "/nix/store/z9-nixos" +:+ newline +:+ "-sd-image" +:+ newline
  /\ processDockerLogs (frame stdoutTag "/nix/store/z9-nixos" +:+ frame stdoutTag "-sd-image") ""
     <> ("/nix/store/z9-nixos" +:+ "-sd-image") +:+ newline.
Proof.
  apply (processDockerLogs_frame_boundary_ends_line
           stdoutTag stdoutTag "/nix/store/z9-nixos" "-sd-image");
    try reflexivity;
    (apply accumulatedLine_by_computation; [discriminate|reflexivity|reflexivity]).
Defined.

(** ** The result of a local build *)


